(** * yuleq: a shallow embedding of the playback core of [yuleq.c]

    The development follows the C source function by function.

    - [int] values are integers of [Z] whose arithmetic wraps around at 32
      bits ([wrap_int]); [size_t] and [unsigned long] values wrap at 64 bits
      ([wrap_size]).
    - [float*] values are pointers ([ptr]) into a heap of blocks of samples;
      a read or a write outside its block (or through [NULL]) has no result.
    - The sample arithmetic of [apply_window] is an interface ([SampleOps])
      with two instances: IEEE 754 binary32 ([spec_float] of the Standard
      Library at precision 24) and the real numbers.
    - The window of [gen_window] is computed in binary64 and rounded to
      binary32, with [cos] of [<math.h>] as a parameter ([f32_curve]); the
      same expression under any rounding ([rounded_curve]) and in exact
      arithmetic ([R_curve]) carries what depends on that function.
    - The audio callback and a key command are each one atomic step. *)

From Stdlib Require Import ZArith Reals Lra Lia List String Ascii.
From Stdlib Require Import Floats.SpecFloat.
From Stdlib Require DecimalString.
From stdpp Require Import base option list gmap.

Open Scope Z_scope.

(** ** Machine integers *)

(** A 32-bit [int]: the representative of [z] in [-2^31, 2^31). *)
Definition wrap_int (z : Z) : Z := (z + 2147483648) mod 4294967296 - 2147483648.

(** A 64-bit [size_t] or [unsigned long]. *)
Definition wrap_size (z : Z) : Z := z mod 18446744073709551616.

Definition INT_MAX : Z := 2147483647.

Definition iadd (a b : Z) : Z := wrap_int (a + b).
Definition isub (a b : Z) : Z := wrap_int (a - b).
Definition imul (a b : Z) : Z := wrap_int (a * b).
(** C division truncates towards zero. *)
Definition idiv (a b : Z) : Z := wrap_int (a ÷ b).

(** ** Constants of the source *)

Definition MAX_TRACKS : Z := 10.
Definition MAX_LENGTH : Z := 600.
Definition STEP : Z := 50.
Definition LATENCY : Z := 20.

(** [sizeof(float)] *)
Definition SIZEOF_FLOAT : Z := 4.

Definition min (a b : Z) : Z := if a <? b then a else b.

Definition max (a b : Z) : Z := if a >? b then a else b.

(** ** Pointers, tracks, player *)

(** A [float*]: [NULL], or a block of the heap and an offset in samples. *)
Inductive ptr : Type :=
| NULL
| Ptr (b : nat) (o : Z).

(** Pointer arithmetic [p + k]. *)
Definition ptr_add (p : ptr) (k : Z) : ptr :=
  match p with
  | NULL => NULL
  | Ptr b o => Ptr b (o + k)
  end.

(** [struct track] *)
Record track : Type := mk_track {
  t_pcm : ptr;          (* interleaved channels *)
  t_name : string;      (* file name *)
  t_channels : Z;       (* source channels *)
  t_samplerate : Z;     (* source samplerate *)
  t_length : Z          (* total frames in buffer *)
}.

(** [struct player]; the field [end] is [p_end], and every field carries the
    prefix [p_]. *)
Record player : Type := mk_player {
  p_track : Z;          (* current track *)
  p_next : Z;           (* next track *)
  p_pos : Z;            (* track position *)
  p_start : Z;          (* loop start *)
  p_end : Z;            (* loop end *)
  p_length : Z;         (* total length in samples *)
  p_channels : Z;       (* output channels *)
  p_samplerate : Z;     (* output samplerate *)
  p_running : bool;     (* running flag *)
  p_paused : bool;      (* true when paused *)
  p_window : ptr        (* fade window coefficients *)
}.

Definition set_track (v : Z) (p : player) : player :=
  mk_player v (p_next p) (p_pos p) (p_start p) (p_end p) (p_length p)
            (p_channels p) (p_samplerate p) (p_running p) (p_paused p) (p_window p).

Definition set_next (v : Z) (p : player) : player :=
  mk_player (p_track p) v (p_pos p) (p_start p) (p_end p) (p_length p)
            (p_channels p) (p_samplerate p) (p_running p) (p_paused p) (p_window p).

Definition set_pos (v : Z) (p : player) : player :=
  mk_player (p_track p) (p_next p) v (p_start p) (p_end p) (p_length p)
            (p_channels p) (p_samplerate p) (p_running p) (p_paused p) (p_window p).

Definition set_start (v : Z) (p : player) : player :=
  mk_player (p_track p) (p_next p) (p_pos p) v (p_end p) (p_length p)
            (p_channels p) (p_samplerate p) (p_running p) (p_paused p) (p_window p).

Definition set_end (v : Z) (p : player) : player :=
  mk_player (p_track p) (p_next p) (p_pos p) (p_start p) v (p_length p)
            (p_channels p) (p_samplerate p) (p_running p) (p_paused p) (p_window p).

Definition set_length (v : Z) (p : player) : player :=
  mk_player (p_track p) (p_next p) (p_pos p) (p_start p) (p_end p) v
            (p_channels p) (p_samplerate p) (p_running p) (p_paused p) (p_window p).

Definition set_channels (v : Z) (p : player) : player :=
  mk_player (p_track p) (p_next p) (p_pos p) (p_start p) (p_end p) (p_length p)
            v (p_samplerate p) (p_running p) (p_paused p) (p_window p).

Definition set_samplerate (v : Z) (p : player) : player :=
  mk_player (p_track p) (p_next p) (p_pos p) (p_start p) (p_end p) (p_length p)
            (p_channels p) v (p_running p) (p_paused p) (p_window p).

Definition set_running (v : bool) (p : player) : player :=
  mk_player (p_track p) (p_next p) (p_pos p) (p_start p) (p_end p) (p_length p)
            (p_channels p) (p_samplerate p) v (p_paused p) (p_window p).

Definition set_paused (v : bool) (p : player) : player :=
  mk_player (p_track p) (p_next p) (p_pos p) (p_start p) (p_end p) (p_length p)
            (p_channels p) (p_samplerate p) (p_running p) v (p_window p).

Definition set_window (v : ptr) (p : player) : player :=
  mk_player (p_track p) (p_next p) (p_pos p) (p_start p) (p_end p) (p_length p)
            (p_channels p) (p_samplerate p) (p_running p) (p_paused p) v.

(** The static [player]: every field zero. *)
Definition player0 : player :=
  mk_player 0 0 0 0 0 0 0 0 false false NULL.

(** [tracks[i]] of the static array: a slot that was never loaded is zero,
    its [pcm] is [NULL]. *)
Definition track0 : track := mk_track NULL EmptyString 0 0 0.

Definition track_at (tracks : list track) (i : Z) : track :=
  if 0 <=? i then default track0 (tracks !! Z.to_nat i) else track0.

(** A C [for] loop that runs [k] times from index [i], its body threading a
    state that may fail. *)
Fixpoint for_loop {S : Type} (k : nat) (i : Z) (body : Z → S → option S) (s : S)
  : option S :=
  match k with
  | O => Some s
  | S k' => s' ← body i s; for_loop k' (i + 1) body s'
  end.

(** ** Sample arithmetic *)

(** The operations [apply_window] and [memset] use on a [float]. *)
Class SampleOps (F : Type) : Type := {
  fzero : F;                 (* all bytes zero: +0.0f *)
  fone : F;                  (* 1.0f *)
  fadd : F → F → F;
  fsub : F → F → F;
  fmul : F → F → F
}.

(** The value [(float)(0.5 + 0.5 * cos(M_PI * i / n))] of [gen_window]. *)
Class WindowCurve (F : Type) : Type := {
  fcoef : Z → Z → F
}.

Section Engine.
Context {F : Type} {ops : SampleOps F}.

Local Abbreviation mem := (gmap nat (list F)).

(** [p[i]] read. *)
Definition read (m : mem) (p : ptr) (i : Z) : option F :=
  match p with
  | NULL => None
  | Ptr b o =>
      l ← m !! b;
      if bool_decide (0 ≤ o + i) then l !! Z.to_nat (o + i) else None
  end.

(** [p[i] = v]. *)
Definition write (m : mem) (p : ptr) (i : Z) (v : F) : option mem :=
  match p with
  | NULL => None
  | Ptr b o =>
      l ← m !! b;
      if bool_decide (0 ≤ o + i < Z.of_nat (length l))
      then Some (<[b := <[Z.to_nat (o + i) := v]> l]> m)
      else None
  end.

(** [memset(dst, 0, bytes)], sample by sample. *)
Definition memset0 (m : mem) (dst : ptr) (bytes : Z) : option mem :=
  for_loop (Z.to_nat (bytes ÷ SIZEOF_FLOAT)) 0
           (λ i m, write m dst i fzero) m.

(** [memcpy(dst, src, bytes)], sample by sample. *)
Definition memcpy (m : mem) (dst src : ptr) (bytes : Z) : option mem :=
  for_loop (Z.to_nat (bytes ÷ SIZEOF_FLOAT)) 0
           (λ i m, x ← read m src i; write m dst i x) m.

(** [alloc(ptr, size)]: [realloc], which keeps the old samples that fit.
    Fresh samples are unspecified in C; they are [fzero] here, and every
    caller overwrites them before a read. *)
Definition alloc (m : mem) (p : ptr) (size : Z) : mem * ptr :=
  let cnt := Z.to_nat (size ÷ SIZEOF_FLOAT) in
  match p with
  | NULL =>
      let b := fresh (dom m) in
      (<[b := replicate cnt fzero]> m, Ptr b 0)
  | Ptr b o =>
      (<[b := resize cnt fzero (default [] (m !! b))]> m, Ptr b 0)
  end.

(** [apply_window]: cross-fade [out] to [inp] using the window. *)
Definition apply_window (p : player) (m : mem) (out inp : ptr) : option mem :=
  let ch := p_channels p in
  let n := idiv (imul LATENCY (p_samplerate p)) 1000 in
  let win := p_window p in
  for_loop (Z.to_nat (imul n ch)) 0
    (λ i m,
       w ← read m win i;
       o ← read m out i;
       x ← read m inp i;
       write m out i (fadd (fmul w o) (fmul (fsub fone w) x)))
    m.

(** [process]: the audio callback, on the heap [m] and the player [p], with
    the output buffer [output] and the frame count [n]. *)
Definition process (tracks : list track) (output : ptr) (n : Z)
    (s : mem * player) : option (mem * player) :=
  let '(m, p) := s in
  let ch := p_channels p in
  let inp := ptr_add (t_pcm (track_at tracks (p_track p))) (imul (p_pos p) ch) in
  let out := output in
  let bytes := wrap_size (wrap_size (n * wrap_size ch) * SIZEOF_FLOAT) in
  if p_paused p then
    m' ← memset0 m out bytes;
    Some (m', p)
  else
    m1 ← memcpy m out inp bytes;
    (* track switch windowing *)
    '(m2, p2) ←
      (if bool_decide (p_track p ≠ p_next p) then
         let inp := ptr_add (t_pcm (track_at tracks (p_next p))) (imul (p_pos p) ch) in
         m' ← apply_window p m1 out inp;
         Some (m', set_track (p_next p) p)
       else Some (m1, p));
    let p3 := set_pos (wrap_int (wrap_size (wrap_size (p_pos p2) + n))) p2 in
    (* loop windowing *)
    if p_pos p3 >? p_end p3 then
      let inp := ptr_add (t_pcm (track_at tracks (p_track p3))) (imul (p_start p3) ch) in
      m3 ← apply_window p3 m2 out inp;
      Some (m3, set_pos (wrap_int (wrap_size (wrap_size (p_start p3) + n))) p3)
    else Some (m2, p3).

(** [gen_window]: generate the cross-fade window. *)
Definition gen_window {curve : WindowCurve F} (s : mem * player)
  : option (mem * player) :=
  let '(m, p) := s in
  let ch := p_channels p in
  let n := idiv (imul LATENCY (p_samplerate p)) 1000 in
  let '(m0, win) :=
    alloc m (p_window p) (wrap_size (wrap_size (imul n ch) * SIZEOF_FLOAT)) in
  m' ← for_loop (Z.to_nat n) 0
         (λ i m,
            let w := fcoef i n in
            for_loop (Z.to_nat ch) 0
              (λ c m, write m win (iadd (imul i ch) c) w) m)
         m0;
  Some (m', set_window win p).

(** The block of [load_tracks] under [// apply zero padding to end of
    buffer], for the track [t] just loaded. *)
Definition pad_track (m : mem) (p : player) (t : track) : option (mem * track) :=
  let samples := idiv (imul LATENCY (p_samplerate p)) 1000 in
  let samples :=
    if t_length t <? p_length p
    then iadd samples (isub (p_length p) (t_length t))
    else samples in
  let size :=
    wrap_int (wrap_size (wrap_size (imul (t_length t) (t_channels t)) * SIZEOF_FLOAT)) in
  let bytes :=
    wrap_int (wrap_size (wrap_size (imul samples (t_channels t)) * SIZEOF_FLOAT)) in
  let '(m1, pcm) := alloc m (t_pcm t) (wrap_size (iadd size bytes)) in
  m2 ← memset0 m1 (ptr_add pcm (imul (t_length t) (t_channels t))) (wrap_size bytes);
  Some (m2, mk_track pcm (t_name t) (t_channels t) (t_samplerate t) (t_length t)).

End Engine.

(** ** Loading *)

(** What [ffprobe] and [ffmpeg] return for one file: the three integers that
    [grep_int] extracts, and the buffer of [slurp] with its size in bytes. *)
Record decoded : Type := mk_decoded {
  d_name : string;
  d_channels : Z;
  d_samplerate : Z;
  d_duration : Z;
  d_buf : ptr;
  d_size : Z
}.

(** [load_track]; [None] is [PANIC]. *)
Definition load_track (d : decoded) : option track :=
  if (d_channels d =? 0) || (d_samplerate d =? 0) then None
  else if d_duration d >? MAX_LENGTH then None
  else
    let length :=
      wrap_int (wrap_size (d_size d) / SIZEOF_FLOAT / wrap_size (d_channels d)) in
    Some (mk_track (d_buf d) (d_name d) (d_channels d) (d_samplerate d) length).

Section Loading.
Context {F : Type} {ops : SampleOps F}.

(** [load_tracks], with [arg.device_rate] and the decoded files
    ([arg.num_files] of them); [None] is [PANIC]. *)
Definition load_tracks (device_rate : Z) (files : list decoded)
    (s : gmap nat (list F) * player * list track)
  : option (gmap nat (list F) * player * list track) :=
  if bool_decide (length files = 0%nat) then None
  else
    for_loop (length files) 0
      (λ i '(m, p, tracks),
         d ← files !! Z.to_nat i;
         t ← load_track d;
         let tracks := <[Z.to_nat i := t]> tracks in
         let t0 := track_at tracks 0 in
         (* first track determines length, channels, rate *)
         if bool_decide (t_channels t ≠ t_channels t0) then None
         else if bool_decide (t_samplerate t ≠ t_samplerate t0) then None
         else
           let p :=
             if i =? 0 then
               set_samplerate
                 (if bool_decide (device_rate ≠ 0) then device_rate else t_samplerate t)
                 (set_channels (t_channels t) (set_length (t_length t) p))
             else p in
           '(m', t') ← pad_track m p t;
           Some (m', p, <[Z.to_nat i := t']> tracks))
      s.

End Loading.

(** [start_stream]: what [Pa_OpenStream] is called with. *)
Record stream_params : Type := mk_stream_params {
  channelCount : Z;
  sampleRate : Z;
  framesPerBuffer : Z
}.

(** [start_stream]; the device queries and their [PANIC]s are external. *)
Definition start_stream (p : player) : player * stream_params :=
  let ch := p_channels p in
  let sr := p_samplerate p in
  let samples := idiv (imul LATENCY sr) 1000 in
  let p := set_running true (set_end (p_length p) p) in
  (p, mk_stream_params ch sr samples).

(** ** Shuffling *)

Section Shuffle.
(** [RAND_MAX] of [<stdlib.h>]. *)
Variable RAND_MAX : Z.

(** [(int)(r / (RAND_MAX + 1.0) * k)] for [r = rand()]: the quotient and the
    product are exact in [double] when [RAND_MAX + 1] is a power of two and
    [r * k] is below [2^53], and the cast truncates. *)
Definition rand_index (r k : Z) : Z := (r * k) ÷ (RAND_MAX + 1).

(** [shuffle_tracks]; [rand] is the sequence that [srand(time(NULL))] selects,
    and the state counts the calls of [rand()]. *)
Definition shuffle_tracks (rand : nat → Z) (num_files : Z) (skip_first : bool)
    (tracks : list track) : option (list track) :=
  let n := num_files in
  let first := if skip_first then 1 else 0 in
  fst <$>
    for_loop (Z.to_nat (isub n 1 - first)) first
      (λ i '(tracks, calls),
         let j := iadd i (wrap_int (rand_index (rand calls) (isub n i))) in
         (* a negative index is outside the array *)
         if (0 <=? i) && (0 <=? j) then
           t ← tracks !! Z.to_nat i;
           tj ← tracks !! Z.to_nat j;
           Some (<[Z.to_nat j := t]> (<[Z.to_nat i := tj]> tracks), Datatypes.S calls)
         else None)
      (tracks, O).

End Shuffle.

(** ** The control loop *)

(** The code of a character constant. *)
Definition chr (c : ascii) : Z := Z.of_N (N_of_ascii c).

(** The [switch] of [main]'s loop, with [arg.num_files] and
    [step = STEP * player.samplerate / 1000]. *)
Definition handle_key (num_files step : Z) (key : ascii) (p : player) : player :=
  let ch := chr key in
  if ch =? chr " " then set_paused (negb (p_paused p)) p
  else if (chr "0" <=? ch) && (ch <=? chr "9") then
    let ch := if ch =? chr "0" then ch + 10 (* fallthru *) else ch in
    if ch - chr "0" <=? num_files then set_next (ch - chr "0" - 1) p else p
  else if ch =? chr "c" then (* clear end *)
    set_end (p_length p) p
  else if ch =? chr "d" then (* set end *)
    set_end (p_pos p) p
  else if ch =? chr "i" then (* dec start *)
    set_start (max (isub (p_start p) step) 0) p
  else if ch =? chr "k" then (* dec end *)
    set_end (max (isub (p_end p) step) (p_start p)) p
  else if ch =? chr "l" then (* inc end *)
    set_end (min (iadd (p_end p) step) (p_length p)) p
  else if ch =? chr "o" then (* inc start *)
    set_start (min (iadd (p_start p) step) (p_end p)) p
  else if ch =? chr "q" then (* quit *)
    set_running false p
  else if ch =? chr "s" then (* set start *)
    set_start (p_pos p) p
  else if ch =? chr "x" then (* clear start *)
    set_start 0 p
  else p.

(** [signal_handler] *)
Definition signal_handler (p : player) : player := set_running false p.

(** [step] of [main]. *)
Definition step_frames (p : player) : Z := idiv (imul STEP (p_samplerate p)) 1000.

(** What happens to the shared player after the stream has started: the
    audio library calls [process], the control loop reads a key, or SIGINT
    arrives. *)
Inductive event : Type :=
| Callback (output : ptr) (n : Z)
| Key (c : ascii)
| Sigint.

Section Run.
Context {F : Type} {ops : SampleOps F}.

(** One event; a key is only read [while (player.running)].  The loop tests
    [running] before it waits for the key: [step_late] below also admits the
    key that arrives after SIGINT. *)
Definition step_event (tracks : list track) (num_files step : Z) (e : event)
    (s : gmap nat (list F) * player) : option (gmap nat (list F) * player) :=
  match e with
  | Callback output n => process tracks output n s
  | Key c =>
      if p_running (snd s) then Some (fst s, handle_key num_files step c (snd s))
      else None
  | Sigint => Some (fst s, signal_handler (snd s))
  end.

(** A sequence of events, in order. *)
Fixpoint run (tracks : list track) (num_files step : Z) (es : list event)
    (s : gmap nat (list F) * player) : option (gmap nat (list F) * player) :=
  match es with
  | [] => Some s
  | e :: es' => s' ← step_event tracks num_files step e s; run tracks num_files step es' s'
  end.

End Run.

Section Late.
Context {F : Type} {ops : SampleOps F}.

(** One event as the threads can interleave it: [main] tests
    [player.running] before it blocks in [read_key], so the key that ends the
    wait is handled even when SIGINT has cleared [running] in between.  This
    step handles a key in every state: it admits every step of [step_event]
    and that late key. *)
Definition step_late (tracks : list track) (num_files step : Z) (e : event)
    (s : gmap nat (list F) * player) : option (gmap nat (list F) * player) :=
  match e with
  | Key c => Some (fst s, handle_key num_files step c (snd s))
  | _ => step_event tracks num_files step e s
  end.

Fixpoint run_late (tracks : list track) (num_files step : Z) (es : list event)
    (s : gmap nat (list F) * player) : option (gmap nat (list F) * player) :=
  match es with
  | [] => Some s
  | e :: es' =>
      s' ← step_late tracks num_files step e s; run_late tracks num_files step es' s'
  end.

End Late.

(** ** The two sample types *)

(** IEEE 754 binary32, round to nearest even. *)
Definition f32 : Type := spec_float.

Instance f32_ops : SampleOps f32 := {|
  fzero := S754_zero false;
  fone := S754_finite false 8388608 (-23);
  fadd := SFadd 24 128;
  fsub := SFsub 24 128;
  fmul := SFmul 24 128
|}.

(** Exact arithmetic. *)
Instance R_ops : SampleOps R := {|
  fzero := 0%R;
  fone := 1%R;
  fadd := Rplus;
  fsub := Rminus;
  fmul := Rmult
|}.

(** The window curve in exact arithmetic: the value that the expression of
    [gen_window] rounds. *)
Instance R_curve : WindowCurve R := {|
  fcoef i n := (1 / 2 + 1 / 2 * cos (PI * IZR i / IZR n))%R
|}.

(** ** The window in the arithmetic of the code *)

(** IEEE 754 binary64, the [double] of [gen_window]. *)
Definition f64 : Type := spec_float.

(** [(double)i] for an [int] [i]. *)
Definition f64_of_int (i : Z) : f64 := binary_normalize 53 1024 i 0 false.

(** [M_PI] (3.141592653589793116), [0.5] and [1.0] as doubles. *)
Definition f64_M_PI : f64 := S754_finite false 7074237752028440 (-51).
Definition f64_half : f64 := S754_finite false 4503599627370496 (-53).
Definition f64_one : f64 := S754_finite false 4503599627370496 (-52).

(** [(float)w] for a [double] [w]: the nearest binary32 value. *)
Definition f32_of_f64 (w : f64) : f32 :=
  match w with
  | S754_finite s m e => binary_round 24 128 s m e
  | _ => w
  end.

(** The coefficient [(float)(0.5 + 0.5 * cos(M_PI * i / n))] of
    [gen_window], each operation in binary64; [libm_cos] is [cos] of
    [<math.h>], which is not part of the source. *)
Definition f32_curve (libm_cos : f64 → f64) : WindowCurve f32 := {|
  fcoef i n :=
    f32_of_f64
      (SFadd 53 1024 f64_half
         (SFmul 53 1024 f64_half
            (libm_cos
               (SFdiv 53 1024 (SFmul 53 1024 f64_M_PI (f64_of_int i))
                      (f64_of_int n)))))
|}.

(** A stand-in for [cos] that has the one value the C standard fixes
    (Annex F: [cos(±0)] is 1); elsewhere it is [1 - x * x / 2]. *)
Definition cos_near_zero (x : f64) : f64 :=
  match x with
  | S754_zero _ => f64_one
  | _ => SFsub 53 1024 f64_one (SFmul 53 1024 f64_half (SFmul 53 1024 x x))
  end.

(** The same expression on real numbers with the rounding left open:
    [rnd64] rounds to [double], [rnd32] to [float], [cosd] is [cos] of
    [<math.h>] and [pi_d] the value of [M_PI]; an [int] converts exactly. *)
Definition rounded_curve (rnd64 rnd32 cosd : R → R) (pi_d : R) : WindowCurve R := {|
  fcoef i n :=
    rnd32 (rnd64 (1 / 2
                  + rnd64 (1 / 2 * cosd (rnd64 (rnd64 (pi_d * IZR i) / IZR n)))))%R
|}.

(** What the window needs of its arithmetic: rounding to nearest is
    monotone, leaves [0], [0.5], [1] and [M_PI] as they are and has a
    relative error of at most [2^-53]; [cos] of [<math.h>] is [1] at [0] and
    does not increase between [0] and [M_PI]. *)
Record window_arith (rnd64 rnd32 cosd : R → R) (pi_d : R) : Prop := {
  rnd64_mono : ∀ x y : R, (x <= y → rnd64 x <= rnd64 y)%R;
  rnd32_mono : ∀ x y : R, (x <= y → rnd32 x <= rnd32 y)%R;
  rnd64_zero : rnd64 0%R = 0%R;
  rnd64_half : rnd64 (1 / 2)%R = (1 / 2)%R;
  rnd64_one : rnd64 1%R = 1%R;
  rnd32_one : rnd32 1%R = 1%R;
  rnd64_pi : rnd64 pi_d = pi_d;
  rnd64_error : ∀ x : R, (1 <= x → rnd64 x <= x * (1 + / 2 ^ 53))%R;
  pi_d_range : (1 <= pi_d)%R;
  cosd_zero : cosd 0%R = 1%R;
  cosd_decr : ∀ x y : R, (0 <= x → x <= y → y <= pi_d → cosd y <= cosd x)%R
}.
(** ** Preconditions of the callback *)

(** [LATENCY * player.samplerate / 1000]: the expression that [gen_window],
    [apply_window], [start_stream] and [load_tracks] each compute. *)
Definition window_frames (p : player) : Z := idiv (imul LATENCY (p_samplerate p)) 1000.

(** The pointer [q] does not point into block [b]. *)
Definition apart (q : ptr) (b : nat) : bool :=
  match q with
  | NULL => true
  | Ptr b' _ => negb (b' =? b)%nat
  end.

(** A source that the stores of a slot-wise loop on [Ptr b o] cannot
    disturb before it is read: it lies in another block, or it is the
    destination itself. *)
Definition same_or_apart (q : ptr) (b : nat) (o : Z) : Prop :=
  apart q b = true ∨ q = Ptr b o.

Section Ranges.
Context {F : Type}.

(** The [cnt] samples from [q] lie inside a block of the heap. *)
Definition valid_range (m : gmap nat (list F)) (q : ptr) (cnt : Z) : bool :=
  match q with
  | NULL => false
  | Ptr b o =>
      match m !! b with
      | Some l => (0 <=? o) && (o + cnt <=? Z.of_nat (length l))
      | None => false
      end
  end.

End Ranges.

Section WindowBlock.
Context {F : Type}.

(** The block that [alloc] gives the window in [gen_window]: the old one, or
    a fresh one. *)
Definition window_block (m : gmap nat (list F)) (p : player) : nat :=
  match p_window p with
  | NULL => fresh (dom m)
  | Ptr b _ => b
  end.

End WindowBlock.

Section Preconditions.
Context {F : Type}.

(** What [process] relies on when it is called with the output buffer
    [output] and [n] frames: [n] is the frame count that [start_stream]
    asked for, no [int] overflows, the output buffer holds [n] frames and is
    a block of its own, and the window and the track buffers hold the
    samples that the callback reads at [pos] and, on a wrap, at [start]. *)
Definition callback_ok (tracks : list track) (output : ptr) (n : Z)
    (m : gmap nat (list F)) (p : player) : bool :=
  let ch := p_channels p in
  let cnt := n * ch in
  let cur := ptr_add (t_pcm (track_at tracks (p_track p))) (p_pos p * ch) in
  let nxt := ptr_add (t_pcm (track_at tracks (p_next p))) (p_pos p * ch) in
  let rst := ptr_add (t_pcm (track_at tracks (p_next p))) (p_start p * ch) in
  (0 <? ch) && (ch <=? INT_MAX) && (0 <=? n) && (n =? window_frames p) && (cnt <=? INT_MAX)
  && (0 <=? p_pos p) && (p_pos p * ch <=? INT_MAX) && (p_pos p + n <=? INT_MAX)
  && (0 <=? p_start p) && (p_start p * ch <=? INT_MAX) && (p_start p + n <=? INT_MAX)
  && valid_range m output cnt
  && match output with
     | NULL => false
     | Ptr bo _ => apart (p_window p) bo && apart cur bo && apart nxt bo && apart rst bo
     end
  && valid_range m (p_window p) cnt
  && valid_range m cur cnt
  && valid_range m nxt cnt
  && ((p_pos p + n <=? p_end p) || valid_range m rst cnt).

End Preconditions.

(** ** The loop region *)

(** [0 ≤ start ≤ pos ≤ end ≤ length] *)
Definition loop_invariant (p : player) : bool :=
  (0 <=? p_start p) && (p_start p <=? p_pos p) && (p_pos p <=? p_end p)
  && (p_end p <=? p_length p).

(** [0 ≤ start ≤ end ≤ length] *)
Definition bounds_ordered (p : player) : bool :=
  (0 <=? p_start p) && (p_start p <=? p_end p) && (p_end p <=? p_length p).

(** The events that cannot put [pos] outside the loop region: a callback
    whose region holds at least [n] frames, so that [start + n] does not
    pass [end]; the key [k] while [end - step] stays at or after [pos]; the
    key [o] while [start + step] stays at or before [pos]; every other key. *)
Definition keeps_inside (step : Z) (e : event) (p : player) : bool :=
  match e with
  | Callback _ n =>
      (0 <=? n) && (p_length p + n <=? INT_MAX)
      && (p_paused p || (p_start p + n <=? p_end p))
  | Key c =>
      if chr c =? chr "k" then p_pos p <=? p_end p - step
      else if chr c =? chr "o" then p_start p + step <=? p_pos p
      else true
  | Sigint => true
  end.

Section Reach.
Context {F : Type} {ops : SampleOps F}.

(** The states the player reaches from [s] through events that [ok]
    admits. *)
Inductive reach (tracks : list track) (num_files step : Z)
    (ok : event → player → bool)
    (s : gmap nat (list F) * player) : gmap nat (list F) * player → Prop :=
| reach_here : reach tracks num_files step ok s s
| reach_event e s1 s2 :
    reach tracks num_files step ok s s1 →
    ok e (snd s1) = true →
    step_event tracks num_files step e s1 = Some s2 →
    reach tracks num_files step ok s s2.

End Reach.

(** ** A small session *)

(** Two mono files at 100 Hz, ten frames each: the window and the callback
    are two frames long, the step is five frames. Block 1 and block 2 are the
    buffers of [slurp]; block 0 is the window, [1.0f] and [0.5f] being
    [(float)(0.5 + 0.5 * cos(0.0))] and [(float)(0.5 + 0.5 * cos(M_PI / 2))];
    block 3 is the output buffer of the audio library. *)
Definition f32_one : f32 := S754_finite false 8388608 (-23).
Definition f32_half : f32 := S754_finite false 8388608 (-24).
Definition f32_zero : f32 := S754_zero false.

Definition ex_files : list decoded :=
  [mk_decoded "a" 1 100 0 (Ptr 1 0) 40; mk_decoded "b" 1 100 0 (Ptr 2 0) 40].

Definition ex_slurped : gmap nat (list f32) :=
  <[2%nat := replicate 10 f32_half]> (<[1%nat := replicate 10 f32_one]> ∅).

Definition ex_tracks : list track :=
  [mk_track (Ptr 1 0) "a" 1 100 10; mk_track (Ptr 2 0) "b" 1 100 10]
  ++ replicate 8 track0.

Definition ex_heap : gmap nat (list f32) :=
  <[3%nat := [f32_zero; f32_zero]]>
    (<[0%nat := [f32_one; f32_half]]>
       (<[2%nat := replicate 10 f32_half ++ [f32_zero; f32_zero]]>
          (<[1%nat := replicate 10 f32_one ++ [f32_zero; f32_zero]]> ∅))).

(** The player after [load_tracks] and [gen_window], and when
    [start_stream] returns. *)
Definition ex_loaded : player :=
  mk_player 0 0 0 0 0 10 1 100 false false (Ptr 0 0).

Definition ex_player : player := fst (start_stream ex_loaded).

(** A session of two stereo files of ten seconds at 44100 Hz, for the
    traces that consist of keys only: its heap is never read. *)
Definition cd_loaded : player :=
  mk_player 0 0 0 0 0 441000 2 44100 false false (Ptr 0 0).

Definition cd_player : player := fst (start_stream cd_loaded).

Definition ex_out : ptr := Ptr 3 0.

(** The small session after two callbacks, the key [k] ([end = 5]) and, for
    [ex_armed], the key [2] (a switch to the second track is armed): the
    next callback passes [end]. *)
Definition ex_wrapping : player :=
  mk_player 0 0 4 0 5 10 1 100 true false (Ptr 0 0).

Definition ex_armed : player :=
  mk_player 0 1 4 0 5 10 1 100 true false (Ptr 0 0).

(** A mono file of five frames at 50 Hz, loaded: the window has one frame. *)
Definition one_frame : player :=
  mk_player 0 0 0 0 0 5 1 50 false false NULL.

(** A heap of real samples: block 1 holds a padded track of ten frames,
    block 3 is an output buffer of two frames. *)
Definition real_heap : gmap nat (list R) :=
  <[3%nat := [0%R; 0%R]]> (<[1%nat := replicate 12 1%R]> ∅).

(** A mono session at 200 Hz: the window has four frames, in binary32
    [1.0], [0.85355341], [0.5] and [0.14644662]; block 1 holds four samples
    [0.7f]. *)
Definition f32_07 : f32 := S754_finite false 11744051 (-24).

Definition fade_player : player :=
  mk_player 0 0 0 0 10 10 1 200 true false (Ptr 0 0).

Definition fade_heap : gmap nat (list f32) :=
  <[1%nat := replicate 4 f32_07]>
    (<[0%nat := [f32_one; S754_finite false 14320250 (-24); f32_half;
                 S754_finite false 9827866 (-26)]]> ∅).

(** A third file of the small session, seven frames long, as [load_track]
    returns it, with its buffer in block 5. *)
Definition short_track : track := mk_track (Ptr 5 0) "c" 1 100 7.

Definition short_heap : gmap nat (list f32) :=
  <[5%nat := replicate 7 f32_half]> ∅.

(** The small session with a shorter second file, seven frames long, as
    [slurp] returns the two buffers. *)
Definition short_files : list decoded :=
  [mk_decoded "a" 1 100 0 (Ptr 1 0) 40; mk_decoded "c" 1 100 0 (Ptr 5 0) 28].

Definition short_slurped : gmap nat (list f32) :=
  <[1%nat := replicate 10 f32_one]> short_heap.

(** [RAND_MAX] of glibc, and a sequence of [rand()] results. *)
Definition glibc_RAND_MAX : Z := 2147483647.

Definition ex_rand (calls : nat) : Z :=
  (1103515245 * Z.of_nat calls + 1073741824) mod 2147483648.

(** Four files of the small session, for a shuffle that has tracks to
    exchange. *)
Definition four_tracks : list track :=
  [mk_track (Ptr 1 0) "a" 1 100 10; mk_track (Ptr 2 0) "b" 1 100 10;
   mk_track (Ptr 5 0) "c" 1 100 10; mk_track (Ptr 6 0) "d" 1 100 10]
  ++ replicate 6 track0.


(** ** What a callback may change *)

Section Frame.
Context {F : Type}.

(** The heap [m'] differs from [m] in the contents of block [bo] at most:
    every other block is the same, and block [bo] has kept its size. *)
Definition only_block (bo : nat) (m m' : gmap nat (list F)) : Prop :=
  (∀ b, b ≠ bo → m' !! b = m !! b)
  ∧ length <$> m' !! bo = length <$> m !! bo.

End Frame.


(** ** More about the control loop *)

(** The events of a session in which the keys [s] (set start) and [d] (set
    end) are never pressed and every callback has [n] frames. *)
Definition without_set_keys (n : Z) (e : event) (p : player) : bool :=
  match e with
  | Callback _ n' => n' =? n
  | Key c => negb (chr c =? chr "s") && negb (chr c =? chr "d")
  | Sigint => true
  end.


(** ** Preconditions of loading *)

(** The block of a pointer. *)
Definition block_of (q : ptr) : nat :=
  match q with
  | NULL => O
  | Ptr b _ => b
  end.

Section Loadable.
Context {F : Type}.

(** What [load_tracks] needs to get through: there is a file; every file
    passes [load_track]; the buffers that [slurp] returned are distinct
    blocks of the heap; the files agree with the first one on channels and
    sample rate; and no buffer size overflows an [int] once padded. *)
Definition loadable (device_rate : Z) (files : list decoded)
    (m : gmap nat (list F)) : bool :=
  match files with
  | [] => false
  | d0 :: _ =>
      match load_track d0 with
      | None => false
      | Some t0 =>
          let sr :=
            if bool_decide (device_rate ≠ 0) then device_rate else t_samplerate t0 in
          let W := idiv (imul LATENCY sr) 1000 in
          (0 <=? W)
          && bool_decide (NoDup ((λ d, block_of (d_buf d)) <$> files))
          && forallb
               (λ d,
                  match load_track d, d_buf d with
                  | Some t, Ptr b o =>
                      (t_channels t =? t_channels t0)
                      && (t_samplerate t =? t_samplerate t0)
                      && (0 <? d_channels d) && (d_channels d <=? INT_MAX)
                      && (0 <=? d_size d) && (d_size d <=? INT_MAX)
                      && bool_decide (is_Some (m !! b))
                      && ((Z.max (t_length t) (t_length t0) + W) * t_channels t
                          * SIZEOF_FLOAT <=? INT_MAX)
                  | _, _ => false
                  end)
               files
      end
  end.

End Loadable.

(** ** The terminal *)

(** [printf("%d", n)] *)
Definition print_int (n : Z) : string :=
  DecimalString.NilZero.string_of_int (Z.to_int n).

(** The line feed that ends a [printf] format. *)
Definition LF : string := String (ascii_of_nat 10) EmptyString.

(** [print_files], with [arg.num_files]; the result is what the calls of
    [printf] write, one string for each call. *)
Definition print_files (num_files : Z) (tracks : list track) (reference blind : bool)
  : option (list string) :=
  let out := if reference then [String.append "[1] reference" LF] else [] in
  let first := if reference then 1 else 0 in
  for_loop (Z.to_nat (num_files - first)) first
    (λ i out,
       let name := if blind then "???"%string else t_name (track_at tracks i) in
       Some (out ++ [String.append "["
                       (String.append (print_int (Z.rem (iadd i 1) 10))
                          (String.append "] " (String.append name LF)))]))
    out.

(** [print_progress]: the 81 bytes given to [write]; [junk] is what the
    local array holds at first, and a division by a zero length has no
    result. *)
Definition print_progress (junk : nat → Z) (p : player) : option (list Z) :=
  if p_length p =? 0 then None
  else
    let pos := idiv (imul (p_pos p) 80) (p_length p) in
    let start := idiv (imul (p_start p) 80) (p_length p) in
    let end' := idiv (imul (isub (p_end p) 1) 80) (p_length p) in
    buf ← for_loop 80 0
      (λ i buf,
         let c :=
           if i =? pos then chr "0" + Z.rem (iadd (p_track p) 1) 10
           else if i =? start then chr "["
           else if i =? end' then chr "]"
           else chr "-" in
         Some (<[Z.to_nat i := c]> buf))
      (junk <$> seq 0 81);
    Some (<[80%nat := 13]> buf).

(** The key whose digit [print_files] prints in front of track [i]. *)
Definition key_of (i : Z) : ascii :=
  ascii_of_nat (Z.to_nat (chr "0" + Z.rem (i + 1) 10)).

(** ** The command line *)

(** [struct arg]; [files] is the array of [MAX_TRACKS] names, [None] a
    null pointer. *)
Record arg : Type := mk_arg {
  a_list_devices : bool;
  a_blind : bool;
  a_refblind : bool;
  a_device_index : Z;
  a_device_rate : Z;
  a_files : list (option string);
  a_num_files : Z;
  a_verbose : bool
}.

(** The static [arg]: every field zero. *)
Definition arg0 : arg :=
  mk_arg false false false 0 0 (replicate (Z.to_nat MAX_TRACKS) None) 0 false.

Definition set_list_devices (v : bool) (a : arg) : arg :=
  mk_arg v (a_blind a) (a_refblind a) (a_device_index a) (a_device_rate a)
         (a_files a) (a_num_files a) (a_verbose a).

Definition set_blind (v : bool) (a : arg) : arg :=
  mk_arg (a_list_devices a) v (a_refblind a) (a_device_index a) (a_device_rate a)
         (a_files a) (a_num_files a) (a_verbose a).

Definition set_refblind (v : bool) (a : arg) : arg :=
  mk_arg (a_list_devices a) (a_blind a) v (a_device_index a) (a_device_rate a)
         (a_files a) (a_num_files a) (a_verbose a).

Definition set_device_index (v : Z) (a : arg) : arg :=
  mk_arg (a_list_devices a) (a_blind a) (a_refblind a) v (a_device_rate a)
         (a_files a) (a_num_files a) (a_verbose a).

Definition set_device_rate (v : Z) (a : arg) : arg :=
  mk_arg (a_list_devices a) (a_blind a) (a_refblind a) (a_device_index a) v
         (a_files a) (a_num_files a) (a_verbose a).

Definition add_file (i : nat) (s : string) (n : Z) (a : arg) : arg :=
  mk_arg (a_list_devices a) (a_blind a) (a_refblind a) (a_device_index a)
         (a_device_rate a) (<[i := Some s]> (a_files a)) n (a_verbose a).

Definition set_verbose (v : bool) (a : arg) : arg :=
  mk_arg (a_list_devices a) (a_blind a) (a_refblind a) (a_device_index a)
         (a_device_rate a) (a_files a) (a_num_files a) v.

(** [s[k]] of a C string: a character of [s], the terminator behind the
    last one, and nothing beyond it. *)
Definition char_at (s : string) (k : nat) : option Z :=
  match String.get k s with
  | Some c => Some (chr c)
  | None => if (k =? String.length s)%nat then Some 0 else None
  end.

(** [&s[k]] read as a string. *)
Fixpoint string_from (k : nat) (s : string) : string :=
  match k, s with
  | O, _ => s
  | S k', String _ s' => string_from k' s'
  | S _, EmptyString => EmptyString
  end.

(** How [parse_args] ends: it returns, or it calls [exit] (after the help
    text with status 0, in [PANIC] with status 1). *)
Inductive outcome : Type :=
| Parsed (a : arg)
| Exit (status : Z).

Section ParseArgs.
(** [strtol(value, &endptr, 10)]: the number, or [None] when no digits were
    read ([endptr == value]). *)
Variable strtol : string → option Z.

(** [parse_args]: the loop over [argv], as a recursion on the arguments from
    [argv[i]] on.  [None] is a read outside a string or a write outside
    [arg.files]. *)
Fixpoint parse_args (argv : list string) (a : arg) : option outcome :=
  match argv with
  | [] => Some (Parsed a)
  | s :: rest =>
      c0 ← char_at s 0;
      if negb (c0 =? chr "-") then
        (* file args *)
        if a_num_files a >=? MAX_TRACKS then Some (Exit 1)
        else if bool_decide (0 ≤ a_num_files a < Z.of_nat (length (a_files a))) then
          parse_args rest
            (add_file (Z.to_nat (a_num_files a)) s (iadd (a_num_files a) 1) a)
        else None
      else
        flag ← char_at s 1;
        (* [flag && argv[i][2]] *)
        attached ← (if flag =? 0 then Some false
                    else c2 ← char_at s 2; Some (negb (c2 =? 0)));
        (* get value as -xbar or -x bar *)
        let value :=
          if attached : bool then string_from 2 s
          else match rest with
               | v :: _ => v
               | [] => EmptyString
               end in
        if flag =? chr "h" then Some (Exit 0)
        else if flag =? chr "v" then parse_args rest (set_verbose true a)
        else if flag =? chr "b" then parse_args rest (set_blind true a)
        else if flag =? chr "r" then parse_args rest (set_refblind true a)
        else if flag =? chr "l" then parse_args rest (set_list_devices true a)
        else if flag =? chr "d" then
          match strtol value with
          | None => Some (Exit 1)
          | Some n =>
              let a := set_device_index (wrap_int (n + 1)) a in
              (* i += !argv[i][2] *)
              c2 ← char_at s 2;
              if c2 =? 0 then
                match rest with
                | [] => Some (Parsed a)
                | _ :: rest' => parse_args rest' a
                end
              else parse_args rest a
          end
        else if flag =? chr "o" then
          match strtol value with
          | None => Some (Exit 1)
          | Some n =>
              let a := set_device_rate (wrap_int n) a in
              c2 ← char_at s 2;
              if c2 =? 0 then
                match rest with
                | [] => Some (Parsed a)
                | _ :: rest' => parse_args rest' a
                end
              else parse_args rest a
          end
        else Some (Exit 1)
  end.

End ParseArgs.

(** A [strtol] for decimal digits with an optional sign, without leading
    white space and without the clamp to [long]. *)
Fixpoint digits (s : string) (acc : option Z) : option Z :=
  match s with
  | EmptyString => acc
  | String c s' =>
      if (chr "0" <=? chr c) && (chr c <=? chr "9")
      then digits s' (Some (default 0 acc * 10 + (chr c - chr "0")))
      else acc
  end.

Definition strtol10 (s : string) : option Z :=
  match s with
  | String "-" s' => Z.opp <$> digits s' None
  | String "+" s' => digits s' None
  | _ => digits s None
  end.

(** ** Reading a command's output *)

Definition CHUNK_SIZE : Z := 1048576.   (* 0x100000 *)

Section Slurp.
(** The value of a byte that [realloc] has added and nothing has written. *)
Variable junk : Z.

(** [fread(buf + len, 1, CHUNK_SIZE, f)] on a pipe: the next [CHUNK_SIZE]
    bytes of the stream, fewer at its end, stored from [buf + len] on; the
    result is the buffer, the rest of the stream and the count. *)
Definition fread (buf : list Z) (len : Z) (f : list Z) : option (list Z * list Z * Z) :=
  let got := take (Z.to_nat CHUNK_SIZE) f in
  let n := Z.of_nat (length got) in
  if bool_decide (0 ≤ len ∧ len + n ≤ Z.of_nat (length buf)) then
    Some (take (Z.to_nat len) buf ++ got ++ drop (Z.to_nat (len + n)) buf,
          drop (Z.to_nat CHUNK_SIZE) f, n)
  else None.

(** The [while] loop of [slurp] and the assignment behind it; [fuel] bounds
    the number of iterations. *)
Fixpoint slurp_loop (fuel : nat) (f : list Z) (buf : list Z) (len cap n : Z)
  : option (list Z * Z) :=
  if n =? CHUNK_SIZE then
    match fuel with
    | O => None
    | S fuel' =>
        let buf := resize (Z.to_nat cap) junk buf in   (* alloc(buf, cap) *)
        '(buf, f, n) ← fread buf len f;
        let n := wrap_int n in
        slurp_loop fuel' f buf (iadd len n) (iadd cap CHUNK_SIZE) n
    end
  else if bool_decide (0 ≤ len < Z.of_nat (length buf))
       then Some (<[Z.to_nat len := 0]> buf, len)   (* ensure zero termination *)
       else None.

(** [slurp], from [popen] on: [f] is the output of the command ([None] when
    [popen] fails) and [status] what [pclose] returns.  The result is the
    [struct buffer]; [None] is [PANIC], or an access outside the buffer. *)
Definition slurp (fuel : nat) (f : option (list Z)) (status : Z) : option (list Z * Z) :=
  f ← f;
  b ← slurp_loop fuel f [] 0 CHUNK_SIZE CHUNK_SIZE;
  if negb (status =? 0) then None else Some b.

End Slurp.

(** * Proofs *)

(** ** Machine integers *)

Lemma wrap_int_id z : -2147483648 ≤ z ≤ INT_MAX → wrap_int z = z.
Proof.
  unfold wrap_int, INT_MAX. intros Hz.
  rewrite Z.mod_small by lia. lia.
Qed.

Lemma wrap_size_id z : 0 ≤ z < 18446744073709551616 → wrap_size z = z.
Proof. unfold wrap_size. intros Hz. by rewrite Z.mod_small. Qed.

Lemma wrap_int_range z : -2147483648 ≤ wrap_int z ≤ INT_MAX.
Proof.
  unfold wrap_int, INT_MAX.
  pose proof (Z.mod_pos_bound (z + 2147483648) 4294967296 eq_refl). lia.
Qed.

(** [(int)((unsigned long)a + n)] when the sum fits an [int]. *)
Lemma advance_id a n :
  0 ≤ a → 0 ≤ n → a + n ≤ INT_MAX →
  wrap_int (wrap_size (wrap_size a + n)) = a + n.
Proof.
  unfold INT_MAX. intros Ha Hn Hs.
  rewrite (wrap_size_id a) by lia.
  rewrite wrap_size_id by lia.
  apply wrap_int_id. unfold INT_MAX. lia.
Qed.

(** ** The heap *)

Section HeapFacts.
Context {F : Type} {ops : SampleOps F}.

Local Abbreviation mem := (gmap nat (list F)).

Lemma read_Ptr (m : mem) b o i l :
  m !! b = Some l → 0 ≤ o + i →
  read m (Ptr b o) i = l !! Z.to_nat (o + i).
Proof.
  intros Hb Hi. unfold read. rewrite Hb. simpl.
  by rewrite bool_decide_eq_true_2.
Qed.

Lemma write_Ptr (m : mem) b o i v l :
  m !! b = Some l → 0 ≤ o + i < Z.of_nat (length l) →
  write m (Ptr b o) i v = Some (<[b := <[Z.to_nat (o + i) := v]> l]> m).
Proof.
  intros Hb Hi. unfold write. rewrite Hb. simpl.
  by rewrite bool_decide_eq_true_2.
Qed.

(** A read succeeds exactly inside the block. *)
Lemma read_is_Some (m : mem) b o i l :
  m !! b = Some l → 0 ≤ o + i < Z.of_nat (length l) →
  is_Some (read m (Ptr b o) i).
Proof.
  intros Hb Hi. rewrite (read_Ptr m b o i l) by (done || lia).
  apply lookup_lt_is_Some. lia.
Qed.

Lemma read_outside (m : mem) b o i l :
  m !! b = Some l → ¬ (0 ≤ o + i < Z.of_nat (length l)) →
  read m (Ptr b o) i = None.
Proof.
  intros Hb Hi. unfold read. rewrite Hb. simpl.
  case_bool_decide; [|done].
  apply lookup_ge_None. lia.
Qed.

(** The loops that store one slot per iteration ([memset], [memcpy], the
    loop of [apply_window]): when the body, run on any heap the loop can have
    reached, writes [val j] to slot [j] of [Ptr b o], the loop fills the
    slots [i .. i + k) and touches nothing else. *)
Lemma for_loop_store b o (body : Z → mem → option mem) (val : Z → F) (m : mem) :
  ∀ (k : nat) (i : Z) (l : list F),
    0 ≤ o + i →
    o + i + Z.of_nat k ≤ Z.of_nat (length l) →
    (∀ j l', i ≤ j < i + Z.of_nat k →
             length l' = length l →
             (∀ t : nat, ¬ (o + i ≤ Z.of_nat t < o + j) → l' !! t = l !! t) →
             body j (<[b := l']> m) = write (<[b := l']> m) (Ptr b o) j (val j)) →
    ∃ l', for_loop k i body (<[b := l]> m) = Some (<[b := l']> m)
          ∧ length l' = length l
          ∧ (∀ j, i ≤ j < i + Z.of_nat k → l' !! Z.to_nat (o + j) = Some (val j))
          ∧ (∀ t : nat, ¬ (o + i ≤ Z.of_nat t < o + i + Z.of_nat k) → l' !! t = l !! t).
Proof.
  induction k as [|k IH]; intros i l Hlo Hhi Hbody.
  - exists l. simpl. split_and!; [done|done|lia|done].
  - simpl.
    rewrite (Hbody i l) by (done || lia).
    rewrite (write_Ptr _ b o i (val i) l) by (by rewrite ?lookup_insert_eq || lia).
    simpl. rewrite insert_insert_eq.
    set (l1 := <[Z.to_nat (o + i) := val i]> l).
    assert (Hlen1 : length l1 = length l) by apply length_insert.
    destruct (IH (i + 1) l1) as (l' & Hrun & Hlen & Hin & Hout).
    + lia.
    + lia.
    + intros j l' Hj Hl' Hagree.
      apply Hbody; [lia|congruence|].
      intros t Ht. rewrite Hagree by lia.
      unfold l1. apply list_lookup_insert_ne. lia.
    + exists l'. split_and!.
      * done.
      * congruence.
      * intros j Hj. destruct (decide (j = i)) as [->|Hne].
        -- rewrite Hout by lia. unfold l1.
           apply list_lookup_insert_eq. lia.
        -- apply Hin. lia.
      * intros t Ht. rewrite Hout by lia.
        unfold l1. apply list_lookup_insert_ne. lia.
Qed.

End HeapFacts.

Section HeapSpecs.
Context {F : Type} {ops : SampleOps F}.

Local Abbreviation mem := (gmap nat (list F)).

Lemma read_insert_apart (m : mem) q b l i :
  apart q b = true → read (<[b := l]> m) q i = read m q i.
Proof.
  destruct q as [|b' o]; [done|]. simpl. intros Hne.
  apply negb_true_iff, Nat.eqb_neq in Hne.
  by rewrite lookup_insert_ne.
Qed.

Lemma valid_range_insert_apart (m : mem) q b l cnt :
  apart q b = true → valid_range (<[b := l]> m) q cnt = valid_range m q cnt.
Proof.
  destruct q as [|b' o]; [done|]. simpl. intros Hne.
  apply negb_true_iff, Nat.eqb_neq in Hne.
  by rewrite lookup_insert_ne.
Qed.

Lemma valid_range_inv (m : mem) q cnt :
  valid_range m q cnt = true →
  ∃ b o l, q = Ptr b o ∧ m !! b = Some l ∧ 0 ≤ o ∧ o + cnt ≤ Z.of_nat (length l).
Proof.
  destruct q as [|b o]; [done|]. simpl.
  destruct (m !! b) as [l|] eqn:Hb; [|done].
  intros [H1 H2]%andb_true_iff.
  exists b, o, l. split_and!; [done|done|lia|lia].
Qed.

(** Inside a valid range every read has a value. *)
Lemma valid_range_read (m : mem) q cnt j :
  valid_range m q cnt = true → 0 ≤ j < cnt →
  ∃ v, read m q j = Some v.
Proof.
  intros (b & o & l & -> & Hb & Ho & Hl)%valid_range_inv Hj.
  apply (read_is_Some m b o j l); [done|lia].
Qed.

(** [memset0] clears the [cnt] samples and nothing else. *)
Lemma memset0_spec (m : mem) b o l bytes :
  m !! b = Some l → 0 ≤ o → 0 ≤ bytes →
  o + bytes ÷ SIZEOF_FLOAT ≤ Z.of_nat (length l) →
  ∃ l', memset0 m (Ptr b o) bytes = Some (<[b := l']> m)
        ∧ length l' = length l
        ∧ (∀ j, 0 ≤ j < bytes ÷ SIZEOF_FLOAT → l' !! Z.to_nat (o + j) = Some fzero)
        ∧ (∀ t : nat, ¬ (o ≤ Z.of_nat t < o + bytes ÷ SIZEOF_FLOAT) → l' !! t = l !! t).
Proof.
  intros Hb Ho Hbytes Hl.
  assert (Hc : 0 ≤ bytes ÷ SIZEOF_FLOAT) by (apply Z.quot_pos; unfold SIZEOF_FLOAT; lia).
  destruct (for_loop_store b o (λ i m, write m (Ptr b o) i fzero) (λ _, fzero) m
              (Z.to_nat (bytes ÷ SIZEOF_FLOAT)) 0 l) as (l' & Hrun & Hlen & Hin & Hout).
  - lia.
  - lia.
  - done.
  - exists l'. unfold memset0. rewrite <- (insert_id m b l Hb) at 1.
    split_and!; [done|done|..].
    + intros j Hj. apply Hin. lia.
    + intros t Ht. apply Hout. lia.
Qed.

(** [memcpy] from a source outside the destination block. *)
Lemma memcpy_spec (m : mem) b o l src bytes :
  m !! b = Some l → 0 ≤ o → 0 ≤ bytes →
  o + bytes ÷ SIZEOF_FLOAT ≤ Z.of_nat (length l) →
  apart src b = true →
  valid_range m src (bytes ÷ SIZEOF_FLOAT) = true →
  ∃ l', memcpy m (Ptr b o) src bytes = Some (<[b := l']> m)
        ∧ length l' = length l
        ∧ (∀ j, 0 ≤ j < bytes ÷ SIZEOF_FLOAT →
                l' !! Z.to_nat (o + j) = read m src j)
        ∧ (∀ t : nat, ¬ (o ≤ Z.of_nat t < o + bytes ÷ SIZEOF_FLOAT) → l' !! t = l !! t).
Proof.
  intros Hb Ho Hbytes Hl Hap Hsrc.
  assert (Hc : 0 ≤ bytes ÷ SIZEOF_FLOAT) by (apply Z.quot_pos; unfold SIZEOF_FLOAT; lia).
  destruct (for_loop_store b o (λ i m, x ← read m src i; write m (Ptr b o) i x)
              (λ j, default fzero (read m src j)) m
              (Z.to_nat (bytes ÷ SIZEOF_FLOAT)) 0 l) as (l' & Hrun & Hlen & Hin & Hout).
  - lia.
  - lia.
  - intros j l1 Hj _ _. cbv beta.
    rewrite read_insert_apart by done.
    destruct (valid_range_read m src _ j Hsrc) as [v ->]; [lia|]. done.
  - exists l'. unfold memcpy. rewrite <- (insert_id m b l Hb) at 1.
    split_and!; [done|done|..].
    + intros j Hj. rewrite Hin by lia.
      destruct (valid_range_read m src _ j Hsrc) as [v ->]; [lia|]. done.
    + intros t Ht. apply Hout. lia.
Qed.

Lemma read_stable (m : mem) q b o l l' i j :
  same_or_apart q b o → i ≤ j →
  (∀ t : nat, ¬ (o + i ≤ Z.of_nat t < o + j) → l' !! t = l !! t) →
  read (<[b := l']> m) q j = read (<[b := l]> m) q j.
Proof.
  intros [Hap | ->] Hij Hagree.
  - by rewrite !read_insert_apart.
  - unfold read. rewrite !lookup_insert_eq. simpl.
    case_bool_decide; [|done]. apply Hagree. lia.
Qed.

(** The loop of [apply_window]: every slot of the window becomes the blend
    of the three values that the heap held at the call, and nothing else
    changes. *)
Lemma apply_window_spec (p : player) (m : mem) b o l inp :
  let cnt := imul (window_frames p) (p_channels p) in
  m !! b = Some l → 0 ≤ o → 0 ≤ cnt → o + cnt ≤ Z.of_nat (length l) →
  same_or_apart (p_window p) b o → same_or_apart inp b o →
  valid_range m (p_window p) cnt = true → valid_range m inp cnt = true →
  ∃ l', apply_window p m (Ptr b o) inp = Some (<[b := l']> m)
        ∧ length l' = length l
        ∧ (∀ j, 0 ≤ j < cnt →
             ∃ w a x, read m (p_window p) j = Some w
                      ∧ read m (Ptr b o) j = Some a
                      ∧ read m inp j = Some x
                      ∧ l' !! Z.to_nat (o + j)
                        = Some (fadd (fmul w a) (fmul (fsub fone w) x)))
        ∧ (∀ t : nat, ¬ (o ≤ Z.of_nat t < o + cnt) → l' !! t = l !! t).
Proof.
  intros cnt Hb Ho Hcnt Hl Hwin Hinp Vwin Vinp.
  assert (Vout : valid_range m (Ptr b o) cnt = true).
  { simpl. rewrite Hb. apply andb_true_iff. split; lia. }
  set (val := λ j : Z,
         fadd (fmul (default fzero (read m (p_window p) j))
                    (default fzero (read m (Ptr b o) j)))
              (fmul (fsub fone (default fzero (read m (p_window p) j)))
                    (default fzero (read m inp j)))).
  destruct (for_loop_store b o
              (λ i m,
                 w ← read m (p_window p) i;
                 o0 ← read m (Ptr b o) i;
                 x ← read m inp i;
                 write m (Ptr b o) i (fadd (fmul w o0) (fmul (fsub fone w) x)))
              val m (Z.to_nat cnt) 0 l) as (l' & Hrun & Hlen & Hin & Hout).
  - lia.
  - lia.
  - intros j l1 Hj _ Hagree. cbv beta.
    assert (Hout_same : same_or_apart (Ptr b o) b o) by (by right).
    rewrite (read_stable m (p_window p) b o l l1 0 j Hwin) by (lia || done).
    rewrite (read_stable m (Ptr b o) b o l l1 0 j Hout_same) by (lia || done).
    rewrite (read_stable m inp b o l l1 0 j Hinp) by (lia || done).
    rewrite !(insert_id m b l Hb).
    destruct (valid_range_read m _ _ j Vwin) as [w Hw]; [lia|].
    destruct (valid_range_read m _ _ j Vout) as [a Ha]; [lia|].
    destruct (valid_range_read m _ _ j Vinp) as [x Hx]; [lia|].
    unfold val. rewrite Hw, Ha, Hx. done.
  - exists l'. unfold apply_window. fold (window_frames p). fold cnt.
    rewrite <- (insert_id m b l Hb) at 1.
    split_and!; [done|done|..].
    + intros j Hj.
      destruct (valid_range_read m _ _ j Vwin) as [w Hw]; [lia|].
      destruct (valid_range_read m _ _ j Vout) as [a Ha]; [lia|].
      destruct (valid_range_read m _ _ j Vinp) as [x Hx]; [lia|].
      exists w, a, x. split_and!; [done..|].
      rewrite Hin by lia. unfold val. by rewrite Hw, Ha, Hx.
    + intros t Ht. apply Hout. lia.
Qed.

End HeapSpecs.

(** ** The callback *)

Section Callback.
Context {F : Type} {ops : SampleOps F}.

Local Abbreviation mem := (gmap nat (list F)).

(** One cross-fade of [process]: the output block is [l1], the source and
    the window lie in other blocks. *)
Lemma blend_stage (p : player) (m : mem) bo oo (l1 : list F) q cnt :
  cnt = imul (window_frames p) (p_channels p) →
  0 ≤ oo → 0 ≤ cnt → oo + cnt ≤ Z.of_nat (length l1) →
  apart (p_window p) bo = true → apart q bo = true →
  valid_range m (p_window p) cnt = true → valid_range m q cnt = true →
  ∃ l2, apply_window p (<[bo := l1]> m) (Ptr bo oo) q = Some (<[bo := l2]> m)
        ∧ length l2 = length l1
        ∧ (∀ j, 0 ≤ j < cnt →
             ∃ w a x, read m (p_window p) j = Some w
                      ∧ l1 !! Z.to_nat (oo + j) = Some a
                      ∧ read m q j = Some x
                      ∧ l2 !! Z.to_nat (oo + j)
                        = Some (fadd (fmul w a) (fmul (fsub fone w) x)))
        ∧ (∀ t : nat, ¬ (oo ≤ Z.of_nat t < oo + cnt) → l2 !! t = l1 !! t).
Proof.
  intros -> Hoo Hcnt Hl Awin Aq Vwin Vq.
  destruct (apply_window_spec p (<[bo := l1]> m) bo oo l1 q)
    as (l2 & Hrun & Hlen & Hin & Hout).
  - apply lookup_insert_eq.
  - done.
  - done.
  - done.
  - by left.
  - by left.
  - by rewrite valid_range_insert_apart.
  - by rewrite valid_range_insert_apart.
  - exists l2. rewrite insert_insert_eq in Hrun. split_and!; [done|done| |done].
    intros j Hj. destruct (Hin j Hj) as (w & a & x & Hw & Ha & Hx & Hv).
    exists w, a, x.
    rewrite read_insert_apart in Hw by done.
    rewrite read_insert_apart in Hx by done.
    rewrite (read_Ptr _ bo oo j l1) in Ha by (apply lookup_insert_eq || lia).
    done.
Qed.

Lemma set_track_same (p : player) : p_track p = p_next p → set_track (p_next p) p = p.
Proof. destruct p; simpl; intros <-; done. Qed.

Lemma callback_bytes n ch :
  0 < ch ≤ INT_MAX → 0 ≤ n → n * ch ≤ INT_MAX →
  wrap_size (wrap_size (n * wrap_size ch) * SIZEOF_FLOAT) ÷ SIZEOF_FLOAT = n * ch.
Proof.
  unfold INT_MAX, SIZEOF_FLOAT. intros Hch Hn Hcnt.
  rewrite (wrap_size_id ch) by lia.
  rewrite (wrap_size_id (n * ch)) by nia.
  rewrite wrap_size_id by nia.
  by rewrite Z.quot_mul.
Qed.

(** [process] on a player that is not paused: it returns, the heap changes
    in the [n * ch] output slots only, and each slot holds the copy of the
    current track at [pos], cross-faded to the next track at [pos] when a
    switch is armed, and cross-faded again to the samples at [start] when
    the position has passed [end]. *)
Lemma process_unpaused (tracks : list track) bo oo n (m : mem) (p : player) lo :
  p_paused p = false →
  callback_ok tracks (Ptr bo oo) n m p = true →
  m !! bo = Some lo →
  let ch := p_channels p in
  let cnt := n * ch in
  let win := p_window p in
  let cur := ptr_add (t_pcm (track_at tracks (p_track p))) (p_pos p * ch) in
  let nxt := ptr_add (t_pcm (track_at tracks (p_next p))) (p_pos p * ch) in
  let rst := ptr_add (t_pcm (track_at tracks (p_next p))) (p_start p * ch) in
  let armed := bool_decide (p_track p ≠ p_next p) in
  let wrap := p_pos p + n >? p_end p in
  ∃ lo',
    process tracks (Ptr bo oo) n (m, p)
    = Some (<[bo := lo']> m,
            set_pos (if wrap then p_start p + n else p_pos p + n)
                    (set_track (p_next p) p))
    ∧ length lo' = length lo
    ∧ (∀ t : nat, ¬ (oo ≤ Z.of_nat t < oo + cnt) → lo' !! t = lo !! t)
    ∧ (∀ j, 0 ≤ j < cnt →
         ∃ w c x,
           read m win j = Some w ∧ read m cur j = Some c ∧ read m nxt j = Some x
           ∧ let s := if armed then fadd (fmul w c) (fmul (fsub fone w) x) else c in
             if wrap
             then ∃ r, read m rst j = Some r
                       ∧ lo' !! Z.to_nat (oo + j)
                         = Some (fadd (fmul w s) (fmul (fsub fone w) r))
             else lo' !! Z.to_nat (oo + j) = Some s).
Proof.
  intros Hpaused Hok Hlo ch cnt win cur nxt rst armed wrap.
  unfold callback_ok in Hok. fold ch cnt cur nxt rst in Hok.
  apply andb_true_iff in Hok as [Hok Vrst].
  apply andb_true_iff in Hok as [Hok Vnxt].
  apply andb_true_iff in Hok as [Hok Vcur].
  apply andb_true_iff in Hok as [Hok Vwin].
  apply andb_true_iff in Hok as [Hok Hap].
  apply andb_true_iff in Hok as [Hok Vout].
  apply andb_true_iff in Hap as [Hap Arst].
  apply andb_true_iff in Hap as [Hap Anxt].
  apply andb_true_iff in Hap as [Awin Acur].
  repeat (apply andb_true_iff in Hok; destruct Hok as [Hok ?]).
  assert (Hch : 0 < ch ≤ INT_MAX) by lia.
  assert (Hn : 0 ≤ n) by lia.
  assert (Hcnt : 0 ≤ cnt ≤ INT_MAX) by (unfold cnt; split; [nia|lia]).
  assert (Hw : n = window_frames p) by lia.
  assert (Hwcnt : cnt = imul (window_frames p) (p_channels p)).
  { rewrite <- Hw. unfold imul. fold ch. rewrite wrap_int_id; [done|]. unfold cnt in Hcnt. lia. }
  assert (Hposmul : imul (p_pos p) ch = p_pos p * ch).
  { unfold imul. apply wrap_int_id. nia. }
  assert (Hstartmul : imul (p_start p) ch = p_start p * ch).
  { unfold imul. apply wrap_int_id. nia. }
  assert (Hadv : wrap_int (wrap_size (wrap_size (p_pos p) + n)) = p_pos p + n).
  { apply advance_id; lia. }
  assert (Hadv' : wrap_int (wrap_size (wrap_size (p_start p) + n)) = p_start p + n).
  { apply advance_id; lia. }
  simpl in Vout. rewrite Hlo in Vout.
  assert (Hoo : 0 ≤ oo ∧ oo + cnt ≤ Z.of_nat (length lo)) by lia.
  (* the copy *)
  destruct (memcpy_spec m bo oo lo cur
              (wrap_size (wrap_size (n * wrap_size ch) * SIZEOF_FLOAT)))
    as (l1 & Hcopy & Hlen1 & Hin1 & Hout1).
  { done. } { lia. } { unfold wrap_size. apply Z.mod_pos_bound. done. }
  { rewrite callback_bytes by lia. lia. } { done. }
  { rewrite callback_bytes by lia. done. }
  rewrite callback_bytes in Hin1, Hout1 by lia. fold cnt in Hin1, Hout1.
  (* the track switch *)
  assert (Hswitch : ∃ l2,
    (if armed
     then m' ← apply_window p (<[bo := l1]> m) (Ptr bo oo) nxt;
          Some (m', set_track (p_next p) p)
     else Some (<[bo := l1]> m, p))
    = Some (<[bo := l2]> m, set_track (p_next p) p)
    ∧ length l2 = length lo
    ∧ (∀ t : nat, ¬ (oo ≤ Z.of_nat t < oo + cnt) → l2 !! t = lo !! t)
    ∧ (∀ j, 0 ≤ j < cnt →
         ∃ w c x,
           read m win j = Some w ∧ read m cur j = Some c ∧ read m nxt j = Some x
           ∧ l2 !! Z.to_nat (oo + j)
             = Some (if armed then fadd (fmul w c) (fmul (fsub fone w) x) else c))).
  { destruct armed eqn:Harmed.
    - destruct (blend_stage p m bo oo l1 nxt cnt)
        as (l2 & Hrun & Hlen2 & Hin2 & Hout2); try done; try lia.
      exists l2. rewrite Hrun. simpl. split_and!; [done|congruence|..].
      + intros t Ht. rewrite Hout2, Hout1 by done. done.
      + intros j Hj. destruct (Hin2 j Hj) as (w & a & x & Hw' & Ha & Hx & Hv).
        exists w, a, x. rewrite Hin1 in Ha by done. done.
    - exists l1. apply bool_decide_eq_false in Harmed.
      assert (Heq : p_track p = p_next p) by (destruct (decide (p_track p = p_next p)); [done|contradiction]).
      rewrite set_track_same by done. split_and!; [done|done|done|].
      intros j Hj.
      destruct (valid_range_read m _ _ j Vwin) as [w Hw']; [done|].
      destruct (valid_range_read m _ _ j Vcur) as [c Hc]; [done|].
      destruct (valid_range_read m _ _ j Vnxt) as [x Hx]; [done|].
      exists w, c, x. rewrite Hin1 by done. done. }
  destruct Hswitch as (l2 & Hsw & Hlen2 & Hout2 & Hin2).
  unfold process. rewrite Hpaused. fold ch. rewrite Hposmul. fold cur nxt.
  rewrite Hcopy. simpl. fold armed. rewrite Hsw. simpl.
  rewrite Hadv. fold wrap.
  destruct wrap eqn:Hwrap.
  - (* the loop wrap *)
    fold ch. rewrite Hstartmul. fold rst.
    assert (Vrst' : valid_range m rst cnt = true).
    { apply orb_true_iff in Vrst as [Hno|]; [|done]. unfold wrap in Hwrap. lia. }
    destruct (blend_stage (set_pos (p_pos p + n) (set_track (p_next p) p))
                m bo oo l2 rst cnt)
      as (l3 & Hrun & Hlen3 & Hin3 & Hout3); try done; try lia.
    rewrite Hrun. simpl. rewrite Hadv'. exists l3.
    split_and!; [done|congruence|..].
    + intros t Ht. rewrite Hout3, Hout2 by done. done.
    + intros j Hj. destruct (Hin2 j Hj) as (w & c & x & Hw' & Hc & Hx & Hv).
      exists w, c, x. split_and!; [done..|].
      destruct (Hin3 j Hj) as (w' & a & r & Hw'' & Ha & Hr & Hv').
      simpl in Hw''. fold win in Hw''. exists r. split; [done|].
      rewrite Hv'. congruence.
  - exists l2. split_and!; [done..|].
    intros j Hj. destruct (Hin2 j Hj) as (w & c & x & Hw' & Hc & Hx & Hv).
    exists w, c, x. done.
Qed.

End Callback.

(** ** The small session is what the loader and [start_stream] produce *)

Lemma ex_load :
  load_tracks 0 ex_files (ex_slurped, player0, replicate 10 track0)
  = Some (delete 3%nat (delete 0%nat ex_heap),
          set_window NULL ex_loaded, ex_tracks).
Proof. vm_compute. reflexivity. Qed.

Lemma ex_player_fields :
  ex_player = mk_player 0 0 0 0 10 10 1 100 true false (Ptr 0 0).
Proof. reflexivity. Qed.

Lemma ex_callback_ok : callback_ok ex_tracks ex_out 2 ex_heap ex_player = true.
Proof. vm_compute. reflexivity. Qed.

(** ** The player fields that [process] and the keys change *)

Section PlayerSteps.
Context {F : Type} {ops : SampleOps F}.

Local Abbreviation mem := (gmap nat (list F)).

(** Whatever the heap holds, a callback that returns leaves the player as
    follows. *)
Lemma process_player (tracks : list track) out n (m m' : mem) (p p' : player) :
  process tracks out n (m, p) = Some (m', p') →
  p' = if p_paused p then p
       else
         let q := set_pos (wrap_int (wrap_size (wrap_size (p_pos p) + n)))
                          (if bool_decide (p_track p ≠ p_next p)
                           then set_track (p_next p) p else p) in
         if p_pos q >? p_end q
         then set_pos (wrap_int (wrap_size (wrap_size (p_start q) + n))) q
         else q.
Proof.
  unfold process. destruct (p_paused p).
  - destruct (memset0 _ _ _); simpl; congruence.
  - destruct (memcpy _ _ _ _) as [m1|]; simpl; [|done].
    destruct (bool_decide (p_track p ≠ p_next p)).
    + destruct (apply_window p m1 _ _) as [m2|]; simpl; [|done].
      case_match.
      * destruct (apply_window _ m2 _ _); simpl; congruence.
      * congruence.
    + simpl. case_match.
      * destruct (apply_window _ m1 _ _); simpl; congruence.
      * congruence.
Qed.

End PlayerSteps.

Lemma loop_invariant_spec p :
  loop_invariant p = true ↔
  0 ≤ p_start p ∧ p_start p ≤ p_pos p ∧ p_pos p ≤ p_end p ∧ p_end p ≤ p_length p.
Proof. unfold loop_invariant. rewrite !andb_true_iff. lia. Qed.

Lemma bounds_ordered_spec p :
  bounds_ordered p = true ↔
  0 ≤ p_start p ∧ p_start p ≤ p_end p ∧ p_end p ≤ p_length p.
Proof. unfold bounds_ordered. rewrite !andb_true_iff. lia. Qed.

Lemma min_spec a b : min a b = Z.min a b.
Proof. unfold min. destruct (Z.ltb_spec a b); lia. Qed.

Lemma max_spec a b : max a b = Z.max a b.
Proof. unfold max. rewrite Z.gtb_ltb. destruct (Z.ltb_spec b a); lia. Qed.

Lemma iadd_id a b : -2147483648 ≤ a + b ≤ INT_MAX → iadd a b = a + b.
Proof. apply wrap_int_id. Qed.

Lemma isub_id a b : -2147483648 ≤ a - b ≤ INT_MAX → isub a b = a - b.
Proof. apply wrap_int_id. Qed.

(** A key leaves [length] alone. *)
Lemma handle_key_length nf step c p : p_length (handle_key nf step c p) = p_length p.
Proof. unfold handle_key. repeat case_match; reflexivity. Qed.

(** The keys under [keeps_inside] keep the loop invariant. *)
Lemma handle_key_invariant nf step c p :
  0 ≤ step → p_length p + step ≤ INT_MAX →
  keeps_inside step (Key c) p = true →
  loop_invariant p = true →
  loop_invariant (handle_key nf step c p) = true.
Proof.
  intros Hstep Hmax Hok Hinv.
  apply loop_invariant_spec in Hinv. apply loop_invariant_spec.
  unfold keeps_inside in Hok. unfold handle_key. unfold INT_MAX in *.
  repeat case_match; simpl; rewrite ?min_spec, ?max_spec;
    rewrite ?iadd_id, ?isub_id by (unfold INT_MAX; lia); try lia.
Qed.

Section InvariantProof.
Context {F : Type} {ops : SampleOps F}.

Lemma step_event_invariant (tracks : list track) nf step e
    (s s' : gmap nat (list F) * player) :
  0 ≤ step → p_length (snd s) + step ≤ INT_MAX →
  keeps_inside step e (snd s) = true →
  step_event tracks nf step e s = Some s' →
  loop_invariant (snd s) = true →
  loop_invariant (snd s') = true ∧ p_length (snd s') = p_length (snd s).
Proof.
  intros Hstep Hmax Hok Hev Hinv. destruct s as [m p], s' as [m' p'].
  destruct e as [out n|c|]; simpl in *.
  - apply process_player in Hev. subst p'.
    destruct (p_paused p) eqn:Hp; [done|].
    apply loop_invariant_spec in Hinv.
    simpl in Hok. unfold INT_MAX in *.
    assert (Hn : 0 ≤ n ∧ p_length p + n ≤ 2147483647 ∧ p_start p + n ≤ p_end p) by lia.
    assert (Hq : ∀ t, p_pos (set_pos (p_pos p + n) t) = p_pos p + n) by done.
    rewrite (advance_id (p_pos p) n) by (unfold INT_MAX; lia).
    destruct (bool_decide (p_track p ≠ p_next p)); simpl;
      rewrite (advance_id (p_start p) n) by (unfold INT_MAX; lia);
      (case_match; simpl; (split; [apply loop_invariant_spec; simpl; lia | done])).
  - destruct (p_running p); [|done]. injection Hev as <- <-.
    split; [by apply handle_key_invariant | apply handle_key_length].
  - injection Hev as <- <-. done.
Qed.

End InvariantProof.

(** ** C1: the loop invariant *)

Section LoopInvariant.
Context {F : Type} {ops : SampleOps F}.

Lemma reach_invariant (tracks : list track) nf step
    (s0 s : gmap nat (list F) * player) :
  0 ≤ step → p_length (snd s0) + step ≤ INT_MAX →
  loop_invariant (snd s0) = true →
  reach tracks nf step (keeps_inside step) s0 s →
  loop_invariant (snd s) = true ∧ p_length (snd s) = p_length (snd s0).
Proof.
  intros Hstep Hmax Hinv Hreach.
  induction Hreach as [|e s1 s2 _ [IHinv IHlen] Hok Hev]; [done|].
  destruct (step_event_invariant tracks nf step e s1 s2) as [Hinv2 Hlen2];
    [done|lia|done|done|done|].
  split; [done|congruence].
Qed.

(** C1, as amended: from the state in which [start_stream] leaves the player
    ([start = pos = 0], [end = length]), the inequality
    [0 ≤ start ≤ pos ≤ end ≤ length] holds in every state reached through
    callbacks whose loop region holds at least [n] frames
    ([start + n ≤ end]) and through key commands, except a [k] that moves
    [end] below [pos] and an [o] that moves [start] above [pos]. *)
Theorem loop_invariant_inside (tracks : list track) nf step
    (m : gmap nat (list F)) (p0 : player) (s : gmap nat (list F) * player) :
  0 ≤ step → 0 ≤ p_length p0 → p_length p0 + step ≤ INT_MAX →
  p_pos p0 = 0 → p_start p0 = 0 →
  reach tracks nf step (keeps_inside step) (m, fst (start_stream p0)) s →
  loop_invariant (snd s) = true.
Proof.
  intros Hstep Hlen Hmax Hpos Hstart Hreach.
  eapply reach_invariant in Hreach as [Hinv _]; [done|done|done|].
  apply loop_invariant_spec. simpl. lia.
Qed.

End LoopInvariant.

Lemma loop_invariant_inside_witness :
  ∃ s, run ex_tracks 2 5 [Callback ex_out 2; Key "s"; Key "l"; Callback ex_out 2]
           (ex_heap, ex_player) = Some s
       ∧ loop_invariant (snd s) = true.
Proof.
  eexists. split; [vm_compute; reflexivity|].
  apply (loop_invariant_inside ex_tracks 2 5 ex_heap ex_loaded);
    [lia | simpl; lia | unfold INT_MAX; simpl; lia | reflexivity | reflexivity |].
  eapply reach_event with (e := Callback ex_out 2);
    [eapply reach_event with (e := Key "l");
       [eapply reach_event with (e := Key "s");
          [eapply reach_event with (e := Callback ex_out 2);
             [apply reach_here | reflexivity | vm_compute; reflexivity]
          | reflexivity | vm_compute; reflexivity]
       | reflexivity | vm_compute; reflexivity]
    | reflexivity | vm_compute; reflexivity].
Defined.

(** C1, as stated, fails: at stream start one press of [o] moves [start]
    50 ms forward, past [pos = 0]. *)
Lemma loop_invariant_broken :
  ¬ (∀ s : gmap nat (list f32) * player,
       reach [] 2 (step_frames cd_player) (λ _ _, true) (∅, cd_player) s →
       loop_invariant (snd s) = true).
Proof.
  intros Hall.
  assert (Hr : reach [] 2 (step_frames cd_player) (λ _ _, true)
                 (∅ : gmap nat (list f32), cd_player)
                 (∅, handle_key 2 (step_frames cd_player) "o" cd_player)).
  { eapply reach_event with (e := Key "o"); [apply reach_here | reflexivity | reflexivity]. }
  apply Hall in Hr. vm_compute in Hr. discriminate.
Qed.

(** ** C2: the loop commands and [start ≤ end] *)

(** The six commands that clamp keep [0 ≤ start ≤ end ≤ length]. *)
Lemma clamped_keys_keep_order nf step c p :
  0 ≤ step → p_length p + step ≤ INT_MAX →
  chr c ≠ chr "d" → chr c ≠ chr "s" →
  bounds_ordered p = true →
  bounds_ordered (handle_key nf step c p) = true.
Proof.
  intros Hstep Hmax Hd Hs Hord.
  apply bounds_ordered_spec in Hord. apply bounds_ordered_spec.
  unfold handle_key. unfold INT_MAX in *.
  repeat case_match; simpl; rewrite ?min_spec, ?max_spec;
    rewrite ?iadd_id, ?isub_id by (unfold INT_MAX; lia); try lia.
Qed.

(** C2, the code at the failing input: in a session at 44100 Hz the keys
    space (pause), [o] (start up by one step) and [d] (set end) leave
    [start = 2205] and [end = 0]. Before [d] the bounds are ordered and
    [pos < start]. *)
Theorem set_end_breaks_order :
  let step := step_frames cd_player in
  let p1 := handle_key 2 step "o" (handle_key 2 step " " cd_player) in
  bounds_ordered p1 = true
  ∧ p_pos p1 < p_start p1
  ∧ p_start (handle_key 2 step "d" p1) = 2205
  ∧ p_end (handle_key 2 step "d" p1) = 0
  ∧ bounds_ordered (handle_key 2 step "d" p1) = false.
Proof. vm_compute. split_and!; reflexivity. Qed.

(** ** C4: pause *)

Section Pause.
Context {F : Type} {ops : SampleOps F}.

Local Abbreviation mem := (gmap nat (list F)).

Lemma run_app (tracks : list track) nf step es1 es2 (s : mem * player) :
  run tracks nf step (es1 ++ es2) s
  = s' ← run tracks nf step es1 s; run tracks nf step es2 s'.
Proof.
  revert s. induction es1 as [|e es1 IH]; intros s; simpl; [done|].
  destruct (step_event tracks nf step e s); simpl; [apply IH|done].
Qed.

(** Two blocks of one length that agree inside and outside a range are
    equal. *)
Lemma block_eq (l1 l2 : list F) (lo hi : Z) :
  length l1 = length l2 →
  (∀ j, lo ≤ j < hi → 0 ≤ j → l1 !! Z.to_nat j = l2 !! Z.to_nat j) →
  (∀ t : nat, ¬ (lo ≤ Z.of_nat t < hi) → l1 !! t = l2 !! t) →
  l1 = l2.
Proof.
  intros Hlen Hin Hout. apply list_eq. intros t.
  destruct (decide (lo ≤ Z.of_nat t < hi)) as [Hi|Hi].
  - specialize (Hin (Z.of_nat t) Hi). rewrite Nat2Z.id in Hin. apply Hin. lia.
  - by apply Hout.
Qed.

(** [process] while paused. *)
Lemma process_paused (tracks : list track) bo oo n (m : mem) (p : player) lo :
  p_paused p = true → m !! bo = Some lo →
  0 ≤ oo → 0 < p_channels p ≤ INT_MAX → 0 ≤ n → n * p_channels p ≤ INT_MAX →
  oo + n * p_channels p ≤ Z.of_nat (length lo) →
  ∃ lz, process tracks (Ptr bo oo) n (m, p) = Some (<[bo := lz]> m, p)
        ∧ length lz = length lo
        ∧ (∀ j, 0 ≤ j < n * p_channels p → lz !! Z.to_nat (oo + j) = Some fzero)
        ∧ (∀ t : nat, ¬ (oo ≤ Z.of_nat t < oo + n * p_channels p) → lz !! t = lo !! t).
Proof.
  intros Hp Hlo Hoo Hch Hn Hcnt Hlen.
  destruct (memset0_spec m bo oo lo
              (wrap_size (wrap_size (n * wrap_size (p_channels p)) * SIZEOF_FLOAT)))
    as (lz & Hrun & Hlz & Hin & Hout).
  { done. } { done. } { unfold wrap_size. apply Z.mod_pos_bound. done. }
  { rewrite callback_bytes by lia. lia. }
  rewrite callback_bytes in Hin, Hout by lia.
  exists lz. unfold process. rewrite Hp, Hrun. done.
Qed.

Lemma callback_ok_output (tracks : list track) bo oo n (m : mem) p lo :
  callback_ok tracks (Ptr bo oo) n m p = true → m !! bo = Some lo →
  0 ≤ oo ∧ 0 < p_channels p ≤ INT_MAX ∧ 0 ≤ n ∧ n * p_channels p ≤ INT_MAX
  ∧ oo + n * p_channels p ≤ Z.of_nat (length lo).
Proof.
  intros Hok Hlo. unfold callback_ok in Hok.
  apply andb_true_iff in Hok as [Hok _].
  apply andb_true_iff in Hok as [Hok _].
  apply andb_true_iff in Hok as [Hok _].
  apply andb_true_iff in Hok as [Hok _].
  apply andb_true_iff in Hok as [Hok _].
  apply andb_true_iff in Hok as [Hok Hv].
  repeat (apply andb_true_iff in Hok; destruct Hok as [Hok ?]).
  simpl in Hv. rewrite Hlo in Hv. lia.
Qed.

(** The callback does not depend on what the output buffer held. *)
Lemma callback_ok_insert (tracks : list track) bo oo n (m : mem) p lo lz :
  callback_ok tracks (Ptr bo oo) n m p = true → m !! bo = Some lo →
  length lz = length lo →
  callback_ok tracks (Ptr bo oo) n (<[bo := lz]> m) p = true.
Proof.
  intros Hok Hlo Hlen. unfold callback_ok in *.
  apply andb_true_iff in Hok as [Hok Vrst].
  apply andb_true_iff in Hok as [Hok Vnxt].
  apply andb_true_iff in Hok as [Hok Vcur].
  apply andb_true_iff in Hok as [Hok Vwin].
  apply andb_true_iff in Hok as [Hok Hap].
  apply andb_true_iff in Hok as [Hok Vout].
  pose proof Hap as Hap'.
  apply andb_true_iff in Hap as [Hap Arst].
  apply andb_true_iff in Hap as [Hap Anxt].
  apply andb_true_iff in Hap as [Awin Acur].
  rewrite Hok, Hap'. simpl.
  rewrite !valid_range_insert_apart by done.
  rewrite Vwin, Vcur, Vnxt, Vrst.
  simpl in Vout. rewrite Hlo in Vout.
  rewrite lookup_insert_eq, Hlen, Vout. done.
Qed.

Lemma process_ignores_output (tracks : list track) bo oo n (m : mem) p lo lz :
  p_paused p = false →
  callback_ok tracks (Ptr bo oo) n m p = true → m !! bo = Some lo →
  length lz = length lo →
  (∀ t : nat, ¬ (oo ≤ Z.of_nat t < oo + n * p_channels p) → lz !! t = lo !! t) →
  process tracks (Ptr bo oo) n (<[bo := lz]> m, p) = process tracks (Ptr bo oo) n (m, p).
Proof.
  intros Hp Hok Hlo Hlen Hagree.
  destruct (callback_ok_output _ _ _ _ _ _ _ Hok Hlo) as (Hoo & _).
  pose proof (callback_ok_insert _ _ _ _ _ _ _ lz Hok Hlo Hlen) as Hok'.
  destruct (process_unpaused tracks bo oo n m p lo Hp Hok Hlo)
    as (l1 & Hrun1 & Hlen1 & Hout1 & Hin1).
  destruct (process_unpaused tracks bo oo n (<[bo := lz]> m) p lz Hp Hok')
    as (l2 & Hrun2 & Hlen2 & Hout2 & Hin2); [apply lookup_insert_eq|].
  rewrite Hrun1, Hrun2, insert_insert_eq. do 2 f_equal. f_equal.
  apply (block_eq l2 l1 oo (oo + n * p_channels p)).
  - congruence.
  - intros j Hj Hj0.
    destruct (Hin1 (j - oo)) as (w & c & x & Hw & Hc & Hx & Hv); [lia|].
    destruct (Hin2 (j - oo)) as (w' & c' & x' & Hw' & Hc' & Hx' & Hv'); [lia|].
    unfold callback_ok in Hok.
    apply andb_true_iff in Hok as [Hok _].
    apply andb_true_iff in Hok as [Hok _].
    apply andb_true_iff in Hok as [Hok _].
    apply andb_true_iff in Hok as [Hok _].
    apply andb_true_iff in Hok as [_ Hap].
    apply andb_true_iff in Hap as [Hap Arst].
    apply andb_true_iff in Hap as [Hap Anxt].
    apply andb_true_iff in Hap as [Awin Acur].
    rewrite read_insert_apart in Hw', Hc', Hx' by done.
    assert (w' = w) by congruence. assert (c' = c) by congruence.
    assert (x' = x) by congruence. subst w' c' x'.
    replace (oo + (j - oo)) with j in Hv, Hv' by lia.
    cbv zeta in Hv, Hv'.
    destruct (p_pos p + n >? p_end p).
    + destruct Hv as (r & Hr & Hv). destruct Hv' as (r' & Hr' & Hv').
      rewrite read_insert_apart in Hr' by done.
      assert (r' = r) by congruence. subst r'. congruence.
    + congruence.
  - intros t Ht. rewrite Hout1, Hout2 by done. by apply Hagree.
Qed.

End Pause.

Section PauseResume.
Context {F : Type} {ops : SampleOps F}.

Local Abbreviation mem := (gmap nat (list F)).

Lemma pause_key nf step (p : player) :
  handle_key nf step " " p = set_paused (negb (p_paused p)) p.
Proof. reflexivity. Qed.

Lemma set_paused_twice (p : player) :
  p_paused p = false → set_paused (negb true) (set_paused true p) = p.
Proof. destruct p; simpl; intros ->; done. Qed.

(** Callbacks while paused: after the first one the state no longer
    changes. *)
Lemma paused_callbacks (tracks : list track) nf step bo oo n (m : mem) p lo :
  p_paused p = true → m !! bo = Some lo →
  0 ≤ oo → 0 < p_channels p ≤ INT_MAX → 0 ≤ n → n * p_channels p ≤ INT_MAX →
  oo + n * p_channels p ≤ Z.of_nat (length lo) →
  ∃ lz, length lz = length lo
        ∧ (∀ j, 0 ≤ j < n * p_channels p → lz !! Z.to_nat (oo + j) = Some fzero)
        ∧ (∀ t : nat, ¬ (oo ≤ Z.of_nat t < oo + n * p_channels p) → lz !! t = lo !! t)
        ∧ ∀ i : nat,
            run tracks nf step (replicate (S i) (Callback (Ptr bo oo) n)) (m, p)
            = Some (<[bo := lz]> m, p).
Proof.
  intros Hp Hlo Hoo Hch Hn Hcnt Hlen.
  destruct (process_paused tracks bo oo n m p lo) as (lz & Hrun & Hlz & Hin & Hout);
    try done.
  exists lz. split_and!; [done..|].
  assert (Hagain : process tracks (Ptr bo oo) n (<[bo := lz]> m, p)
                   = Some (<[bo := lz]> m, p)).
  { destruct (process_paused tracks bo oo n (<[bo := lz]> m) p lz)
      as (lz' & Hrun' & Hlz' & Hin' & Hout'); try done.
    - apply lookup_insert_eq.
    - lia.
    - rewrite Hrun', insert_insert_eq. do 2 f_equal. f_equal.
      apply (block_eq lz' lz oo (oo + n * p_channels p)); [done| |done].
      intros j Hj Hj0.
      specialize (Hin (j - oo)). specialize (Hin' (j - oo)).
      replace (oo + (j - oo)) with j in Hin, Hin' by lia.
      rewrite Hin, Hin' by lia. done. }
  intros i. cbn [replicate run step_event]. rewrite Hrun. cbn [mbind option_bind].
  induction i as [|i IH]; cbn [replicate run step_event]; [done|].
  rewrite Hagain. cbn [mbind option_bind]. apply IH.
Qed.

(** C4: after the pause key, every callback fills the [n * ch] output slots
    with zeros and leaves the player as it was (so [pos], the current and
    the next track do not change); after the pause key is pressed again, the
    next callback returns the heap and the player that it would have
    returned had the pause not happened. *)
Theorem pause_resume (tracks : list track) nf step bo oo n (m : mem) (p : player)
    lo (k : nat) :
  p_running p = true → p_paused p = false →
  callback_ok tracks (Ptr bo oo) n m p = true →
  m !! bo = Some lo →
  let cb := Callback (Ptr bo oo) n in
  ∃ lz s',
    length lz = length lo
    ∧ (∀ j, 0 ≤ j < n * p_channels p → lz !! Z.to_nat (oo + j) = Some fzero)
    ∧ (∀ t : nat, ¬ (oo ≤ Z.of_nat t < oo + n * p_channels p) → lz !! t = lo !! t)
    ∧ (∀ i : nat,
         run tracks nf step (Key " " :: replicate (S i) cb) (m, p)
         = Some (<[bo := lz]> m, set_paused true p))
    ∧ process tracks (Ptr bo oo) n (m, p) = Some s'
    ∧ run tracks nf step (Key " " :: replicate k cb ++ [Key " "; cb]) (m, p) = Some s'.
Proof.
  intros Hrun Hp Hok Hlo cb. subst cb.
  destruct (callback_ok_output _ _ _ _ _ _ _ Hok Hlo) as (Hoo & Hch & Hn & Hcnt & Hlen).
  destruct (paused_callbacks tracks nf step bo oo n m (set_paused true p) lo)
    as (lz & Hlz & Hin & Hout & Hsil); try done.
  destruct (process_unpaused tracks bo oo n m p lo Hp Hok Hlo) as (l1 & Hproc & _).
  exists lz. eexists. split_and!; [done|done|done| |exact Hproc|].
  - intros i. cbn [run step_event snd fst]. rewrite Hrun, pause_key, Hp. simpl mbind.
    apply (Hsil i).
  - cbn [run step_event snd fst]. rewrite Hrun, pause_key, Hp. cbn [mbind option_bind negb].
    assert (Hres : ∀ m1 : mem,
              process tracks (Ptr bo oo) n (m1, p) = process tracks (Ptr bo oo) n (m, p) →
              run tracks nf step [Key " "; Callback (Ptr bo oo) n] (m1, set_paused true p)
              = process tracks (Ptr bo oo) n (m, p)).
    { intros m1 Hm1. cbn [run step_event snd fst]. simpl p_running. rewrite Hrun.
      rewrite pause_key. simpl p_paused. cbn [mbind option_bind].
      rewrite set_paused_twice by done. rewrite Hm1.
      destruct (process tracks (Ptr bo oo) n (m, p)); done. }
    destruct k as [|k].
    + cbn [replicate app]. rewrite Hres; done.
    + rewrite run_app, (Hsil k). cbn [mbind option_bind].
      rewrite Hres; [done|]. by apply (process_ignores_output tracks bo oo n m p lo lz).
Qed.

End PauseResume.

Lemma pause_resume_witness :
  ∃ (lz : list f32) (s' : gmap nat (list f32) * player),
    length lz = length [f32_zero; f32_zero]
    ∧ (∀ j, 0 ≤ j < 2 * p_channels ex_player → lz !! Z.to_nat (0 + j) = Some fzero)
    ∧ (∀ t : nat, ¬ (0 ≤ Z.of_nat t < 0 + 2 * p_channels ex_player) →
                  lz !! t = [f32_zero; f32_zero] !! t)
    ∧ (∀ i : nat,
         run ex_tracks 2 5 (Key " " :: replicate (S i) (Callback (Ptr 3 0) 2))
             (ex_heap, ex_player)
         = Some (<[3%nat := lz]> ex_heap, set_paused true ex_player))
    ∧ process ex_tracks (Ptr 3 0) 2 (ex_heap, ex_player) = Some s'
    ∧ run ex_tracks 2 5
          (Key " " :: replicate 3 (Callback (Ptr 3 0) 2)
             ++ [Key " "; Callback (Ptr 3 0) 2])
          (ex_heap, ex_player) = Some s'.
Proof.
  apply (pause_resume ex_tracks 2 5 3%nat 0 2 ex_heap ex_player [f32_zero; f32_zero] 3%nat);
    [reflexivity | reflexivity | vm_compute; reflexivity | reflexivity].
Defined.

(** ** C3 and C5: the two cross-fades of the callback *)

Section Crossfades.
Context {F : Type} {ops : SampleOps F}.

Local Abbreviation mem := (gmap nat (list F)).

(** C3: a callback on a player that is not paused returns. When [pos + n]
    exceeds [end], the new position is [start + n] and every output slot is
    the cross-fade, by the window, of the output as it stood (the copy from
    [pos], cross-faded to the next track when a switch is armed) to the
    sample of the current track at [start]; otherwise the new position is
    [pos + n] and the output is left as it stood. *)
Theorem loop_wrap_crossfade (tracks : list track) bo oo n (m : mem) (p : player) lo :
  p_paused p = false →
  callback_ok tracks (Ptr bo oo) n m p = true →
  m !! bo = Some lo →
  let ch := p_channels p in
  let cur := ptr_add (t_pcm (track_at tracks (p_track p))) (p_pos p * ch) in
  let nxt := ptr_add (t_pcm (track_at tracks (p_next p))) (p_pos p * ch) in
  ∃ lo' p',
    process tracks (Ptr bo oo) n (m, p) = Some (<[bo := lo']> m, p')
    ∧ p_start p' = p_start p ∧ p_end p' = p_end p
    ∧ p_pos p' = (if p_pos p + n >? p_end p then p_start p + n else p_pos p + n)
    ∧ ∀ j, 0 ≤ j < n * ch →
        ∃ w c x,
          read m (p_window p) j = Some w ∧ read m cur j = Some c ∧ read m nxt j = Some x
          ∧ let before :=
              if bool_decide (p_track p ≠ p_next p)
              then fadd (fmul w c) (fmul (fsub fone w) x) else c in
            if p_pos p + n >? p_end p
            then ∃ r,
                read m (ptr_add (t_pcm (track_at tracks (p_track p'))) (p_start p * ch)) j
                = Some r
                ∧ lo' !! Z.to_nat (oo + j)
                  = Some (fadd (fmul w before) (fmul (fsub fone w) r))
            else lo' !! Z.to_nat (oo + j) = Some before.
Proof.
  intros Hp Hok Hlo ch cur nxt.
  destruct (process_unpaused tracks bo oo n m p lo Hp Hok Hlo)
    as (lo' & Hrun & _ & _ & Hin).
  exists lo'. eexists. split; [exact Hrun|].
  split_and!; [reflexivity|reflexivity|reflexivity|].
  intros j Hj. destruct (Hin j Hj) as (w & c & x & Hw & Hc & Hx & Hv).
  exists w, c, x. split_and!; [done..|]. exact Hv.
Qed.

(** C5, as amended: when a switch is armed and the player is not paused,
    the callback commits [track = next], and every output slot is
    [w * current[pos * ch + i] + (1 - w) * next[pos * ch + i]] provided that
    [pos + n] does not exceed [end]; when it does, the loop cross-fade is
    applied on top of that value. *)
Theorem track_switch_crossfade (tracks : list track) bo oo n (m : mem) (p : player) lo :
  p_paused p = false →
  p_track p ≠ p_next p →
  callback_ok tracks (Ptr bo oo) n m p = true →
  m !! bo = Some lo →
  let ch := p_channels p in
  let cur := ptr_add (t_pcm (track_at tracks (p_track p))) (p_pos p * ch) in
  let nxt := ptr_add (t_pcm (track_at tracks (p_next p))) (p_pos p * ch) in
  let rst := ptr_add (t_pcm (track_at tracks (p_next p))) (p_start p * ch) in
  ∃ lo' p',
    process tracks (Ptr bo oo) n (m, p) = Some (<[bo := lo']> m, p')
    ∧ p_track p' = p_next p ∧ p_next p' = p_next p
    ∧ ∀ j, 0 ≤ j < n * ch →
        ∃ w c x,
          read m (p_window p) j = Some w ∧ read m cur j = Some c ∧ read m nxt j = Some x
          ∧ (p_pos p + n ≤ p_end p →
             lo' !! Z.to_nat (oo + j) = Some (fadd (fmul w c) (fmul (fsub fone w) x)))
          ∧ (p_pos p + n > p_end p →
             ∃ r, read m rst j = Some r
                  ∧ lo' !! Z.to_nat (oo + j)
                    = Some (fadd (fmul w (fadd (fmul w c) (fmul (fsub fone w) x)))
                                 (fmul (fsub fone w) r))).
Proof.
  intros Hp Harmed Hok Hlo ch cur nxt rst.
  destruct (process_unpaused tracks bo oo n m p lo Hp Hok Hlo)
    as (lo' & Hrun & _ & _ & Hin).
  exists lo'. eexists. split; [exact Hrun|].
  split_and!; [reflexivity|reflexivity|].
  intros j Hj. destruct (Hin j Hj) as (w & c & x & Hw & Hc & Hx & Hv).
  exists w, c, x. split_and!; [done..| |].
  - intros Hno. rewrite bool_decide_eq_true_2 in Hv by done.
    cbv zeta in Hv. destruct (Z.gtb_spec (p_pos p + n) (p_end p)); [lia|done].
  - intros Hwrap. rewrite bool_decide_eq_true_2 in Hv by done.
    cbv zeta in Hv. destruct (Z.gtb_spec (p_pos p + n) (p_end p)); [done|lia].
Qed.

End Crossfades.

Lemma ex_wrapping_reached :
  ∃ m, run ex_tracks 2 5 [Callback ex_out 2; Callback ex_out 2; Key "k"]
           (ex_heap, ex_player) = Some (m, ex_wrapping).
Proof. eexists. vm_compute. reflexivity. Qed.

Lemma loop_wrap_crossfade_witness :
  p_paused ex_wrapping = false
  ∧ callback_ok ex_tracks (Ptr 3 0) 2 ex_heap ex_wrapping = true
  ∧ ex_heap !! 3%nat = Some [f32_zero; f32_zero]
  ∧ ∃ lo' p',
      process ex_tracks (Ptr 3 0) 2 (ex_heap, ex_wrapping)
      = Some (<[3%nat := lo']> ex_heap, p')
      ∧ p_pos p' = 2.
Proof.
  split_and!; [reflexivity | vm_compute; reflexivity | reflexivity |].
  destruct (loop_wrap_crossfade ex_tracks 3%nat 0 2 ex_heap ex_wrapping
              [f32_zero; f32_zero] eq_refl eq_refl eq_refl)
    as (lo' & p' & Hrun & _ & _ & Hpos & _).
  exists lo', p'. split; [exact Hrun | exact Hpos].
Defined.

Lemma track_switch_crossfade_witness :
  p_paused (set_end 10 ex_armed) = false
  ∧ p_track (set_end 10 ex_armed) ≠ p_next (set_end 10 ex_armed)
  ∧ callback_ok ex_tracks (Ptr 3 0) 2 ex_heap (set_end 10 ex_armed) = true
  ∧ ex_heap !! 3%nat = Some [f32_zero; f32_zero]
  ∧ ∃ lo' p',
      process ex_tracks (Ptr 3 0) 2 (ex_heap, set_end 10 ex_armed)
      = Some (<[3%nat := lo']> ex_heap, p')
      ∧ p_track p' = 1.
Proof.
  assert (Hne : p_track (set_end 10 ex_armed) ≠ p_next (set_end 10 ex_armed))
    by (simpl; lia).
  split_and!; [reflexivity | exact Hne | vm_compute; reflexivity | reflexivity |].
  destruct (track_switch_crossfade ex_tracks 3%nat 0 2 ex_heap (set_end 10 ex_armed)
              [f32_zero; f32_zero] eq_refl Hne eq_refl eq_refl)
    as (lo' & p' & Hrun & Htrack & _).
  exists lo', p'. split; [exact Hrun | exact Htrack].
Defined.

(** C5, as stated, fails: in the small session, after two callbacks, the key
    [k] and the key [2], the next callback both switches and wraps; its
    second output sample is [0.625] where the claim's formula gives [0.75]. *)
Lemma switch_blend_overwritten :
  ∃ m p m' p' w c x v,
    run ex_tracks 2 5 [Callback ex_out 2; Callback ex_out 2; Key "k"; Key "2"]
        (ex_heap, ex_player) = Some (m, p)
    ∧ p_paused p = false ∧ p_track p ≠ p_next p
    ∧ process ex_tracks ex_out 2 (m, p) = Some (m', p')
    ∧ read m (p_window p) 1 = Some w
    ∧ read m (ptr_add (t_pcm (track_at ex_tracks (p_track p))) (p_pos p * p_channels p)) 1
      = Some c
    ∧ read m (ptr_add (t_pcm (track_at ex_tracks (p_next p))) (p_pos p * p_channels p)) 1
      = Some x
    ∧ fadd (fmul w c) (fmul (fsub fone w) x) = S754_finite false 12582912 (-24)
    ∧ read m' ex_out 1 = Some v
    ∧ v = S754_finite false 10485760 (-24)
    ∧ v ≠ fadd (fmul w c) (fmul (fsub fone w) x).
Proof.
  do 8 eexists.
  split; [vm_compute; reflexivity|].
  split; [reflexivity|]. split; [simpl; lia|].
  split; [vm_compute; reflexivity|].
  split; [vm_compute; reflexivity|].
  split; [vm_compute; reflexivity|].
  split; [vm_compute; reflexivity|].
  split; [vm_compute; reflexivity|].
  split; [vm_compute; reflexivity|].
  split; [reflexivity|].
  vm_compute. discriminate.
Qed.

(** ** C6: the window that [gen_window] generates *)

Section GenWindow.
Context {F : Type} {ops : SampleOps F} {curve : WindowCurve F}.

Local Abbreviation mem := (gmap nat (list F)).

(** The outer loop of [gen_window] on the block [b] of [n * ch] samples:
    the rows [i .. i + k) are filled, row [i'] with [fcoef i' n] in each of
    its [ch] slots. *)
Lemma gen_window_rows b (m : mem) n ch :
  0 ≤ ch → 0 ≤ n → n * ch ≤ INT_MAX →
  ∀ (k : nat) (i : Z) (l : list F),
    0 ≤ i → i + Z.of_nat k ≤ n → Z.of_nat (length l) = n * ch →
    ∃ l',
      for_loop k i
        (λ i m,
           let w := fcoef i n in
           for_loop (Z.to_nat ch) 0
             (λ c m, write m (Ptr b 0) (iadd (imul i ch) c) w) m)
        (<[b := l]> m)
      = Some (<[b := l']> m)
      ∧ length l' = length l
      ∧ (∀ i' c, i ≤ i' < i + Z.of_nat k → 0 ≤ c < ch →
                 l' !! Z.to_nat (i' * ch + c) = Some (fcoef i' n))
      ∧ (∀ t : nat, ¬ (i * ch ≤ Z.of_nat t < (i + Z.of_nat k) * ch) → l' !! t = l !! t).
Proof.
  intros Hch Hn Hmax. induction k as [|k IH]; intros i l Hi Hik Hlen.
  - exists l. simpl. split_and!; [done|done|lia|done].
  - cbn [for_loop].
    destruct (for_loop_store b (i * ch)
                (λ c m, write m (Ptr b 0) (iadd (imul i ch) c) (fcoef i n))
                (λ _, fcoef i n) m (Z.to_nat ch) 0 l)
      as (l1 & Hrow & Hlen1 & Hin1 & Hout1).
    + nia.
    + nia.
    + intros c l0 Hc _ _. cbv beta.
      unfold imul. rewrite (wrap_int_id (i * ch)) by (unfold INT_MAX in *; nia).
      rewrite iadd_id by (unfold INT_MAX in *; nia).
      reflexivity.
    + cbv zeta. rewrite Hrow. cbn [mbind option_bind].
      destruct (IH (i + 1) l1) as (l' & Hrun & Hlen' & Hin' & Hout'); [lia|lia|lia|].
      exists l'. split_and!.
      * done.
      * congruence.
      * intros i' c Hi' Hc. destruct (decide (i' = i)) as [->|Hne].
        -- rewrite Hout' by nia. apply Hin1. lia.
        -- apply Hin'; lia.
      * intros t Ht. rewrite Hout' by nia. apply Hout1. nia.
Qed.

(** [gen_window] returns, and the window block holds [fcoef i n] in every
    channel of frame [i]. *)
Lemma gen_window_spec (m : mem) (p : player) :
  let n := window_frames p in
  let ch := p_channels p in
  let b := window_block m p in
  0 ≤ ch → 0 ≤ n → n * ch ≤ INT_MAX →
  ∃ l,
    gen_window (m, p) = Some (<[b := l]> m, set_window (Ptr b 0) p)
    ∧ Z.of_nat (length l) = n * ch
    ∧ ∀ i c, 0 ≤ i < n → 0 ≤ c < ch →
             l !! Z.to_nat (i * ch + c) = Some (fcoef i n).
Proof.
  intros n ch b Hch Hn Hmax.
  assert (Hbytes : wrap_size (wrap_size (imul n ch) * SIZEOF_FLOAT) ÷ SIZEOF_FLOAT = n * ch).
  { unfold imul. rewrite (wrap_int_id (n * ch)) by (unfold INT_MAX in *; nia).
    unfold SIZEOF_FLOAT, INT_MAX in *.
    rewrite (wrap_size_id (n * ch)) by nia. rewrite wrap_size_id by nia.
    by rewrite Z.quot_mul. }
  assert (Halloc : ∃ l0,
    alloc m (p_window p) (wrap_size (wrap_size (imul n ch) * SIZEOF_FLOAT))
    = (<[b := l0]> m, Ptr b 0) ∧ Z.of_nat (length l0) = n * ch).
  { unfold alloc, b, window_block. rewrite Hbytes. destruct (p_window p) as [|b' o].
    - eexists. split; [reflexivity|]. rewrite length_replicate. nia.
    - eexists. split; [reflexivity|]. rewrite length_resize. nia. }
  destruct Halloc as (l0 & Halloc & Hlen0).
  destruct (gen_window_rows b m n ch Hch Hn Hmax (Z.to_nat n) 0 l0)
    as (l & Hrun & Hlen & Hin & _); [lia|lia|done|].
  exists l. unfold gen_window. fold (window_frames p). fold n ch.
  rewrite Halloc. cbv beta iota zeta. cbv zeta in Hrun. rewrite Hrun.
  cbn [mbind option_bind].
  split_and!; [done|congruence|].
  intros i c Hi Hc. apply Hin; lia.
Qed.

End GenWindow.

(** The raised cosine, on the reals. *)

Lemma coef_first n : (1 / 2 + 1 / 2 * cos (PI * IZR 0 / IZR n) = 1)%R.
Proof.
  replace (PI * 0 / IZR n)%R with 0%R by (unfold Rdiv; ring).
  rewrite cos_0. lra.
Qed.

Lemma coef_angle_bounds i n :
  0 ≤ i < n → (0 <= PI * IZR i / IZR n <= PI)%R.
Proof.
  intros Hi.
  assert (Hn : (0 < IZR n)%R) by (apply IZR_lt; lia).
  assert (Hi0 : (0 <= IZR i)%R) by (apply IZR_le; lia).
  assert (Hin : (IZR i <= IZR n)%R) by (apply IZR_le; lia).
  pose proof PI_RGT_0 as Hpi.
  split.
  - apply Rmult_le_pos; [nra|]. apply Rlt_le, Rinv_0_lt_compat. done.
  - apply (Rmult_le_reg_r (IZR n)); [done|].
    unfold Rdiv. rewrite Rmult_assoc, Rinv_l by lra. nra.
Qed.

Lemma coef_non_increasing i i' n :
  0 ≤ i ≤ i' → i' < n →
  (1 / 2 + 1 / 2 * cos (PI * IZR i' / IZR n)
   <= 1 / 2 + 1 / 2 * cos (PI * IZR i / IZR n))%R.
Proof.
  intros Hi Hi'.
  assert (Hn : (0 < IZR n)%R) by (apply IZR_lt; lia).
  assert (Hle : (IZR i <= IZR i')%R) by (apply IZR_le; lia).
  pose proof PI_RGT_0 as Hpi.
  destruct (coef_angle_bounds i n) as [Ha0 Ha1]; [lia|].
  destruct (coef_angle_bounds i' n) as [Hb0 Hb1]; [lia|].
  assert (Hang : (PI * IZR i / IZR n <= PI * IZR i' / IZR n)%R).
  { unfold Rdiv. apply Rmult_le_compat_r; [apply Rlt_le, Rinv_0_lt_compat; done|nra]. }
  pose proof (cos_decr_1 _ _ Ha0 Ha1 Hb0 Hb1 Hang).
  lra.
Qed.

Lemma coef_last n :
  0 < n →
  (1 / 2 + 1 / 2 * cos (PI * IZR (n - 1) / IZR n) = (sin (PI / (2 * IZR n)))²)%R.
Proof.
  intros Hn0.
  assert (Hn : (0 < IZR n)%R) by (apply IZR_lt; lia).
  rewrite minus_IZR.
  replace (PI * (IZR n - 1) / IZR n)%R with (PI - PI / IZR n)%R by (field; lra).
  rewrite Rtrigo_facts.cos_pi_minus.
  replace (PI / IZR n)%R with (2 * (PI / (2 * IZR n)))%R by (field; lra).
  rewrite cos_2a_sin. unfold Rsqr. lra.
Qed.

Lemma coef_last_small n :
  0 < n →
  ((sin (PI / (2 * IZR n)))² <= (PI / (2 * IZR n))²)%R.
Proof.
  intros Hn0.
  assert (Hn : (1 <= IZR n)%R) by (apply IZR_le; lia).
  pose proof PI_RGT_0 as Hpi.
  assert (Hy : (0 < PI / (2 * IZR n))%R).
  { apply Rdiv_lt_0_compat; lra. }
  assert (Hy' : (PI / (2 * IZR n) <= PI)%R).
  { apply (Rmult_le_reg_r (2 * IZR n)); [lra|].
    unfold Rdiv. rewrite Rmult_assoc, Rinv_l by lra. nra. }
  pose proof (sin_lt_x _ Hy). pose proof (sin_ge_0 _ (Rlt_le _ _ Hy) Hy').
  apply Rsqr_incr_1; lra.
Qed.

(** ** The window in binary32 *)

Lemma digits2_pos_iter_xO (p k : positive) :
  digits2_pos (Pos.iter xO p k) = (digits2_pos p + k)%positive.
Proof.
  induction k as [|k IH] using Pos.peano_ind.
  - simpl. lia.
  - rewrite Pos.iter_succ. cbn [digits2_pos]. rewrite IH. lia.
Qed.

Lemma digits2_pos_lower (p : positive) :
  2 ^ (Z.pos (digits2_pos p) - 1) ≤ Z.pos p.
Proof.
  induction p as [p IH|p IH|]; cbn [digits2_pos]; [| |done].
  - rewrite Pos2Z.inj_succ.
    replace (Z.succ (Z.pos (digits2_pos p)) - 1) with (Z.succ (Z.pos (digits2_pos p) - 1))
      by lia.
    rewrite Z.pow_succ_r by lia. lia.
  - rewrite Pos2Z.inj_succ.
    replace (Z.succ (Z.pos (digits2_pos p)) - 1) with (Z.succ (Z.pos (digits2_pos p) - 1))
      by lia.
    rewrite Z.pow_succ_r by lia. lia.
Qed.

(** A positive [int] converts to a positive finite [double]. *)
Lemma f64_of_int_pos (n : Z) :
  0 < n ≤ INT_MAX → ∃ m e, f64_of_int n = S754_finite false m e.
Proof.
  intros Hn. destruct n as [|p|p]; [lia| |lia].
  assert (Hd : Z.pos (digits2_pos p) ≤ 31).
  { pose proof (digits2_pos_lower p) as Hlow.
    destruct (Z.le_gt_cases (Z.pos (digits2_pos p)) 31) as [|Hgt]; [done|].
    assert (2 ^ 31 ≤ 2 ^ (Z.pos (digits2_pos p) - 1)) by (apply Z.pow_le_mono_r; lia).
    unfold INT_MAX in Hn. lia. }
  unfold f64_of_int, binary_normalize, binary_round.
  set (d := digits2_pos p) in *.
  assert (Hfexp : fexp 53 1024 (Z.pos d + 0) = Z.pos d - 53).
  { unfold fexp, emin. lia. }
  rewrite Hfexp. unfold shl_align.
  destruct (Z.pos d - 53 - 0) as [|k|k] eqn:Hk; [lia|lia|].
  unfold binary_round_aux, shr_fexp.
  assert (Hshift : ∀ m : positive,
            digits2_pos m = (d + k)%positive →
            fexp 53 1024 (Zdigits2 (Z.pos m) + (Z.pos d - 53)) - (Z.pos d - 53) = 0).
  { intros m Hm. cbn [Zdigits2]. rewrite Hm. unfold fexp, emin. lia. }
  rewrite (Hshift _ (digits2_pos_iter_xO p k)).
  cbn [shr shr_record_of_loc shr_m loc_of_shr_record round_nearest_even].
  rewrite (Hshift _ (digits2_pos_iter_xO p k)).
  cbn [shr shr_record_of_loc shr_m].
  destruct (Z.leb_spec (Z.pos d - 53) (1024 - 53)); [|lia].
  eauto.
Qed.

Section FloatWindow.
Variable libm_cos : f64 → f64.

(** The first coefficient, when [cos(+0.0)] is [1.0]. *)
Lemma f32_coef_first (n : Z) :
  0 < n ≤ INT_MAX → libm_cos (S754_zero false) = f64_one →
  fcoef (WindowCurve := f32_curve libm_cos) 0 n = f32_one.
Proof.
  intros Hn Hcos. destruct (f64_of_int_pos n Hn) as (m & e & Hm).
  cbn [fcoef f32_curve]. rewrite Hm.
  change (SFmul 53 1024 f64_M_PI (f64_of_int 0)) with (S754_zero false).
  cbn [SFdiv xorb]. rewrite Hcos. by vm_compute.
Qed.

End FloatWindow.

(** ** The window under any rounding *)

Section RoundedWindow.
Variables (rnd64 rnd32 cosd : R → R) (pi_d : R).
Hypothesis arith : window_arith rnd64 rnd32 cosd pi_d.

(** The argument of [cos] for frame [i]. *)
Local Abbreviation angle i n := (rnd64 (rnd64 (pi_d * IZR i) / IZR n))%R.

Lemma angle_mono (i i' n : Z) :
  0 ≤ i ≤ i' → 0 < n → (angle i n <= angle i' n)%R.
Proof.
  intros Hi Hn.
  assert (Hn' : (0 < IZR n)%R) by (apply IZR_lt; lia).
  assert (Hle : (IZR i <= IZR i')%R) by (apply IZR_le; lia).
  pose proof (pi_d_range _ _ _ _ arith) as Hpi.
  apply (rnd64_mono _ _ _ _ arith).
  unfold Rdiv. apply Rmult_le_compat_r; [apply Rlt_le, Rinv_0_lt_compat; done|].
  apply (rnd64_mono _ _ _ _ arith). nra.
Qed.

Lemma angle_first (n : Z) : (angle 0 n = 0)%R.
Proof.
  rewrite Rmult_0_r, (rnd64_zero _ _ _ _ arith).
  unfold Rdiv. rewrite Rmult_0_l. apply (rnd64_zero _ _ _ _ arith).
Qed.

Lemma angle_range (i n : Z) :
  0 ≤ i < n → n ≤ INT_MAX → (0 <= angle i n <= pi_d)%R.
Proof.
  intros Hi Hmax.
  assert (Hn' : (0 < IZR n)%R) by (apply IZR_lt; lia).
  pose proof (pi_d_range _ _ _ _ arith) as Hpi.
  split.
  - rewrite <- (angle_first n). apply angle_mono; lia.
  - transitivity (rnd64 pi_d); [|rewrite (rnd64_pi _ _ _ _ arith); lra].
    apply (rnd64_mono _ _ _ _ arith).
    apply (Rmult_le_reg_r (IZR n)); [done|].
    unfold Rdiv. rewrite Rmult_assoc, Rinv_l, Rmult_1_r by lra.
    destruct (decide (i = 0)) as [->|Hne].
    + rewrite Rmult_0_r, (rnd64_zero _ _ _ _ arith). nra.
    + assert (H1 : (1 <= IZR i)%R) by (apply IZR_le; lia).
      assert (Hin : (IZR i <= IZR n - 1)%R).
      { rewrite <- minus_IZR. apply IZR_le. lia. }
      assert (Hn31 : (IZR n <= 2 ^ 31)%R).
      { assert (IZR n <= 2147483647)%R by (apply IZR_le; unfold INT_MAX in Hmax; lia).
        lra. }
      etransitivity; [apply (rnd64_error _ _ _ _ arith); nra|].
      assert (Hu : (0 < / 2 ^ 53)%R) by (apply Rinv_0_lt_compat; lra).
      assert (Hu' : (/ 2 ^ 53 * 2 ^ 31 <= 1)%R).
      { apply (Rmult_le_reg_l (2 ^ 53)); [lra|].
        rewrite <- Rmult_assoc, Rinv_r by lra. lra. }
      nra.
Qed.

(** The coefficients do not increase with the frame, and the first is 1. *)
Lemma rounded_coef_non_increasing (i i' n : Z) :
  0 ≤ i ≤ i' → i' < n → n ≤ INT_MAX →
  (fcoef (WindowCurve := rounded_curve rnd64 rnd32 cosd pi_d) i' n
   <= fcoef (WindowCurve := rounded_curve rnd64 rnd32 cosd pi_d) i n)%R.
Proof.
  intros Hi Hi' Hmax. cbn [fcoef rounded_curve].
  destruct (angle_range i n) as [Ha0 _]; [lia|done|].
  destruct (angle_range i' n) as [_ Hb1]; [lia|done|].
  pose proof (angle_mono i i' n ltac:(lia) ltac:(lia)) as Hang.
  pose proof (cosd_decr _ _ _ _ arith _ _ Ha0 Hang Hb1) as Hcos.
  apply (rnd32_mono _ _ _ _ arith), (rnd64_mono _ _ _ _ arith).
  apply Rplus_le_compat_l, (rnd64_mono _ _ _ _ arith). lra.
Qed.

Lemma rounded_coef_first (n : Z) :
  fcoef (WindowCurve := rounded_curve rnd64 rnd32 cosd pi_d) 0 n = 1%R.
Proof.
  cbn [fcoef rounded_curve]. rewrite angle_first, (cosd_zero _ _ _ _ arith).
  rewrite Rmult_1_r, (rnd64_half _ _ _ _ arith).
  replace (1 / 2 + 1 / 2)%R with 1%R by lra.
  by rewrite (rnd64_one _ _ _ _ arith), (rnd32_one _ _ _ _ arith).
Qed.

End RoundedWindow.

(** Exact arithmetic is one such rounding. *)
Lemma exact_window_arith : window_arith (λ x, x) (λ x, x) cos PI.
Proof.
  pose proof PI2_1 as Hpi.
  split; try done; try lra.
  - intros x Hx. assert (0 < / 2 ^ 53)%R by (apply Rinv_0_lt_compat; lra). nra.
  - apply cos_0.
  - intros x y Hx Hxy Hy. apply cos_decr_1; lra.
Qed.




(** The same in the arithmetic of the code, for every [cos] with
    [cos(+0.0) = 1.0]: the last coefficient of the one-frame window is
    [1.0f]. *)
Lemma one_frame_window_f32 (libm_cos : f64 → f64) :
  libm_cos (S754_zero false) = f64_one →
  ∃ m' p',
    gen_window (curve := f32_curve libm_cos) (∅ : gmap nat (list f32), one_frame)
    = Some (m', p')
    ∧ window_frames p' = 1
    ∧ read m' (p_window p') (window_frames p' * p_channels p' - 1) = Some f32_one.
Proof.
  intros Hcos.
  destruct (gen_window_spec (curve := f32_curve libm_cos) (∅ : gmap nat (list f32))
              one_frame)
    as (l & Hrun & Hlen & Hin); [simpl; lia | vm_compute; discriminate
                                | vm_compute; discriminate |].
  set (b := window_block ∅ one_frame) in *.
  exists (<[b := l]> ∅), (set_window (Ptr b 0) one_frame).
  split_and!; [exact Hrun | reflexivity |].
  change (window_frames (set_window (Ptr b 0) one_frame)
          * p_channels (set_window (Ptr b 0) one_frame) - 1) with 0.
  rewrite (read_Ptr _ b 0 0 l); [|apply lookup_insert_eq|lia].
  transitivity (Some (fcoef (WindowCurve := f32_curve libm_cos) 0
                        (window_frames one_frame))).
  - apply (Hin 0 0); by vm_compute.
  - f_equal. apply f32_coef_first; [by vm_compute|done].
Qed.

(** ** C10: the window and the callback buffer have one length *)

Lemma handle_key_format nf step c p :
  p_samplerate (handle_key nf step c p) = p_samplerate p
  ∧ p_channels (handle_key nf step c p) = p_channels p
  ∧ p_window (handle_key nf step c p) = p_window p.
Proof. unfold handle_key. repeat case_match; done. Qed.

Section Format.
Context {F : Type} {ops : SampleOps F}.

Local Abbreviation mem := (gmap nat (list F)).

Lemma step_event_format (tracks : list track) nf step e (s s' : mem * player) :
  step_event tracks nf step e s = Some s' →
  p_samplerate (snd s') = p_samplerate (snd s)
  ∧ p_channels (snd s') = p_channels (snd s)
  ∧ p_window (snd s') = p_window (snd s).
Proof.
  destruct s as [m p], s' as [m' p']. destruct e as [out n|c|]; simpl.
  - intros ->%process_player.
    destruct (p_paused p); [done|]. cbv zeta.
    destruct (bool_decide (p_track p ≠ p_next p)); repeat case_match; done.
  - destruct (p_running p); [|done]. intros [= <- <-]. apply handle_key_format.
  - intros [= <- <-]. done.
Qed.

(** No event changes the sample rate, the channel count or the window
    pointer. *)
Lemma reach_format (tracks : list track) nf step ok (s0 s : mem * player) :
  reach tracks nf step ok s0 s →
  p_samplerate (snd s) = p_samplerate (snd s0)
  ∧ p_channels (snd s) = p_channels (snd s0)
  ∧ p_window (snd s) = p_window (snd s0).
Proof.
  induction 1 as [|e s1 s2 _ (IH1 & IH2 & IH3) _ Hev]; [done|].
  apply step_event_format in Hev as (H1 & H2 & H3).
  split_and!; congruence.
Qed.

(** C10: [start_stream] asks for [LATENCY * samplerate / 1000] frames per
    callback, which is the frame count of the window in every state that
    the player reaches afterwards; the window that [gen_window] generated
    has that many frames; and a cross-fade on an output buffer of
    [n * channels] samples returns, blends every one of them, and leaves
    every other sample of the output block as it was. *)
Theorem crossfade_spans_callback {curve : WindowCurve F} (tracks : list track) nf step
    (m0 m1 m : mem) (p0 p1 p : player) bo oo lo inp :
  gen_window (m0, p0) = Some (m1, p1) →
  reach tracks nf step (λ _ _, true) (m1, fst (start_stream p1)) (m, p) →
  let n := framesPerBuffer (snd (start_stream p1)) in
  let cnt := n * p_channels p in
  0 < p_channels p → 0 ≤ n → cnt ≤ INT_MAX →
  m !! bo = Some lo → 0 ≤ oo → oo + cnt ≤ Z.of_nat (length lo) →
  apart (p_window p) bo = true → apart inp bo = true →
  valid_range m (p_window p) cnt = true → valid_range m inp cnt = true →
  n = window_frames p
  ∧ (∃ b l, p_window p1 = Ptr b 0 ∧ m1 !! b = Some l ∧ Z.of_nat (length l) = cnt)
  ∧ ∃ lo',
      apply_window p m (Ptr bo oo) inp = Some (<[bo := lo']> m)
      ∧ length lo' = length lo
      ∧ (∀ j, 0 ≤ j < cnt →
           ∃ w a x, read m (p_window p) j = Some w
                    ∧ read m (Ptr bo oo) j = Some a
                    ∧ read m inp j = Some x
                    ∧ lo' !! Z.to_nat (oo + j)
                      = Some (fadd (fmul w a) (fmul (fsub fone w) x)))
      ∧ (∀ t : nat, ¬ (oo ≤ Z.of_nat t < oo + cnt) → lo' !! t = lo !! t).
Proof.
  intros Hgen Hreach n cnt Hch Hn Hcnt Hlo Hoo Hlen Awin Ainp Vwin Vinp.
  apply reach_format in Hreach as (Hsr & Hc & Hw). simpl in Hsr, Hc, Hw.
  assert (Hsr0 : p_samplerate p1 = p_samplerate p0 ∧ p_channels p1 = p_channels p0).
  { unfold gen_window in Hgen.
    destruct (alloc m0 (p_window p0) _) as [m0' win].
    destruct (for_loop _ _ _ m0'); simpl in Hgen; [|done].
    injection Hgen as _ <-. done. }
  destruct Hsr0 as [Hsr0 Hc0].
  assert (Hnw : n = window_frames p).
  { unfold n, window_frames. simpl. by rewrite Hsr. }
  assert (Hnw0 : window_frames p0 = n).
  { unfold n, window_frames. simpl. by rewrite Hsr0. }
  split; [exact Hnw|]. split.
  - destruct (gen_window_spec m0 p0) as (l & Hrun & Hl & _).
    + rewrite <- Hc0, <- Hc. lia.
    + rewrite Hnw0. done.
    + rewrite Hnw0, <- Hc0, <- Hc. done.
    + rewrite Hrun in Hgen. injection Hgen as <- <-.
      exists (window_block m0 p0), l. split_and!; [done|apply lookup_insert_eq|].
      rewrite Hl, Hnw0, <- Hc0, <- Hc. done.
  - assert (Hcnt' : cnt = imul (window_frames p) (p_channels p)).
    { unfold imul. rewrite <- Hnw. rewrite wrap_int_id; [done|].
      unfold cnt, INT_MAX in *. nia. }
    assert (Hcnt0 : 0 ≤ cnt) by (unfold cnt; nia).
    rewrite Hcnt' in *.
    apply (apply_window_spec p m bo oo lo inp); try done.
    + by left.
    + by left.
Qed.

End Format.

Lemma crossfade_spans_callback_witness :
  ∃ m1 p1 lo',
    gen_window (real_heap, ex_loaded) = Some (m1, p1)
    ∧ framesPerBuffer (snd (start_stream p1)) = window_frames (fst (start_stream p1))
    ∧ apply_window (fst (start_stream p1)) m1 (Ptr 3 0) (Ptr 1 0)
      = Some (<[3%nat := lo']> m1).
Proof.
  destruct (gen_window_spec real_heap ex_loaded) as (l & Hrun & Hlen & _);
    [by vm_compute..|].
  change (window_block real_heap ex_loaded) with 0%nat in Hrun.
  change (window_frames ex_loaded * p_channels ex_loaded) with 2 in Hlen.
  set (m1 := <[0%nat := l]> real_heap) in *.
  set (p1 := set_window (Ptr 0 0) ex_loaded) in *.
  assert (Hout : m1 !! 3%nat = Some [0%R; 0%R]).
  { unfold m1. rewrite lookup_insert_ne by done. reflexivity. }
  assert (Vwin : valid_range m1 (Ptr 0 0) 2 = true).
  { unfold valid_range, m1. rewrite lookup_insert_eq, Hlen. reflexivity. }
  assert (Vinp : valid_range m1 (Ptr 1 0) 2 = true).
  { unfold valid_range, m1. rewrite lookup_insert_ne by done. reflexivity. }
  destruct (crossfade_spans_callback [] 0 0 real_heap m1 m1 ex_loaded p1
              (fst (start_stream p1)) 3%nat 0 [0%R; 0%R] (Ptr 1 0) Hrun
              (reach_here _ _ _ _ _))
    as (Hn & _ & lo' & Happ & _);
    [reflexivity | by vm_compute | by vm_compute | exact Hout | lia | by vm_compute
    | reflexivity | reflexivity | exact Vwin | exact Vinp |].
  exists m1, p1, lo'. split_and!; [exact Hrun | exact Hn | exact Happ].
Defined.

(** ** C7: blending a buffer with itself *)

(** C7, as amended: in exact arithmetic [apply_window] with [inp] the output
    pointer itself leaves the heap as it was. *)
Theorem self_blend_exact (p : player) (m : gmap nat (list R)) b o l :
  let cnt := window_frames p * p_channels p in
  m !! b = Some l →
  0 ≤ o → 0 ≤ cnt ≤ INT_MAX → o + cnt ≤ Z.of_nat (length l) →
  apart (p_window p) b = true →
  valid_range m (p_window p) cnt = true →
  apply_window p m (Ptr b o) (Ptr b o) = Some m.
Proof.
  intros cnt Hb Ho Hcnt Hl Awin Vwin.
  assert (Hcnt' : cnt = imul (window_frames p) (p_channels p)).
  { unfold imul. rewrite wrap_int_id; [done|]. unfold cnt, INT_MAX in *. lia. }
  assert (Vout : valid_range m (Ptr b o) cnt = true).
  { simpl. rewrite Hb. apply andb_true_iff. split; lia. }
  rewrite Hcnt' in *.
  destruct (apply_window_spec p m b o l (Ptr b o)) as (l' & Hrun & Hlen & Hin & Hout);
    try done; try lia.
  { by left. } { by right. }
  rewrite Hrun. f_equal.
  replace l' with l; [by apply insert_id|].
  symmetry.
  apply (block_eq l' l o (o + imul (window_frames p) (p_channels p))); [done| |done].
  intros j Hj Hj0.
  destruct (Hin (j - o)) as (w & a & x & Hw & Ha & Hx & Hv); [lia|].
  replace (o + (j - o)) with j in Hv by lia.
  rewrite Hv. rewrite Ha in Hx. injection Hx as <-.
  rewrite (read_Ptr m b o (j - o) l) in Ha by (done || lia).
  replace (o + (j - o)) with j in Ha by lia.
  rewrite Ha. f_equal. simpl. ring.
Qed.

Lemma self_blend_exact_witness :
  apply_window ex_loaded (<[0%nat := [1%R; (1 / 2)%R]]> real_heap) (Ptr 1 4) (Ptr 1 4)
  = Some (<[0%nat := [1%R; (1 / 2)%R]]> real_heap).
Proof.
  apply (self_blend_exact ex_loaded (<[0%nat := [1%R; (1 / 2)%R]]> real_heap)
           1%nat 4 (replicate 12 1%R)).
  - reflexivity.
  - lia.
  - by vm_compute.
  - by vm_compute.
  - reflexivity.
  - reflexivity.
Defined.

(** C7, as stated, fails in the arithmetic of the code: with the window
    coefficient [0.14644662f] the sample [0.7f] (mantissa 11744051) becomes
    [0.70000005f] (mantissa 11744052). *)
Lemma self_blend_rounds :
  ∃ m' v,
    apply_window fade_player fade_heap (Ptr 1 0) (Ptr 1 0) = Some m'
    ∧ read fade_heap (Ptr 1 0) 3 = Some (S754_finite false 11744051 (-24))
    ∧ read m' (Ptr 1 0) 3 = Some v
    ∧ v = S754_finite false 11744052 (-24)
    ∧ v ≠ S754_finite false 11744051 (-24).
Proof.
  do 2 eexists.
  split; [vm_compute; reflexivity|].
  split; [reflexivity|].
  split; [vm_compute; reflexivity|].
  split; [reflexivity|discriminate].
Qed.

(** An infinite sample does not survive the blend with itself either: with
    the coefficient [1.0f] it becomes [1 * inf + 0 * inf], not a number. *)
Lemma self_blend_infinity :
  ∃ m',
    apply_window fade_player (<[1%nat := replicate 4 (S754_infinity false)]> fade_heap)
                 (Ptr 1 0) (Ptr 1 0) = Some m'
    ∧ read m' (Ptr 1 0) 0 = Some S754_nan.
Proof. eexists. split; vm_compute; reflexivity. Qed.

(** ** C8: padding *)

Section Padding.
Context {F : Type} {ops : SampleOps F}.

Local Abbreviation mem := (gmap nat (list F)).

(** The frames that [load_tracks] appends to a track of [len] frames. *)
Lemma pad_track_spec (m : mem) (p : player) (t : track) b o l :
  let W := window_frames p in
  let ch := t_channels t in
  let len := t_length t in
  let samples := if len <? p_length p then W + (p_length p - len) else W in
  t_pcm t = Ptr b o → m !! b = Some l →
  0 < ch → 0 ≤ len → 0 ≤ W → 0 ≤ p_length p →
  (len + samples) * ch * SIZEOF_FLOAT ≤ INT_MAX →
  ∃ l',
    pad_track m p t
    = Some (<[b := l']> m,
            mk_track (Ptr b 0) (t_name t) (t_channels t) (t_samplerate t) (t_length t))
    ∧ Z.of_nat (length l') = (len + samples) * ch
    ∧ (∀ j : nat, Z.of_nat j < len * ch → l' !! j = resize (Z.to_nat ((len + samples) * ch)) fzero l !! j)
    ∧ (∀ j, len * ch ≤ j < (len + samples) * ch → l' !! Z.to_nat j = Some fzero).
Proof.
  intros W ch len samples Hpcm Hb Hch Hlen HW Hplen Hmax.
  assert (Hs : 0 ≤ samples) by (unfold samples; case_match; lia).
  unfold SIZEOF_FLOAT, INT_MAX in *.
  assert (Hsamples :
    (if len <? p_length p then iadd W (isub (p_length p) len) else W) = samples).
  { unfold samples. case_match; [|done].
    assert (p_length p ≤ 2147483647) by nia.
    rewrite isub_id by (unfold INT_MAX; lia).
    rewrite iadd_id; [done|]. unfold INT_MAX. nia. }
  assert (Hsize :
    wrap_int (wrap_size (wrap_size (imul len ch) * SIZEOF_FLOAT)) = len * ch * 4).
  { unfold imul, SIZEOF_FLOAT.
    rewrite (wrap_int_id (len * ch)) by (unfold INT_MAX; nia).
    rewrite (wrap_size_id (len * ch)) by nia.
    rewrite wrap_size_id by nia. apply wrap_int_id. unfold INT_MAX. nia. }
  assert (Hbytes :
    wrap_int (wrap_size (wrap_size (imul samples ch) * SIZEOF_FLOAT)) = samples * ch * 4).
  { unfold imul, SIZEOF_FLOAT.
    rewrite (wrap_int_id (samples * ch)) by (unfold INT_MAX; nia).
    rewrite (wrap_size_id (samples * ch)) by nia.
    rewrite wrap_size_id by nia. apply wrap_int_id. unfold INT_MAX. nia. }
  unfold pad_track. fold (window_frames p). fold W ch len.
  rewrite Hsamples, Hsize, Hbytes, Hpcm.
  rewrite iadd_id by (unfold INT_MAX; nia).
  rewrite (wrap_size_id (len * ch * 4 + samples * ch * 4)) by nia.
  rewrite (wrap_size_id (samples * ch * 4)) by nia.
  unfold alloc. rewrite Hb. change (default [] (Some l)) with l. cbn [ptr_add].
  replace ((len * ch * 4 + samples * ch * 4) ÷ SIZEOF_FLOAT) with ((len + samples) * ch)
    by (unfold SIZEOF_FLOAT; rewrite <- Z.quot_mul with (b := 4) at 1 by lia; f_equal; lia).
  set (l0 := resize (Z.to_nat ((len + samples) * ch)) fzero l).
  assert (Hl0 : Z.of_nat (length l0) = (len + samples) * ch).
  { unfold l0. rewrite length_resize. nia. }
  unfold imul. rewrite (wrap_int_id (len * ch)) by (unfold INT_MAX; nia).
  destruct (memset0_spec (<[b := l0]> m) b (0 + len * ch) l0 (samples * ch * 4))
    as (l' & Hrun & Hlen' & Hin & Hout).
  { apply lookup_insert_eq. } { nia. } { nia. }
  { unfold SIZEOF_FLOAT. rewrite Z.quot_mul by lia. nia. }
  unfold SIZEOF_FLOAT in Hin, Hout. rewrite Z.quot_mul in Hin, Hout by lia.
  rewrite Hrun. cbn [mbind option_bind]. rewrite insert_insert_eq.
  exists l'. split_and!; [done|lia|..].
  - intros j Hj. apply Hout. lia.
  - intros j Hj. specialize (Hin (j - len * ch)).
    replace (0 + len * ch + (j - len * ch)) with j in Hin by lia.
    apply Hin. lia.
Qed.

End Padding.

Section PaddingGuarantee.
Context {F : Type} {ops : SampleOps F}.

(** What the padding does achieve: a track shorter than the reference is
    padded to exactly [length + window] frames, and every sample that the
    loop cross-fade itself reads from it, the [window * channels] samples
    from frame [start], lies inside the padded buffer for every [start] up
    to the reference length. *)
Theorem padded_track_covers_wrap (m : gmap nat (list F)) (p : player) (t : track) b o l :
  t_pcm t = Ptr b o → m !! b = Some l →
  t_channels t = p_channels p →
  0 < p_channels p → 0 ≤ t_length t < p_length p → 0 ≤ window_frames p →
  (p_length p + window_frames p) * p_channels p * SIZEOF_FLOAT ≤ INT_MAX →
  ∃ m' t' l',
    pad_track m p t = Some (m', t')
    ∧ t_pcm t' = Ptr b 0 ∧ m' !! b = Some l'
    ∧ Z.of_nat (length l') = (p_length p + window_frames p) * p_channels p
    ∧ ∀ start j,
        0 ≤ start ≤ p_length p →
        0 ≤ j < imul (window_frames p) (p_channels p) →
        is_Some (read m' (ptr_add (t_pcm t') (imul start (p_channels p))) j).
Proof.
  intros Hpcm Hb Hch Hch0 Hlen HW Hmax.
  destruct (pad_track_spec m p t b o l Hpcm Hb) as (l' & Hrun & Hl' & _ & _).
  { lia. } { lia. } { done. } { lia. }
  { rewrite Hch. destruct (Z.ltb_spec (t_length t) (p_length p)); [|lia].
    replace (t_length t + (window_frames p + (p_length p - t_length t)))
      with (p_length p + window_frames p) by lia. done. }
  destruct (Z.ltb_spec (t_length t) (p_length p)); [|lia].
  replace (t_length t + (window_frames p + (p_length p - t_length t)))
    with (p_length p + window_frames p) in Hl' by lia.
  rewrite Hch in Hl'.
  eexists _, _, l'. split_and!; [exact Hrun|reflexivity|apply lookup_insert_eq|done|].
  intros start j Hstart Hj. cbn [t_pcm ptr_add].
  unfold SIZEOF_FLOAT, INT_MAX in *.
  unfold imul in *.
  rewrite (wrap_int_id (start * p_channels p)) by (unfold INT_MAX; nia).
  rewrite (wrap_int_id (window_frames p * p_channels p)) in Hj by (unfold INT_MAX; nia).
  apply (read_is_Some _ b _ j l'); [apply lookup_insert_eq|nia].
Qed.

End PaddingGuarantee.

Lemma padded_track_covers_wrap_witness :
  ∃ m' t',
    pad_track short_heap ex_loaded short_track = Some (m', t')
    ∧ is_Some (read m' (ptr_add (t_pcm t') (imul 10 (p_channels ex_loaded))) 1).
Proof.
  destruct (padded_track_covers_wrap short_heap ex_loaded short_track 5%nat 0
              (replicate 7 f32_half))
    as (m' & t' & l' & Hrun & _ & _ & _ & Hread);
    [reflexivity | reflexivity | reflexivity | reflexivity | by vm_compute
    | by vm_compute | by vm_compute |].
  exists m', t'. split; [exact Hrun|].
  apply Hread; by vm_compute.
Defined.

(** C8: the padding does not keep a loop inside the last window-length
    frames within the buffer.  In the small session with a second file of
    seven frames, [load_tracks] pads that file to [10 + 2] frames.  With the
    short track selected (key [2]) and the loop start moved to the end of
    the track (key [o] twice: [start = end = length = 10]), the sixth
    callback wraps and leaves [pos = start + n = 12], and the seventh copies
    two frames from there: it reads behind the twelve samples. *)
Theorem padded_loop_reads_outside :
  ∃ m p tracks l,
    load_tracks 0 short_files (short_slurped, player0, replicate 10 track0)
    = Some (m, p, tracks)
    ∧ p_length p = 10 ∧ window_frames p = 2
    ∧ track_at tracks 1 = mk_track (Ptr 5 0) "c" 1 100 7
    ∧ m !! 5%nat = Some l
    ∧ Z.of_nat (length l) = (p_length p + window_frames p) * p_channels p
    ∧ let heap := <[3%nat := [f32_zero; f32_zero]]> (<[0%nat := [f32_one; f32_half]]> m) in
      let p0 := fst (start_stream (set_window (Ptr 0 0) p)) in
      let keys := [Key "2"; Key "o"; Key "o"] in
      let cb := Callback ex_out 2 in
      (∃ s, run tracks 2 (step_frames p0) (keys ++ replicate 6 cb) (heap, p0) = Some s
            ∧ p_track (snd s) = 1
            ∧ p_start (snd s) = 10 ∧ p_end (snd s) = 10 ∧ p_pos (snd s) = 12)
      ∧ run tracks 2 (step_frames p0) (keys ++ replicate 7 cb) (heap, p0) = None.
Proof.
  do 4 eexists.
  split; [vm_compute; reflexivity|].
  split; [reflexivity|]. split; [reflexivity|]. split; [reflexivity|].
  split; [vm_compute; reflexivity|]. split; [reflexivity|].
  cbv zeta. split.
  - eexists. split; [vm_compute; reflexivity|]. split_and!; reflexivity.
  - vm_compute. reflexivity.
Qed.

(** ** C9: shuffling *)

Section ShuffleProof.
Variable RAND_MAX : Z.
Hypothesis RAND_MAX_nonneg : 0 ≤ RAND_MAX.

Lemma rand_index_range r k :
  0 ≤ r ≤ RAND_MAX → 0 < k → 0 ≤ rand_index RAND_MAX r k < k.
Proof.
  intros Hr Hk. unfold rand_index.
  rewrite Z.quot_div_nonneg by nia. split.
  - apply Z.div_pos; nia.
  - apply Z.div_lt_upper_bound; nia.
Qed.

(** The loop of [shuffle_tracks] from index [i]: the array is permuted, and
    the entries before [i] and from [n] on stay where they are. *)
Lemma shuffle_loop (rand : nat → Z) n :
  (∀ c, 0 ≤ rand c ≤ RAND_MAX) → n ≤ INT_MAX →
  ∀ (k : nat) (i : Z) (tr : list track) (calls : nat),
    0 ≤ i → ((0 < k)%nat → i + Z.of_nat k ≤ n - 1) → n ≤ Z.of_nat (length tr) →
    ∃ tr' calls',
      for_loop k i
        (λ i '(tracks, calls),
           let j := iadd i (wrap_int (rand_index RAND_MAX (rand calls) (isub n i))) in
           if (0 <=? i) && (0 <=? j) then
             t ← tracks !! Z.to_nat i;
             tj ← tracks !! Z.to_nat j;
             Some (<[Z.to_nat j := t]> (<[Z.to_nat i := tj]> tracks), Datatypes.S calls)
           else None)
        (tr, calls)
      = Some (tr', calls')
      ∧ tr' ≡ₚ tr
      ∧ length tr' = length tr
      ∧ ∀ t : nat, (Z.of_nat t < i ∨ n ≤ Z.of_nat t) → tr' !! t = tr !! t.
Proof.
  intros Hrand Hn. induction k as [|k IH]; intros i tr calls Hi Hk Hlen.
  - exists tr, calls. simpl. done.
  - cbn [for_loop]. cbv zeta.
    assert (Hin : i + Z.of_nat (Datatypes.S k) ≤ n - 1) by (apply Hk; lia).
    unfold INT_MAX in *.
    rewrite isub_id by (unfold INT_MAX; lia).
    destruct (rand_index_range (rand calls) (n - i) (Hrand calls)) as [Hj0 Hj1]; [lia|].
    set (d := rand_index RAND_MAX (rand calls) (n - i)) in *.
    rewrite (wrap_int_id d) by (unfold INT_MAX; lia).
    rewrite iadd_id by (unfold INT_MAX; lia).
    replace ((0 <=? i) && (0 <=? i + d)) with true by (symmetry; apply andb_true_iff; lia).
    destruct (lookup_lt_is_Some_2 tr (Z.to_nat i)) as [t Ht]; [lia|].
    destruct (lookup_lt_is_Some_2 tr (Z.to_nat (i + d))) as [tj Htj]; [lia|].
    rewrite Ht, Htj. cbn [mbind option_bind].
    set (tr1 := <[Z.to_nat (i + d) := t]> (<[Z.to_nat i := tj]> tr)).
    assert (Hperm : tr1 ≡ₚ tr) by (by apply Permutation_insert_swap).
    assert (Hlen1 : length tr1 = length tr) by (unfold tr1; by rewrite !length_insert).
    destruct (IH (i + 1) tr1 (Datatypes.S calls)) as (tr' & calls' & Hrun & Hp & Hl & Hfix);
      [lia|lia|lia|].
    exists tr', calls'. split_and!; [done|by rewrite Hp|congruence|].
    intros u Hu. rewrite Hfix by lia.
    unfold tr1. rewrite !list_lookup_insert_ne by lia. done.
Qed.

(** C9: [shuffle_tracks] returns; the first [n] tracks of the result are a
    permutation of the first [n] tracks it was given, the rest of the array
    is untouched, and with [skip_first] the track at index 0 stays. *)
Theorem shuffle_is_permutation (rand : nat → Z) n (skip_first : bool) (tracks : list track) :
  (∀ c, 0 ≤ rand c ≤ RAND_MAX) →
  0 ≤ n ≤ Z.of_nat (length tracks) → n ≤ INT_MAX →
  ∃ tracks',
    shuffle_tracks RAND_MAX rand n skip_first tracks = Some tracks'
    ∧ take (Z.to_nat n) tracks' ≡ₚ take (Z.to_nat n) tracks
    ∧ drop (Z.to_nat n) tracks' = drop (Z.to_nat n) tracks
    ∧ (skip_first = true → tracks' !! 0%nat = tracks !! 0%nat).
Proof.
  intros Hrand Hn Hmax.
  set (first := if skip_first then 1 else 0).
  assert (Hfirst : 0 ≤ first ≤ 1) by (unfold first; destruct skip_first; lia).
  destruct (shuffle_loop rand n Hrand Hmax (Z.to_nat (isub n 1 - first)) first tracks O)
    as (tr' & calls' & Hrun & Hperm & Hlen & Hfix).
  { lia. }
  { intros Hpos. rewrite isub_id in * by (unfold INT_MAX in *; lia). lia. }
  { lia. }
  exists tr'. unfold shuffle_tracks. cbv zeta in Hrun |- *. fold first. rewrite Hrun. cbn [fmap option_fmap option_map fst].
  assert (Hdrop : drop (Z.to_nat n) tr' = drop (Z.to_nat n) tracks).
  { apply list_eq. intros u. rewrite !lookup_drop. apply Hfix. lia. }
  split_and!; [done| |done|].
  - apply (Permutation_app_inv_r (drop (Z.to_nat n) tracks)).
    rewrite <- Hdrop at 1. by rewrite !take_drop.
  - intros ->. apply Hfix. simpl in first. lia.
Qed.

End ShuffleProof.

Lemma shuffle_is_permutation_witness :
  ∃ tracks',
    shuffle_tracks glibc_RAND_MAX ex_rand 4 true four_tracks = Some tracks'
    ∧ take 4 tracks' ≡ₚ take 4 four_tracks
    ∧ tracks' !! 0%nat = four_tracks !! 0%nat
    ∧ tracks' !! 1%nat = four_tracks !! 2%nat
    ∧ tracks' !! 2%nat = four_tracks !! 1%nat.
Proof.
  destruct (shuffle_is_permutation glibc_RAND_MAX ltac:(by vm_compute) ex_rand 4 true
              four_tracks)
    as (tracks' & Hrun & Hperm & _ & Hfirst).
  - intros c. unfold ex_rand, glibc_RAND_MAX.
    pose proof (Z.mod_pos_bound (1103515245 * Z.of_nat c + 1073741824) 2147483648 eq_refl).
    lia.
  - by vm_compute.
  - by vm_compute.
  - exists tracks'. split_and!; [exact Hrun | exact Hperm | by apply Hfirst | |].
    + vm_compute in Hrun. injection Hrun as <-. reflexivity.
    + vm_compute in Hrun. injection Hrun as <-. reflexivity.
Defined.

(** * More of the callback *)

Section FrameProofs.
Context {F : Type} {ops : SampleOps F}.

Local Abbreviation mem := (gmap nat (list F)).

Lemma only_block_refl bo (m : mem) : only_block bo m m.
Proof. by split. Qed.

Lemma only_block_trans bo (m1 m2 m3 : mem) :
  only_block bo m1 m2 → only_block bo m2 m3 → only_block bo m1 m3.
Proof.
  intros [H1 L1] [H2 L2]. split.
  - intros b Hb. by rewrite H2, H1.
  - by rewrite L2, L1.
Qed.

Lemma write_only_block (m m' : mem) bo o i v :
  write m (Ptr bo o) i v = Some m' → only_block bo m m'.
Proof.
  unfold write. destruct (m !! bo) as [l|] eqn:Hl; simpl; [|done].
  case_bool_decide; [|done]. intros [= <-]. split.
  - intros b Hb. by rewrite lookup_insert_ne.
  - rewrite lookup_insert_eq, Hl. simpl. by rewrite length_insert.
Qed.

(** A loop keeps what each run of its body keeps. *)
Lemma for_loop_preserves {S : Type} (R : S → S → Prop) (body : Z → S → option S) :
  (∀ s, R s s) → (∀ s1 s2 s3, R s1 s2 → R s2 s3 → R s1 s3) →
  (∀ i s s', body i s = Some s' → R s s') →
  ∀ k i s s', for_loop k i body s = Some s' → R s s'.
Proof.
  intros Hrefl Htrans Hbody. induction k as [|k IH]; intros i s s'; simpl.
  - intros [= <-]. apply Hrefl.
  - destruct (body i s) as [s1|] eqn:Hb; simpl; [|done].
    intros Hrun. eapply Htrans; [by eapply Hbody | by eapply IH].
Qed.

Lemma memset0_only_block (m m' : mem) bo o bytes :
  memset0 m (Ptr bo o) bytes = Some m' → only_block bo m m'.
Proof.
  unfold memset0. apply for_loop_preserves.
  - apply only_block_refl.
  - apply only_block_trans.
  - intros i s s'. apply write_only_block.
Qed.

Lemma memcpy_only_block (m m' : mem) bo o src bytes :
  memcpy m (Ptr bo o) src bytes = Some m' → only_block bo m m'.
Proof.
  unfold memcpy. apply for_loop_preserves.
  - apply only_block_refl.
  - apply only_block_trans.
  - intros i s s'. destruct (read s src i); cbn [mbind option_bind]; [|intros [=]]. apply write_only_block.
Qed.

Lemma apply_window_only_block (p : player) (m m' : mem) bo o inp :
  apply_window p m (Ptr bo o) inp = Some m' → only_block bo m m'.
Proof.
  unfold apply_window. apply for_loop_preserves.
  - apply only_block_refl.
  - apply only_block_trans.
  - intros i s s'.
    destruct (read s (p_window p) i); cbn [mbind option_bind]; [|intros [=]].
    destruct (read s (Ptr bo o) i); cbn [mbind option_bind]; [|intros [=]].
    destruct (read s inp i); cbn [mbind option_bind]; [|intros [=]].
    apply write_only_block.
Qed.

(** X1: whatever the state, a callback that returns has changed nothing in
    the heap but the contents of the output block, whose size it keeps, and
    nothing in the player but [pos] and [track]: the loop bounds, the armed
    track, the flags, the format and the window pointer are as before; and
    unless the player is paused, [track] is now [next]. *)
Theorem process_frame (tracks : list track) bo oo n (m m' : mem) (p p' : player) :
  process tracks (Ptr bo oo) n (m, p) = Some (m', p') →
  only_block bo m m'
  ∧ p_next p' = p_next p ∧ p_start p' = p_start p ∧ p_end p' = p_end p
  ∧ p_length p' = p_length p ∧ p_channels p' = p_channels p
  ∧ p_samplerate p' = p_samplerate p ∧ p_running p' = p_running p
  ∧ p_paused p' = p_paused p ∧ p_window p' = p_window p
  ∧ (p_paused p = false → p_track p' = p_next p)
  ∧ (p_paused p = true → p_track p' = p_track p ∧ p_pos p' = p_pos p).
Proof.
  intros Hrun. split.
  - unfold process in Hrun. destruct (p_paused p).
    + destruct (memset0 _ _ _) as [m1|] eqn:H1; simpl in Hrun; [|done].
      injection Hrun as <- <-. by eapply memset0_only_block.
    + destruct (memcpy _ _ _ _) as [m1|] eqn:H1; simpl in Hrun; [|done].
      apply memcpy_only_block in H1.
      assert (Hsw : ∀ m2 p2 (H2 :
                (if bool_decide (p_track p ≠ p_next p)
                 then m0 ← apply_window p m1 (Ptr bo oo)
                          (ptr_add (t_pcm (track_at tracks (p_next p)))
                                   (imul (p_pos p) (p_channels p)));
                      Some (m0, set_track (p_next p) p)
                 else Some (m1, p)) = Some (m2, p2)), only_block bo m m2).
      { intros m2 p2 H2. case_bool_decide.
        - destruct (apply_window p m1 _ _) as [m0|] eqn:H3; simpl in H2; [|done].
          injection H2 as <- <-. apply apply_window_only_block in H3.
          by eapply only_block_trans.
        - by injection H2 as <- <-. }
      match type of Hrun with
      | (?sw ≫= _) = _ => destruct sw as [[m2 p2]|] eqn:H2; simpl in Hrun; [|done]
      end.
      specialize (Hsw m2 p2 eq_refl).
      destruct (_ >? _) in Hrun.
      * destruct (apply_window _ m2 _ _) as [m3|] eqn:H3;
          cbn [mbind option_bind] in Hrun; [|discriminate].
        injection Hrun as <- <-. apply apply_window_only_block in H3.
        by eapply only_block_trans.
      * by injection Hrun as <- <-.
  - apply process_player in Hrun. subst p'.
    destruct (p_paused p) eqn:Hp; [done|]. cbv zeta.
    destruct (bool_decide (p_track p ≠ p_next p)) eqn:Ha.
    + repeat case_match; simpl; done.
    + apply bool_decide_eq_false in Ha.
      assert (p_track p = p_next p) by (destruct (decide (p_track p = p_next p)); [done|contradiction]).
      repeat case_match; simpl; split_and!; done.
Qed.

End FrameProofs.

Lemma process_frame_witness :
  ∃ m' p',
    process ex_tracks (Ptr 3 0) 2 (ex_heap, ex_armed) = Some (m', p')
    ∧ only_block 3 ex_heap m' ∧ p_track p' = 1.
Proof.
  eexists _, _. split; [vm_compute; reflexivity|].
  match goal with
  | |- only_block _ _ ?m' ∧ p_track ?p' = _ =>
      destruct (process_frame ex_tracks 3%nat 0 2 ex_heap m' ex_armed p')
        as (Hf & _ & _ & _ & _ & _ & _ & _ & _ & _ & Ht & _)
  end.
  - vm_compute. reflexivity.
  - split; [exact Hf | by apply Ht].
Defined.

Section Bounds.
Context {F : Type} {ops : SampleOps F}.

Local Abbreviation mem := (gmap nat (list F)).

Lemma read_only_block (m m' : mem) bo q j :
  only_block bo m m' → apart q bo = true → read m' q j = read m q j.
Proof.
  intros [Hother _] Hap. destruct q as [|b o]; [done|].
  simpl in Hap. apply negb_true_iff, Nat.eqb_neq in Hap.
  unfold read. by rewrite Hother.
Qed.

(** A copy that returns has read every sample of its source. *)
Lemma memcpy_reads (m m' : mem) bo o src bytes :
  memcpy m (Ptr bo o) src bytes = Some m' → apart src bo = true →
  ∀ j, 0 ≤ j < bytes ÷ SIZEOF_FLOAT → is_Some (read m src j).
Proof.
  unfold memcpy. intros Hrun Hap j Hj.
  assert (Hgen : ∀ (k : nat) i (m0 : mem),
    for_loop k i (λ i m, x ← read m src i; write m (Ptr bo o) i x) m0 = Some m' →
    ∀ j, i ≤ j < i + Z.of_nat k → is_Some (read m0 src j)).
  { clear Hrun j Hj. intros k.
    induction k as [|k IH]; intros i m0 Hrun j Hj; [lia|].
    cbn [for_loop] in Hrun.
    destruct (read m0 src i) as [x|] eqn:Hx; cbn [mbind option_bind] in Hrun; [|done].
    destruct (write m0 (Ptr bo o) i x) as [m1|] eqn:Hw;
      cbn [mbind option_bind] in Hrun; [|done].
    destruct (decide (j = i)) as [->|Hne]; [by rewrite Hx|].
    apply write_only_block in Hw.
    rewrite <- (read_only_block m0 m1 bo src j Hw Hap).
    apply (IH (i + 1) m1 Hrun). lia. }
  apply (Hgen _ 0 m Hrun). lia.
Qed.

Lemma invalid_range_read (m : mem) q cnt :
  valid_range m q cnt = false → 0 < cnt →
  ∃ j, 0 ≤ j < cnt ∧ read m q j = None.
Proof.
  intros Hv Hcnt. destruct q as [|b o]; [exists 0; split; [lia|done]|].
  simpl in Hv. destruct (m !! b) as [l|] eqn:Hb.
  - destruct (Z.leb_spec 0 o) as [Ho|Ho].
    + exists (cnt - 1). split; [lia|]. apply (read_outside m b o _ l Hb).
      simpl in Hv. apply Z.leb_gt in Hv. lia.
    + exists 0. split; [lia|]. apply (read_outside m b o _ l Hb). lia.
  - exists 0. split; [lia|]. unfold read. by rewrite Hb.
Qed.

Lemma process_copy_fails (tracks : list track) bo oo n (m : mem) (p : player) :
  p_paused p = false →
  0 < p_channels p ≤ INT_MAX → 0 < n → n * p_channels p ≤ INT_MAX →
  let cur := ptr_add (t_pcm (track_at tracks (p_track p)))
                     (imul (p_pos p) (p_channels p)) in
  apart cur bo = true →
  valid_range m cur (n * p_channels p) = false →
  process tracks (Ptr bo oo) n (m, p) = None.
Proof.
  intros Hp Hch Hn Hcnt cur Hap Hv.
  destruct (invalid_range_read m cur _ Hv) as (j & Hj & Hnone); [nia|].
  unfold process. rewrite Hp. fold cur.
  destruct (memcpy m (Ptr bo oo) cur _) as [m1|] eqn:Hcopy; [|done].
  exfalso. apply memcpy_reads with (j := j) in Hcopy; [|done|].
  - rewrite Hnone in Hcopy. by destruct Hcopy.
  - rewrite callback_bytes by lia. done.
Qed.

(** X2: a callback on a player that is not paused has no result when the
    [n * ch] samples of the current track from [pos] are not all inside the
    track's buffer: the copy reads outside it. *)
Theorem process_copy_out_of_bounds (tracks : list track) bo oo n (m : mem) (p : player) :
  p_paused p = false →
  0 < p_channels p ≤ INT_MAX → 0 < n → n * p_channels p ≤ INT_MAX →
  let cur := ptr_add (t_pcm (track_at tracks (p_track p)))
                     (imul (p_pos p) (p_channels p)) in
  apart cur bo = true →
  valid_range m cur (n * p_channels p) = false →
  process tracks (Ptr bo oo) n (m, p) = None.
Proof. apply process_copy_fails. Qed.

End Bounds.

Lemma process_copy_out_of_bounds_witness :
  process ex_tracks (Ptr 3 0) 2 (ex_heap, set_pos 12 ex_player) = None.
Proof.
  apply (process_copy_out_of_bounds ex_tracks 3%nat 0 2 ex_heap (set_pos 12 ex_player));
    [reflexivity | by vm_compute | lia | by vm_compute | reflexivity | reflexivity].
Defined.

Section Overrun.
Context {F : Type} {ops : SampleOps F}.

Local Abbreviation mem := (gmap nat (list F)).

(** The parts of [callback_ok]. *)
Lemma callback_ok_inv (tracks : list track) bo oo n (m : mem) (p : player) :
  callback_ok tracks (Ptr bo oo) n m p = true →
  let ch := p_channels p in
  0 < ch ≤ INT_MAX ∧ 0 ≤ n ∧ n = window_frames p ∧ n * ch ≤ INT_MAX
  ∧ 0 ≤ p_pos p ∧ p_pos p * ch ≤ INT_MAX ∧ p_pos p + n ≤ INT_MAX
  ∧ 0 ≤ p_start p ∧ p_start p * ch ≤ INT_MAX ∧ p_start p + n ≤ INT_MAX
  ∧ apart (p_window p) bo = true
  ∧ apart (ptr_add (t_pcm (track_at tracks (p_track p))) (p_pos p * ch)) bo = true
  ∧ apart (ptr_add (t_pcm (track_at tracks (p_next p))) (p_pos p * ch)) bo = true
  ∧ valid_range m (ptr_add (t_pcm (track_at tracks (p_track p))) (p_pos p * ch)) (n * ch)
    = true.
Proof.
  intros Hok ch. unfold callback_ok in Hok. fold ch in Hok.
  apply andb_true_iff in Hok as [Hok Vrst].
  apply andb_true_iff in Hok as [Hok Vnxt].
  apply andb_true_iff in Hok as [Hok Vcur].
  apply andb_true_iff in Hok as [Hok Vwin].
  apply andb_true_iff in Hok as [Hok Hap].
  apply andb_true_iff in Hok as [Hok Vout].
  apply andb_true_iff in Hap as [Hap Arst].
  apply andb_true_iff in Hap as [Hap Anxt].
  apply andb_true_iff in Hap as [Awin Acur].
  repeat (apply andb_true_iff in Hok; destruct Hok as [Hok ?]).
  split_and!; try done; lia.
Qed.

(** X3: the key [s] pressed less than [n] frames before the end of the
    track ([end < pos + n] and [length < pos + n]) sets [start = pos]; the
    next callback wraps to [pos = start + n], beyond the track, and the
    callback after that reads outside the buffer of the current track, which
    holds [length + n] frames. *)
Theorem set_start_near_end_overruns (tracks : list track) nf step bo oo n
    (m : mem) (p : player) lo b l :
  p_running p = true → p_paused p = false →
  m !! bo = Some lo →
  callback_ok tracks (Ptr bo oo) n m (handle_key nf step "s" p) = true →
  t_pcm (track_at tracks (p_next p)) = Ptr b 0 →
  m !! b = Some l →
  Z.of_nat (length l) = (p_length p + n) * p_channels p →
  0 < n → p_end p < p_pos p + n → p_length p < p_pos p + n →
  (p_pos p + n) * p_channels p ≤ INT_MAX →
  let cb := Callback (Ptr bo oo) n in
  is_Some (run tracks nf step [Key "s"; cb] (m, p))
  ∧ run tracks nf step [Key "s"; cb; cb] (m, p) = None.
Proof.
  intros Hrun Hp Hlo Hok Hpcm Hb Hlen Hn Hend Hpast Hmax cb. subst cb.
  set (p1 := handle_key nf step "s" p) in *.
  assert (Hp1 : p1 = set_start (p_pos p) p) by reflexivity.
  destruct (callback_ok_inv _ _ _ _ _ _ Hok)
    as (Hch & _ & _ & Hcnt & Hpos0 & _ & _ & _ & _ & _ & _ & _ & Anxt & _).
  rewrite Hp1 in Hpos0, Hch, Hcnt. cbn [p_pos p_channels set_start] in Hpos0, Hch, Hcnt.
  destruct (process_unpaused tracks bo oo n m p1 lo) as (lo1 & Hcb & _);
    [by rewrite Hp1|done|done|].
  rewrite Hp1 in Hcb. cbn [p_pos p_end p_start p_next set_start] in Hcb.
  destruct (Z.gtb_spec (p_pos p + n) (p_end p)) as [_|?]; [|lia].
  assert (Hfirst : run tracks nf step [Key "s"; Callback (Ptr bo oo) n] (m, p)
                   = Some (<[bo := lo1]> m,
                           set_pos (p_pos p + n)
                                   (set_track (p_next p) (set_start (p_pos p) p)))).
  { cbn [run step_event snd fst]. rewrite Hrun. cbn [mbind option_bind].
    fold p1. rewrite Hp1, Hcb. done. }
  split; [by rewrite Hfirst|].
  change [Key "s"; Callback (Ptr bo oo) n; Callback (Ptr bo oo) n]
    with ([Key "s"; Callback (Ptr bo oo) n] ++ [Callback (Ptr bo oo) n]).
  rewrite run_app, Hfirst. cbn [mbind option_bind run step_event].
  rewrite (process_copy_fails tracks bo oo n); [done| | | | | |].
  - done.
  - done.
  - done.
  - done.
  - rewrite Hp1 in Anxt. cbn [p_next p_pos p_channels set_start] in Anxt.
    cbn [p_track p_pos p_channels set_pos set_track set_start].
    rewrite Hpcm in *. done.
  - cbn [p_track p_pos p_channels set_pos set_track set_start].
    rewrite Hpcm. unfold imul. rewrite wrap_int_id by (unfold INT_MAX in *; nia).
    cbn [ptr_add valid_range].
    rewrite Hp1 in Anxt. cbn [p_next p_pos p_channels set_start] in Anxt.
    rewrite Hpcm in Anxt. simpl in Anxt.
    apply negb_true_iff, Nat.eqb_neq in Anxt.
    rewrite lookup_insert_ne by done. rewrite Hb.
    apply andb_false_iff. right. apply Z.leb_gt. nia.
Qed.

End Overrun.

Lemma set_start_near_end_overruns_witness :
  is_Some (run ex_tracks 2 5 [Key "s"; Callback (Ptr 3 0) 2] (ex_heap, set_pos 10 ex_player))
  ∧ run ex_tracks 2 5 [Key "s"; Callback (Ptr 3 0) 2; Callback (Ptr 3 0) 2]
        (ex_heap, set_pos 10 ex_player) = None.
Proof.
  apply (set_start_near_end_overruns ex_tracks 2 5 3%nat 0 2 ex_heap (set_pos 10 ex_player)
           [f32_zero; f32_zero] 1%nat (replicate 10 f32_one ++ [f32_zero; f32_zero]));
    [reflexivity | reflexivity | reflexivity | by vm_compute | reflexivity | reflexivity
    | reflexivity | lia | by vm_compute | by vm_compute | by vm_compute].
Defined.

Section Playback.
Context {F : Type} {ops : SampleOps F}.

Local Abbreviation mem := (gmap nat (list F)).

Lemma set_pos_set_pos a b (p : player) : set_pos a (set_pos b p) = set_pos a p.
Proof. reflexivity. Qed.

(** [k + 1] callbacks with no switch armed and no wrap, from any contents
    [lc] of the output block. *)
Lemma playback_run (tracks : list track) nf step bo oo n (m : mem) lo :
  m !! bo = Some lo →
  ∀ (k : nat) (p : player) (lc : list F),
    length lc = length lo →
    p_paused p = false → p_track p = p_next p →
    (∀ j : nat, (j ≤ k)%nat →
       callback_ok tracks (Ptr bo oo) n m (set_pos (p_pos p + Z.of_nat j * n) p) = true) →
    p_pos p + (Z.of_nat k + 1) * n ≤ p_end p →
    ∃ lo',
      run tracks nf step (replicate (S k) (Callback (Ptr bo oo) n)) (<[bo := lc]> m, p)
      = Some (<[bo := lo']> m, set_pos (p_pos p + (Z.of_nat k + 1) * n) p)
      ∧ length lo' = length lo
      ∧ (∀ i, 0 ≤ i < n * p_channels p →
           lo' !! Z.to_nat (oo + i)
           = read m (ptr_add (t_pcm (track_at tracks (p_track p)))
                             ((p_pos p + Z.of_nat k * n) * p_channels p)) i)
      ∧ (∀ t : nat, ¬ (oo ≤ Z.of_nat t < oo + n * p_channels p) → lo' !! t = lc !! t).
Proof.
  intros Hlo. induction k as [|k IH]; intros p lc Hlc Hp Hsame Hok Hend.
  - specialize (Hok 0%nat ltac:(lia)).
    replace (p_pos p + Z.of_nat 0 * n) with (p_pos p) in Hok by lia.
    assert (Hpp : set_pos (p_pos p) p = p) by (by destruct p).
    rewrite Hpp in Hok.
    pose proof (callback_ok_insert _ _ _ _ _ _ _ lc Hok Hlo Hlc) as Hok'.
    destruct (callback_ok_inv _ _ _ _ _ _ Hok)
      as (_ & _ & _ & _ & _ & _ & _ & _ & _ & _ & _ & Acur & _).
    destruct (process_unpaused tracks bo oo n (<[bo := lc]> m) p lc Hp Hok')
      as (l1 & Hrun & Hlen1 & Hout1 & Hin1); [apply lookup_insert_eq|].
    rewrite insert_insert_eq in Hrun.
    destruct (Z.gtb_spec (p_pos p + n) (p_end p)) as [?|_]; [lia|].
    rewrite set_track_same in Hrun by done.
    exists l1. cbn [replicate run step_event]. rewrite Hrun. cbn [mbind option_bind].
    split_and!.
    + do 3 f_equal. lia.
    + congruence.
    + intros i Hi. destruct (Hin1 i Hi) as (w & c & x & _ & Hc & _ & Hv).
      cbv zeta in Hv. rewrite bool_decide_eq_false_2 in Hv by (intros ?; done).
      rewrite read_insert_apart in Hc by done.
      replace ((p_pos p + Z.of_nat 0 * n) * p_channels p) with (p_pos p * p_channels p)
        by lia.
      by rewrite Hv, Hc.
    + done.
  - pose proof (Hok 0%nat ltac:(lia)) as Hok0.
    replace (p_pos p + Z.of_nat 0 * n) with (p_pos p) in Hok0 by lia.
    assert (Hpp : set_pos (p_pos p) p = p) by (by destruct p).
    rewrite Hpp in Hok0.
    pose proof (callback_ok_insert _ _ _ _ _ _ _ lc Hok0 Hlo Hlc) as Hok'.
    destruct (callback_ok_inv _ _ _ _ _ _ Hok0) as (_ & Hn & _).
    destruct (process_unpaused tracks bo oo n (<[bo := lc]> m) p lc Hp Hok')
      as (l1 & Hrun & Hlen1 & Hout1 & _); [apply lookup_insert_eq|].
    rewrite insert_insert_eq in Hrun.
    destruct (Z.gtb_spec (p_pos p + n) (p_end p)) as [?|_]; [nia|].
    rewrite set_track_same in Hrun by done.
    destruct (IH (set_pos (p_pos p + n) p) l1) as (lo' & Hrest & Hlen' & Hin' & Hout').
    + congruence.
    + done.
    + done.
    + intros j Hj. rewrite set_pos_set_pos. cbn [p_pos set_pos].
      specialize (Hok (S j) ltac:(lia)).
      replace (p_pos p + n + Z.of_nat j * n) with (p_pos p + Z.of_nat (S j) * n) by lia.
      done.
    + cbn [p_pos p_end set_pos]. lia.
    + exists lo'. change (replicate (S (S k)) ?x) with (x :: replicate (S k) x).
      cbn [run step_event]. rewrite Hrun. cbn [mbind option_bind].
      rewrite Hrest. rewrite set_pos_set_pos. cbn [p_pos set_pos].
      split_and!.
      * do 3 f_equal. lia.
      * done.
      * intros i Hi. cbn [p_pos p_channels p_track set_pos] in Hin'.
        rewrite Hin' by done. do 2 f_equal. lia.
      * intros t Ht. cbn [p_channels set_pos] in Hout'. rewrite Hout' by done.
        by apply Hout1.
Qed.

(** X4: with no switch armed and the loop end at least [k * n] frames
    ahead, [k ≥ 1] callbacks in a row advance [pos] by [k * n] and leave in
    the output buffer the [n] frames of the current track that start at
    [pos + (k - 1) * n], unblended. *)
Theorem playback_advances (tracks : list track) nf step bo oo n (m : mem)
    (p : player) lo (k : nat) :
  m !! bo = Some lo →
  p_paused p = false → p_track p = p_next p →
  (0 < k)%nat →
  (∀ j : nat, (j < k)%nat →
     callback_ok tracks (Ptr bo oo) n m (set_pos (p_pos p + Z.of_nat j * n) p) = true) →
  p_pos p + Z.of_nat k * n ≤ p_end p →
  ∃ lo',
    run tracks nf step (replicate k (Callback (Ptr bo oo) n)) (m, p)
    = Some (<[bo := lo']> m, set_pos (p_pos p + Z.of_nat k * n) p)
    ∧ length lo' = length lo
    ∧ (∀ i, 0 ≤ i < n * p_channels p →
         lo' !! Z.to_nat (oo + i)
         = read m (ptr_add (t_pcm (track_at tracks (p_track p)))
                           ((p_pos p + (Z.of_nat k - 1) * n) * p_channels p)) i)
    ∧ (∀ t : nat, ¬ (oo ≤ Z.of_nat t < oo + n * p_channels p) → lo' !! t = lo !! t).
Proof.
  intros Hlo Hp Hsame Hk Hok Hend.
  destruct k as [|k]; [lia|].
  destruct (playback_run tracks nf step bo oo n m lo Hlo k p lo)
    as (lo' & Hrun & Hlen & Hin & Hout); [done|done|done| | |].
  - intros j Hj. apply Hok. lia.
  - lia.
  - rewrite (insert_id m bo lo Hlo) in Hrun.
    exists lo'. split_and!; [|done| |done].
    + rewrite Hrun. do 3 f_equal. lia.
    + intros i Hi. rewrite Hin by done. do 2 f_equal. lia.
Qed.

End Playback.

Lemma playback_advances_witness :
  ∃ lo',
    run ex_tracks 2 5 (replicate 5 (Callback (Ptr 3 0) 2)) (ex_heap, ex_player)
    = Some (<[3%nat := lo']> ex_heap, set_pos (p_pos ex_player + Z.of_nat 5 * 2) ex_player)
    ∧ lo' !! 1%nat = Some f32_one.
Proof.
  destruct (playback_advances ex_tracks 2 5 3%nat 0 2 ex_heap ex_player
              [f32_zero; f32_zero] 5)
    as (lo' & Hrun & _ & Hin & _);
    [reflexivity | reflexivity | reflexivity | lia | | by vm_compute |].
  - intros j Hj.
    destruct j as [|[|[|[|[|j]]]]]; [by vm_compute..|lia].
  - exists lo'. split; [exact Hrun|]. apply (Hin 1). by vm_compute.
Defined.

(** * More of the control loop *)

Lemma handle_key_selects nf step c p :
  0 ≤ p_next p < nf →
  p_track (handle_key nf step c p) = p_track p
  ∧ 0 ≤ p_next (handle_key nf step c p) < nf.
Proof.
  intros Hnext. unfold handle_key.
  repeat case_match; simpl; try done.
  all: change (chr "0") with 48 in *; change (chr "9") with 57 in *; lia.
Qed.

Lemma handle_key_pos nf step c p : p_pos (handle_key nf step c p) = p_pos p.
Proof. unfold handle_key. repeat case_match; done. Qed.

Section ControlInvariants.
Context {F : Type} {ops : SampleOps F}.

Local Abbreviation mem := (gmap nat (list F)).

(** X5: the current and the armed track are always loaded tracks: when they
    index the [num_files] loaded tracks at first, they do so in every state
    that any sequence of callbacks, keys and signals reaches. *)
Theorem selected_tracks_loaded (tracks : list track) nf step (s0 s : mem * player) :
  0 ≤ p_track (snd s0) < nf → 0 ≤ p_next (snd s0) < nf →
  reach tracks nf step (λ _ _, true) s0 s →
  0 ≤ p_track (snd s) < nf ∧ 0 ≤ p_next (snd s) < nf.
Proof.
  intros Ht Hn Hreach.
  induction Hreach as [|e [m1 p1] [m2 p2] _ [IHt IHn] _ Hev]; [done|].
  simpl in *. destruct e as [out n|c|]; simpl in Hev.
  - apply process_player in Hev. subst p2.
    destruct (p_paused p1); [done|]. cbv zeta.
    destruct (bool_decide (p_track p1 ≠ p_next p1)); repeat case_match; simpl; done.
  - destruct (p_running p1); [|done]. injection Hev as <- <-.
    destruct (handle_key_selects nf step c p1 IHn) as [-> ?]. done.
  - injection Hev as <- <-. done.
Qed.

Lemma without_set_keys_step (tracks : list track) nf step n e (s s' : mem * player) :
  0 ≤ n → 0 ≤ step →
  p_length (snd s) + step ≤ INT_MAX → p_length (snd s) + 2 * n ≤ INT_MAX →
  without_set_keys n e (snd s) = true →
  step_event tracks nf step e s = Some s' →
  bounds_ordered (snd s) = true ∧ 0 ≤ p_pos (snd s) ≤ p_length (snd s) + n →
  (bounds_ordered (snd s') = true ∧ 0 ≤ p_pos (snd s') ≤ p_length (snd s') + n)
  ∧ p_length (snd s') = p_length (snd s).
Proof.
  intros Hn Hstep Hmax Hmax2 Hok Hev [Hord Hpos].
  destruct s as [m p], s' as [m' p']. simpl in *.
  destruct e as [out n'|c|]; simpl in Hev, Hok.
  - apply Z.eqb_eq in Hok. subst n'.
    apply process_player in Hev. subst p'.
    destruct (p_paused p); [done|]. cbv zeta.
    apply bounds_ordered_spec in Hord.
    assert (Hgen : ∀ q : player,
      p_start q = p_start p → p_end q = p_end p → p_length q = p_length p →
      p_pos q = p_pos p →
      let q1 := set_pos (wrap_int (wrap_size (wrap_size (p_pos q) + n))) q in
      let q2 := if p_pos q1 >? p_end q1
                then set_pos (wrap_int (wrap_size (wrap_size (p_start q1) + n))) q1
                else q1 in
      (bounds_ordered q2 = true ∧ 0 ≤ p_pos q2 ≤ p_length q2 + n)
      ∧ p_length q2 = p_length p).
    { intros q Hs He Hl Hp q1 q2. subst q1 q2. cbn [p_pos p_end p_start set_pos].
      rewrite Hs, He, Hp.
      unfold INT_MAX in *.
      rewrite (advance_id (p_pos p) n) by (unfold INT_MAX; lia).
      rewrite (advance_id (p_start p) n) by (unfold INT_MAX; lia).
      destruct (Z.gtb_spec (p_pos p + n) (p_end p)); simpl;
        rewrite bounds_ordered_spec; simpl; rewrite ?Hs, ?He, ?Hl; lia. }
    destruct (bool_decide (p_track p ≠ p_next p)).
    + by apply (Hgen (set_track (p_next p) p)).
    + by apply (Hgen p).
  - destruct (p_running p); [|done]. injection Hev as <- <-.
    apply andb_true_iff in Hok as [Hs Hd].
    apply negb_true_iff, Z.eqb_neq in Hs, Hd.
    rewrite handle_key_pos, handle_key_length.
    split_and!; [|lia|lia|done].
    by apply clamped_keys_keep_order.
  - injection Hev as <- <-. done.
Qed.

(** X6: in a session in which [s] and [d] are never pressed, whatever else
    is pressed and however the callbacks of [n] frames fall, the loop bounds
    stay ordered, [0 ≤ start ≤ end ≤ length], and [pos] stays within
    [0 .. length + n]. *)
Theorem bounds_ordered_without_set_keys (tracks : list track) nf step n
    (m : mem) (p0 : player) (s : mem * player) :
  0 ≤ n → 0 ≤ step → 0 ≤ p_length p0 →
  p_length p0 + step ≤ INT_MAX → p_length p0 + 2 * n ≤ INT_MAX →
  p_pos p0 = 0 → p_start p0 = 0 →
  reach tracks nf step (without_set_keys n) (m, fst (start_stream p0)) s →
  bounds_ordered (snd s) = true ∧ 0 ≤ p_pos (snd s) ≤ p_length p0 + n.
Proof.
  intros Hn Hstep Hlen Hmax Hmax2 Hpos Hstart Hreach.
  assert (Hinv : (bounds_ordered (snd s) = true
                  ∧ 0 ≤ p_pos (snd s) ≤ p_length (snd s) + n)
                 ∧ p_length (snd s) = p_length p0).
  { induction Hreach as [|e s1 s2 _ [IH IHlen] Hok Hev].
    - simpl. rewrite bounds_ordered_spec. simpl. lia.
    - destruct (without_set_keys_step tracks nf step n e s1 s2) as [H1 H2];
        try done; try lia.
      split; [done|congruence]. }
  destruct Hinv as [[Hord Hp] Hl]. rewrite Hl in Hp. done.
Qed.

End ControlInvariants.

Lemma selected_tracks_loaded_witness :
  ∃ s, run ex_tracks 2 5 [Key "2"; Callback ex_out 2; Key "7"] (ex_heap, ex_player) = Some s
       ∧ 0 ≤ p_track (snd s) < 2 ∧ 0 ≤ p_next (snd s) < 2.
Proof.
  eexists. split; [vm_compute; reflexivity|].
  apply (selected_tracks_loaded ex_tracks 2 5 (ex_heap, ex_player));
    [by vm_compute | by vm_compute |].
  eapply reach_event with (e := Key "7");
    [eapply reach_event with (e := Callback ex_out 2);
       [eapply reach_event with (e := Key "2");
          [apply reach_here | reflexivity | vm_compute; reflexivity]
       | reflexivity | vm_compute; reflexivity]
    | reflexivity | vm_compute; reflexivity].
Defined.

Lemma bounds_ordered_without_set_keys_witness :
  ∃ s, run ex_tracks 2 5 [Key "o"; Callback ex_out 2; Key "k"; Key "k"]
           (ex_heap, ex_player) = Some s
       ∧ bounds_ordered (snd s) = true ∧ 0 ≤ p_pos (snd s) ≤ p_length ex_loaded + 2.
Proof.
  eexists. split; [vm_compute; reflexivity|].
  apply (bounds_ordered_without_set_keys ex_tracks 2 5 2 ex_heap ex_loaded);
    [lia | lia | by vm_compute | by vm_compute | by vm_compute | reflexivity | reflexivity |].
  eapply reach_event with (e := Key "k");
    [eapply reach_event with (e := Key "k");
       [eapply reach_event with (e := Callback ex_out 2);
          [eapply reach_event with (e := Key "o");
             [apply reach_here | reflexivity | vm_compute; reflexivity]
          | reflexivity | vm_compute; reflexivity]
       | reflexivity | vm_compute; reflexivity]
    | reflexivity | vm_compute; reflexivity].
Defined.

(** * Loading *)

Lemma load_track_spec (d : decoded) :
  0 < d_channels d ≤ INT_MAX → d_samplerate d ≠ 0 → d_duration d ≤ MAX_LENGTH →
  0 ≤ d_size d ≤ INT_MAX →
  ∃ t,
    load_track d = Some t
    ∧ t_pcm t = d_buf d ∧ t_channels t = d_channels d
    ∧ t_samplerate t = d_samplerate d
    ∧ 0 ≤ t_length t
    ∧ t_length t * d_channels d * SIZEOF_FLOAT ≤ d_size d
    ∧ d_size d < (t_length t + 1) * d_channels d * SIZEOF_FLOAT.
Proof.
  intros Hch Hsr Hdur Hsize. unfold load_track, SIZEOF_FLOAT, INT_MAX, MAX_LENGTH in *.
  replace (d_channels d =? 0) with false by (symmetry; apply Z.eqb_neq; lia).
  replace (d_samplerate d =? 0) with false by (symmetry; apply Z.eqb_neq; lia).
  replace (d_duration d >? 600) with false by (symmetry; rewrite Z.gtb_ltb; apply Z.ltb_ge; lia).
  cbn [orb].
  eexists. split; [reflexivity|]. cbn [t_pcm t_channels t_samplerate t_length].
  rewrite (wrap_size_id (d_size d)) by lia.
  rewrite (wrap_size_id (d_channels d)) by lia.
  set (q := d_size d / 4 / d_channels d).
  assert (Hq : 0 ≤ q ≤ d_size d).
  { unfold q. split.
    - apply Z.div_pos; [apply Z.div_pos; lia|lia].
    - transitivity (d_size d / 4).
      + apply Z.div_le_upper_bound; [lia|].
        assert (0 ≤ d_size d / 4) by (apply Z.div_pos; lia). nia.
      + apply Z.div_le_upper_bound; lia. }
  rewrite wrap_int_id by (unfold INT_MAX; lia).
  split_and!; [done|done|done|lia|..].
  - unfold q. pose proof (Z.mul_div_le (d_size d / 4) (d_channels d) ltac:(lia)).
    pose proof (Z.mul_div_le (d_size d) 4 eq_refl). lia.
  - unfold q.
    pose proof (Z.mul_succ_div_gt (d_size d / 4) (d_channels d) ltac:(lia)).
    pose proof (Z.mul_succ_div_gt (d_size d) 4 eq_refl). lia.
Qed.

(** X7: [load_track] counts whole frames only: for a positive channel count
    and a buffer of [size] bytes it returns a track of
    [size / 4 / channels] frames, which lie inside the buffer, and less than
    one frame of the buffer is left over. *)
Theorem load_track_whole_frames (d : decoded) :
  0 < d_channels d ≤ INT_MAX → d_samplerate d ≠ 0 → d_duration d ≤ MAX_LENGTH →
  0 ≤ d_size d ≤ INT_MAX →
  ∃ t,
    load_track d = Some t
    ∧ t_pcm t = d_buf d ∧ t_channels t = d_channels d
    ∧ t_samplerate t = d_samplerate d
    ∧ 0 ≤ t_length t
    ∧ t_length t * d_channels d * SIZEOF_FLOAT ≤ d_size d
    ∧ d_size d < (t_length t + 1) * d_channels d * SIZEOF_FLOAT.
Proof. apply load_track_spec. Qed.

(** A loop whose body keeps an invariant returns, with the invariant. *)
Lemma for_loop_invariant {St : Type} (Inv : Z → St → Prop) (body : Z → St → option St) :
  ∀ (k : nat) (i : Z) (s : St),
    Inv i s →
    (∀ j s1, i ≤ j < i + Z.of_nat k → Inv j s1 → ∃ s2, body j s1 = Some s2 ∧ Inv (j + 1) s2) →
    ∃ s', for_loop k i body s = Some s' ∧ Inv (i + Z.of_nat k) s'.
Proof.
  induction k as [|k IH]; intros i s Hinv Hstep.
  - exists s. simpl. replace (i + Z.of_nat 0) with i by lia. done.
  - destruct (Hstep i s) as (s1 & Hb & Hinv1); [lia|done|].
    destruct (IH (i + 1) s1 Hinv1) as (s' & Hrun & Hinv').
    { intros j s2 Hj. apply Hstep. lia. }
    exists s'. cbn [for_loop]. rewrite Hb. cbn [mbind option_bind].
    split; [done|]. replace (i + Z.of_nat (S k)) with (i + 1 + Z.of_nat k) by lia. done.
Qed.

Lemma load_track_Some (d : decoded) (t : track) :
  load_track d = Some t →
  t_pcm t = d_buf d ∧ t_name t = d_name d ∧ t_channels t = d_channels d
  ∧ t_samplerate t = d_samplerate d
  ∧ d_samplerate d ≠ 0 ∧ d_duration d ≤ MAX_LENGTH.
Proof.
  unfold load_track.
  destruct (Z.eqb_spec (d_channels d) 0); [done|].
  destruct (Z.eqb_spec (d_samplerate d) 0); [done|]. cbn [orb].
  destruct (Z.gtb_spec (d_duration d) MAX_LENGTH); [done|].
  intros [= <-]. simpl. split_and!; done || lia.
Qed.

Section LoadProofs.
Context {F : Type} {ops : SampleOps F}.

Local Abbreviation mem := (gmap nat (list F)).

Lemma loadable_inv (device_rate : Z) (files : list decoded) (m : mem) :
  loadable device_rate files m = true →
  ∃ d0 rest t0,
    files = d0 :: rest ∧ load_track d0 = Some t0
    ∧ 0 ≤ idiv (imul LATENCY
                  (if bool_decide (device_rate ≠ 0) then device_rate else t_samplerate t0))
               1000
    ∧ NoDup ((λ d, block_of (d_buf d)) <$> files)
    ∧ ∀ d, d ∈ files →
        ∃ t b o l,
          load_track d = Some t ∧ d_buf d = Ptr b o
          ∧ t_channels t = t_channels t0 ∧ t_samplerate t = t_samplerate t0
          ∧ 0 < d_channels d ≤ INT_MAX ∧ 0 ≤ d_size d ≤ INT_MAX
          ∧ m !! b = Some l
          ∧ (Z.max (t_length t) (t_length t0)
             + idiv (imul LATENCY
                       (if bool_decide (device_rate ≠ 0) then device_rate
                        else t_samplerate t0)) 1000)
            * t_channels t * SIZEOF_FLOAT ≤ INT_MAX.
Proof.
  unfold loadable. destruct files as [|d0 rest]; [done|].
  destruct (load_track d0) as [t0|] eqn:Ht0; [|done].
  cbv zeta. intros H.
  apply andb_true_iff in H as [H Hall].
  apply andb_true_iff in H as [HW Hnd].
  exists d0, rest, t0. split_and!; [done|done|lia|by apply bool_decide_eq_true in Hnd|].
  intros d Hd. rewrite forallb_forall in Hall.
  specialize (Hall d ltac:(by apply list_elem_of_In)).
  destruct (load_track d) as [t|]; [|done].
  destruct (d_buf d) as [|b o]; [done|].
  repeat (apply andb_true_iff in Hall; destruct Hall as [Hall ?]).
  rename select (bool_decide (is_Some _) = true) into Hb.
  apply bool_decide_eq_true in Hb as [l Hl].
  exists t, b, o, l. split_and!; try done; lia.
Qed.

(** X8: when [loadable], [load_tracks] returns; the player gets the length
    and the channel count of the first file and the device rate (or, without
    one, the first file's rate); and every file's track points to its own
    buffer, grown to [max (its frames) (the player's length) + window]
    frames, the frames after its own being zero. *)
Theorem load_tracks_pads_every_track (device_rate : Z) (files : list decoded)
    (m : mem) (p : player) (tracks0 : list track) :
  loadable device_rate files m = true →
  (length files ≤ length tracks0)%nat →
  ∃ m' p' tracks' t0,
    load_tracks device_rate files (m, p, tracks0) = Some (m', p', tracks')
    ∧ head files ≫= load_track = Some t0
    ∧ p' = set_samplerate
             (if bool_decide (device_rate ≠ 0) then device_rate else t_samplerate t0)
             (set_channels (t_channels t0) (set_length (t_length t0) p))
    ∧ length tracks' = length tracks0
    ∧ ∀ (i : nat) d, files !! i = Some d →
        ∃ t b o l',
          load_track d = Some t ∧ d_buf d = Ptr b o
          ∧ tracks' !! i
            = Some (mk_track (Ptr b 0) (t_name t) (t_channels t) (t_samplerate t)
                             (t_length t))
          ∧ t_channels t = p_channels p'
          ∧ m' !! b = Some l'
          ∧ Z.of_nat (length l')
            = (Z.max (t_length t) (p_length p') + window_frames p') * p_channels p'
          ∧ ∀ j, t_length t * p_channels p' ≤ j < Z.of_nat (length l') →
                 l' !! Z.to_nat j = Some fzero.
Proof.
  intros Hload Hlen.
  destruct (loadable_inv _ _ _ Hload) as (d0 & rest & t0 & Hfiles & Ht0 & HW & Hnd & Hall).
  set (sr := if bool_decide (device_rate ≠ 0) then device_rate else t_samplerate t0) in *.
  set (W := idiv (imul LATENCY sr) 1000) in *.
  set (p' := set_samplerate sr (set_channels (t_channels t0) (set_length (t_length t0) p))).
  set (padded := λ (t : track) (b : nat),
         mk_track (Ptr b 0) (t_name t) (t_channels t) (t_samplerate t) (t_length t)).
  set (Inv := λ (j : Z) (s : mem * player * list track),
    let '(mj, pj, trj) := s in
    length trj = length tracks0
    ∧ pj = (if j =? 0 then p else p')
    ∧ (∀ (i : nat) d, Z.of_nat i < j → files !! i = Some d →
         ∃ t b o l',
           load_track d = Some t ∧ d_buf d = Ptr b o
           ∧ trj !! i = Some (padded t b)
           ∧ mj !! b = Some l'
           ∧ Z.of_nat (length l')
             = (Z.max (t_length t) (t_length t0) + W) * t_channels t0
           ∧ ∀ k, t_length t * t_channels t0 ≤ k < Z.of_nat (length l') →
                  l' !! Z.to_nat k = Some fzero)
    ∧ (∀ (i : nat) d, j ≤ Z.of_nat i → files !! i = Some d →
         mj !! block_of (d_buf d) = m !! block_of (d_buf d))).
  assert (Hnonempty : (0 < length tracks0)%nat) by (rewrite Hfiles in Hlen; simpl in Hlen; lia).
  assert (Hd0 : files !! 0%nat = Some d0) by by rewrite Hfiles.
  destruct (for_loop_invariant Inv
              (λ i '(m, p, tracks),
                 d ← files !! Z.to_nat i;
                 t ← load_track d;
                 let tracks := <[Z.to_nat i := t]> tracks in
                 let t0 := track_at tracks 0 in
                 if bool_decide (t_channels t ≠ t_channels t0) then None
                 else if bool_decide (t_samplerate t ≠ t_samplerate t0) then None
                 else
                   let p :=
                     if i =? 0 then
                       set_samplerate
                         (if bool_decide (device_rate ≠ 0) then device_rate
                          else t_samplerate t)
                         (set_channels (t_channels t) (set_length (t_length t) p))
                     else p in
                   '(m', t') ← pad_track m p t;
                   Some (m', p, <[Z.to_nat i := t']> tracks))
              (length files) 0 (m, p, tracks0))
    as ([[m' pf] tracks'] & Hrun & Hfin).
  { (* the invariant holds at first *)
    unfold Inv. split_and!; [done|done|intros; lia|done]. }
  { (* one iteration *)
    intros j [[mj pj] trj] Hj (Htr & Hpj & Hdone & Htodo).
    destruct (lookup_lt_is_Some_2 files (Z.to_nat j)) as [d Hd]; [lia|].
    destruct (Hall d (list_elem_of_lookup_2 _ _ _ Hd))
      as (t & b & o & l & Ht & Hbuf & Hch & Hsr & Hdch & Hsize & Hb & Hmax).
    destruct (load_track_Some d t Ht) as (Hpcm & _ & Hdc & _ & Hsr0 & Hdur).
    destruct (load_track_spec d Hdch Hsr0 Hdur Hsize) as (t' & Ht' & _ & _ & _ & Hlen0 & _).
    rewrite Ht in Ht'. injection Ht' as <-.
    destruct (Hall d0 (list_elem_of_lookup_2 _ _ _ Hd0))
      as (t0' & _ & _ & _ & Ht0' & _ & _ & _ & Hd0ch & Hd0size & _ & _).
    rewrite Ht0 in Ht0'. injection Ht0' as <-.
    destruct (load_track_Some d0 t0 Ht0) as (_ & _ & Hdc0 & _ & Hsr00 & Hdur0).
    destruct (load_track_spec d0 Hd0ch Hsr00 Hdur0 Hd0size) as (t0' & Ht0' & _ & _ & _ & HL0 & _).
    rewrite Ht0 in Ht0'. injection Ht0' as <-.
    rewrite Hd. cbn [mbind option_bind]. rewrite Ht. cbn [mbind option_bind]. cbv zeta.
    (* the first track of the array after [tracks[i] = t] *)
    assert (Hfirst : t_channels (track_at (<[Z.to_nat j := t]> trj) 0) = t_channels t0
                     ∧ t_samplerate (track_at (<[Z.to_nat j := t]> trj) 0) = t_samplerate t0).
    { unfold track_at. cbn [Z.leb Z.compare]. change (Z.to_nat 0) with 0%nat.
      destruct (decide (j = 0)) as [->|Hj0].
      - change (Z.to_nat 0) with 0%nat in Hd.
        rewrite list_lookup_insert_eq by lia. simpl.
        rewrite Hd0 in Hd. injection Hd as <-. rewrite Ht0 in Ht. by injection Ht as <-.
      - rewrite list_lookup_insert_ne by lia.
        destruct (Hdone 0%nat d0) as (t1 & b1 & o1 & l1 & Ht1 & _ & Htr1 & _); [lia|done|].
        rewrite Ht0 in Ht1. injection Ht1 as <-. rewrite Htr1. done. }
    destruct Hfirst as [Hf1 Hf2].
    rewrite bool_decide_eq_false_2 by (rewrite Hf1; intros ?; done).
    rewrite bool_decide_eq_false_2 by (rewrite Hf2; intros ?; done).
    set (pj' := if j =? 0
                then set_samplerate
                       (if bool_decide (device_rate ≠ 0) then device_rate
                        else t_samplerate t)
                       (set_channels (t_channels t) (set_length (t_length t) pj))
                else pj).
    assert (Hpj' : pj' = p').
    { unfold pj', p', sr. destruct (Z.eqb_spec j 0) as [->|Hj0].
      - rewrite Hpj. cbn [Z.eqb]. change (Z.to_nat 0) with 0%nat in Hd.
        rewrite Hd0 in Hd. injection Hd as <-. rewrite Ht0 in Ht. by injection Ht as <-.
      - rewrite Hpj. by destruct (Z.eqb_spec j 0). }
    rewrite Hpj'.
    assert (Hmj : mj !! b = Some l).
    { specialize (Htodo (Z.to_nat j) d ltac:(lia) Hd). rewrite Hbuf in Htodo.
      simpl in Htodo. by rewrite Htodo. }
    destruct (pad_track_spec mj p' t b o l) as (l' & Hpad & Hl' & _ & Hzero).
    { by rewrite Hpcm. } { done. } { lia. } { done. } { done. } { simpl. done. }
    { change (window_frames p') with W. change (p_length p') with (t_length t0).
      destruct (Z.ltb_spec (t_length t) (t_length t0)).
      - replace (t_length t + (W + (t_length t0 - t_length t))) with
          (Z.max (t_length t) (t_length t0) + W) by lia. done.
      - replace (t_length t + W) with (Z.max (t_length t) (t_length t0) + W) by lia. done. }
    change (window_frames p') with W in Hl', Hzero.
    change (p_length p') with (t_length t0) in Hl', Hzero.
    assert (Htotal : t_length t
                     + (if t_length t <? t_length t0 then W + (t_length t0 - t_length t)
                        else W)
                     = Z.max (t_length t) (t_length t0) + W).
    { destruct (Z.ltb_spec (t_length t) (t_length t0)); lia. }
    rewrite Htotal in Hl', Hzero.
    rewrite Hpad. cbn [mbind option_bind].
    eexists. split; [reflexivity|].
    unfold Inv. split_and!.
    - by rewrite !length_insert.
    - by destruct (Z.eqb_spec (j + 1) 0); [lia|].
    - intros i di Hi Hdi.
      destruct (decide (i = Z.to_nat j)) as [->|Hne].
      + rewrite Hd in Hdi. injection Hdi as <-.
        exists t, b, o, l'. split_and!; [done|done| | | |].
        * rewrite list_lookup_insert_eq by (rewrite length_insert; lia). done.
        * apply lookup_insert_eq.
        * rewrite Hl', Hch. done.
        * intros k Hk. apply Hzero. rewrite Hch. lia.
      + destruct (Hdone i di) as (ti & bi & oi & li & Hti & Hbi & Htri & Hmi & Hli & Hzi);
          [lia|done|].
        exists ti, bi, oi, li. split_and!; [done|done| | |done|done].
        * rewrite !list_lookup_insert_ne by lia. done.
        * rewrite lookup_insert_ne; [done|].
          intros <-.
          assert (Heq : ((λ d, block_of (d_buf d)) <$> files) !! i = Some b).
          { rewrite list_lookup_fmap, Hdi. simpl. by rewrite Hbi. }
          assert (Heq' : ((λ d, block_of (d_buf d)) <$> files) !! Z.to_nat j = Some b).
          { rewrite list_lookup_fmap, Hd. simpl. by rewrite Hbuf. }
          pose proof (NoDup_lookup _ _ _ _ Hnd Heq Heq'). done.
    - intros i di Hi Hdi.
      rewrite lookup_insert_ne; [apply (Htodo i di); [lia|done]|].
      intros Heqb.
      assert (Heq : ((λ d, block_of (d_buf d)) <$> files) !! i = Some b).
      { rewrite list_lookup_fmap, Hdi. simpl. by rewrite Heqb. }
      assert (Heq' : ((λ d, block_of (d_buf d)) <$> files) !! Z.to_nat j = Some b).
      { rewrite list_lookup_fmap, Hd. simpl. by rewrite Hbuf. }
      pose proof (NoDup_lookup _ _ _ _ Hnd Heq Heq'). lia. }
  destruct Hfin as (Htr & Hpf & Hdone & _).
  exists m', p', tracks', t0. split_and!.
  - assert (Hfl : (0 < length files)%nat) by (rewrite Hfiles; simpl; lia).
    assert (Hpf' : pf = p').
    { rewrite Hpf. destruct (Z.eqb_spec (0 + Z.of_nat (length files)) 0); [lia|done]. }
    rewrite Hpf' in Hrun. unfold load_tracks.
    rewrite bool_decide_eq_false_2 by lia. exact Hrun.
  - rewrite Hfiles. done.
  - done.
  - done.
  - intros i d Hd.
    destruct (Hdone i d) as (t & b & o & l' & Ht & Hb & Htri & Hmi & Hli & Hzi).
    { apply lookup_lt_Some in Hd. lia. } { done. }
    destruct (Hall d (list_elem_of_lookup_2 _ _ _ Hd))
      as (t1 & _ & _ & _ & Ht1 & _ & Hch & _).
    rewrite Ht in Ht1. injection Ht1 as <-.
    exists t, b, o, l'. split_and!; done.
Qed.

End LoadProofs.

Lemma load_tracks_pads_every_track_witness :
  ∃ m' p' tracks',
    load_tracks 0 ex_files (ex_slurped, player0, replicate 10 track0)
    = Some (m', p', tracks')
    ∧ p_length p' = 10 ∧ length tracks' = 10%nat.
Proof.
  destruct (load_tracks_pads_every_track 0 ex_files ex_slurped player0 (replicate 10 track0))
    as (m' & p' & tracks' & t0 & Hrun & Ht0 & Hp & Hlen & _);
    [by vm_compute | simpl; lia |].
  exists m', p', tracks'. split_and!; [exact Hrun| |exact Hlen].
  rewrite Hp. injection Ht0 as <-. reflexivity.
Defined.

Lemma load_track_whole_frames_witness :
  ∃ t, load_track (mk_decoded "a" 2 44100 3 (Ptr 1 0) 1058407) = Some t
       ∧ t_length t = 132300.
Proof.
  destruct (load_track_whole_frames (mk_decoded "a" 2 44100 3 (Ptr 1 0) 1058407))
    as (t & Ht & _ & _ & _ & _ & Hlo & Hhi);
    [by vm_compute | done | by vm_compute | by vm_compute |].
  exists t. split; [exact Ht|].
  cbn [d_channels d_size] in Hlo, Hhi. unfold SIZEOF_FLOAT in *. lia.
Defined.

(** A loop fails when its body fails at an index that the invariant reaches. *)
Lemma for_loop_fails {St : Type} (Inv : Z → St → Prop) (body : Z → St → option St)
    (bad : Z) :
  (∀ j s1 s2, j < bad → Inv j s1 → body j s1 = Some s2 → Inv (j + 1) s2) →
  (∀ s1, Inv bad s1 → body bad s1 = None) →
  ∀ (k : nat) (i : Z) (s : St),
    Inv i s → i ≤ bad < i + Z.of_nat k → for_loop k i body s = None.
Proof.
  intros Hstep Hbad. induction k as [|k IH]; intros i s Hinv Hi; [lia|].
  cbn [for_loop]. destruct (decide (i = bad)) as [->|Hne].
  - by rewrite Hbad.
  - destruct (body i s) as [s1|] eqn:Hb; [|done]. cbn [mbind option_bind].
    apply IH; [|lia]. apply (Hstep i s); [lia|done|done].
Qed.

Section LoadErrors.
Context {F : Type} {ops : SampleOps F}.

Lemma pad_track_fields (m m' : gmap nat (list F)) (p : player) (t t' : track) :
  pad_track m p t = Some (m', t') →
  t_channels t' = t_channels t ∧ t_samplerate t' = t_samplerate t.
Proof.
  unfold pad_track. cbv zeta. destruct (alloc _ _ _) as [m1 pcm].
  destruct (memset0 _ _ _) as [m2|]; [|done]. cbn [mbind option_bind].
  intros [= <- <-]. done.
Qed.

(** X9: [load_tracks] stops with PANIC when a file differs from the first
    one in its channel count or in its sample rate, whatever the other files
    are. *)
Theorem load_tracks_rejects_mismatch (device_rate : Z) (files : list decoded)
    (m : gmap nat (list F)) (p : player) (tracks0 : list track)
    (i : nat) (d d0 : decoded) (t t0 : track) :
  (length files ≤ length tracks0)%nat →
  files !! 0%nat = Some d0 → load_track d0 = Some t0 →
  files !! i = Some d → load_track d = Some t →
  t_channels t ≠ t_channels t0 ∨ t_samplerate t ≠ t_samplerate t0 →
  load_tracks device_rate files (m, p, tracks0) = None.
Proof.
  intros Hlen Hd0 Ht0 Hd Ht Hdiff.
  unfold load_tracks. case_bool_decide; [done|].
  pose proof (lookup_lt_Some _ _ _ Hd) as Hi.
  apply (for_loop_fails
           (λ (j : Z) (s : gmap nat (list F) * player * list track),
              length s.2 = length tracks0
              ∧ (0 < j → ∃ t', s.2 !! 0%nat = Some t'
                               ∧ t_channels t' = t_channels t0
                               ∧ t_samplerate t' = t_samplerate t0))
           _ (Z.of_nat i)).
  - (* the first entry keeps the format of the first file *)
    intros j [[mj pj] trj] [[m2 p2] tr2] Hj [Htr Hfirst] Hbody.
    cbn [snd] in *.
    destruct (files !! Z.to_nat j) as [dj|] eqn:Hdj; [|done].
    cbn [mbind option_bind] in Hbody.
    destruct (load_track dj) as [tj|] eqn:Htj; [|done]. cbn [mbind option_bind] in Hbody.
    cbv zeta in Hbody.
    case_bool_decide; [done|]. case_bool_decide; [done|].
    destruct (pad_track _ _ _) as [[m3 t3]|] eqn:Hpad; [|done].
    cbn [mbind option_bind] in Hbody. injection Hbody as <- <- <-.
    destruct (pad_track_fields _ _ _ _ _ Hpad) as [Hc Hs].
    split; [by rewrite !length_insert|]. intros _.
    destruct (Z.le_gt_cases j 0) as [Hj0|Hj0].
    + (* [j ≤ 0]: the entry written is the first one when [j = 0] *)
      assert (Z.to_nat j = 0%nat) as Hz by lia. rewrite Hz in Hdj |- *.
      rewrite list_lookup_insert_eq by (rewrite length_insert; lia).
      eexists. split; [done|].
      rewrite Hd0 in Hdj. simplify_eq. by rewrite Hc, Hs.
    + destruct (Hfirst Hj0) as (t' & Htr0 & Hc0 & Hs0).
      rewrite !list_lookup_insert_ne by lia. eauto.
  - (* the differing file *)
    intros [[mj pj] trj] [Htr Hfirst]. cbn [snd] in *.
    rewrite Nat2Z.id, Hd. cbn [mbind option_bind]. rewrite Ht. cbn [mbind option_bind].
    cbv zeta.
    assert (Hf : t_channels (track_at (<[i := t]> trj) 0) = t_channels t0
                 ∧ t_samplerate (track_at (<[i := t]> trj) 0) = t_samplerate t0).
    { unfold track_at. cbn [Z.leb Z.compare]. change (Z.to_nat 0) with 0%nat.
      destruct i as [|i].
      - exfalso. rewrite Hd0 in Hd. simplify_eq. tauto.
      - destruct Hfirst as (t' & Htr0 & Hc0 & Hs0); [lia|].
        rewrite list_lookup_insert_ne by lia. rewrite Htr0. done. }
    destruct Hf as [Hf1 Hf2]. rewrite Hf1, Hf2.
    destruct Hdiff.
    + by rewrite bool_decide_eq_true_2.
    + case_bool_decide; [done|]. by rewrite bool_decide_eq_true_2.
  - cbn [snd]. split; [done|lia].
  - lia.
Qed.

End LoadErrors.

Lemma load_tracks_rejects_mismatch_witness :
  load_tracks (F := f32) 0
    [mk_decoded "a" 2 44100 1 (Ptr 1 0) 80; mk_decoded "b" 1 44100 1 (Ptr 2 0) 80]
    (ex_slurped, player0, replicate 10 track0) = None.
Proof.
  eapply (load_tracks_rejects_mismatch 0 _ _ _ _ 1);
    [simpl; lia|reflexivity|reflexivity|reflexivity|reflexivity|].
  left. simpl. lia.
Defined.

Section ShuffleEdge.
Variable RAND_MAX : Z.

(** X10: with at most one track to permute ([num_files ≤ 1], or
    [num_files ≤ 2] when the reference keeps the first place)
    [shuffle_tracks] leaves the array as it is, for every [rand]. *)
Theorem shuffle_of_one_is_identity (rand : nat → Z) (num_files : Z)
    (skip_first : bool) (tracks : list track) :
  0 ≤ num_files ≤ (if skip_first then 2 else 1) →
  shuffle_tracks RAND_MAX rand num_files skip_first tracks = Some tracks.
Proof.
  intros Hn. unfold shuffle_tracks. cbv zeta.
  rewrite isub_id by (unfold INT_MAX; destruct skip_first; lia).
  replace (Z.to_nat (num_files - 1 - (if skip_first then 1 else 0))) with 0%nat
    by (destruct skip_first; lia).
  reflexivity.
Qed.

End ShuffleEdge.

Lemma shuffle_of_one_is_identity_witness :
  shuffle_tracks glibc_RAND_MAX ex_rand 2 true ex_tracks = Some ex_tracks.
Proof.
  apply (shuffle_of_one_is_identity glibc_RAND_MAX ex_rand 2 true ex_tracks).
  simpl. lia.
Defined.

Lemma digit_range (i : Z) :
  0 ≤ i < 10 →
  i = 0 ∨ i = 1 ∨ i = 2 ∨ i = 3 ∨ i = 4 ∨ i = 5 ∨ i = 6 ∨ i = 7 ∨ i = 8 ∨ i = 9.
Proof. lia. Qed.

Lemma print_int_label (i : Z) :
  0 ≤ i < 10 →
  print_int (Z.rem (iadd i 1) 10) = String (key_of i) EmptyString.
Proof.
  intros Hi. destruct (digit_range i Hi) as [->|[->|[->|[->|[->|[->|[->|[->|[->| ->]]]]]]]]];
    reflexivity.
Qed.

Lemma key_of_selects (num_files step i : Z) (p : player) :
  0 ≤ i < num_files → num_files ≤ MAX_TRACKS →
  handle_key num_files step (key_of i) p = set_next i p.
Proof.
  intros Hi Hn. unfold MAX_TRACKS in Hn.
  destruct (digit_range i ltac:(lia)) as [->|[->|[->|[->|[->|[->|[->|[->|[->| ->]]]]]]]]];
    unfold handle_key, key_of;
    repeat match goal with
           | |- context [chr ?a] =>
               let v := eval vm_compute in (chr a) in change (chr a) with v
           end;
    match goal with
    | |- context [?x <=? num_files] =>
        replace (x <=? num_files) with true by (symmetry; apply Z.leb_le; cbn; lia)
    end;
    reflexivity.
Qed.

Lemma print_files_loop (tracks : list track) (blind : bool) (k : nat) :
  ∀ (i : Z) (out : list string),
    0 ≤ i → i + Z.of_nat k ≤ 10 →
    for_loop k i
      (λ i out,
         let name := if blind then "???"%string else t_name (track_at tracks i) in
         Some (out ++ [String.append "["
                         (String.append (print_int (Z.rem (iadd i 1) 10))
                            (String.append "] " (String.append name LF)))]))
      out
    = Some (out ++ ((λ i, String.append "["
                       (String (key_of i)
                          (String.append "] "
                             (String.append
                                (if blind then "???"%string
                                 else t_name (track_at tracks i)) LF))))
                    <$> seqZ i (Z.of_nat k))).
Proof.
  induction k as [|k IH]; intros i out Hi Hk.
  - simpl. by rewrite app_nil_r.
  - cbn [for_loop mbind option_bind]. rewrite IH by lia.
    rewrite (seqZ_cons i (Z.of_nat (S k))) by lia.
    replace (Z.pred (Z.of_nat (S k))) with (Z.of_nat k) by lia.
    change (Z.succ i) with (i + 1).
    rewrite fmap_cons, <- app_assoc. cbn [app].
    rewrite print_int_label by lia. done.
Qed.

(** X11: [print_files] writes one line for each track from the first one
    that is not the reference, in order; the line of track [i] is ["[k] "]
    followed by the file name (["???"] when blind), and [k] is the key that
    makes the control loop select track [i]. *)
Theorem listed_keys_select_tracks (num_files step : Z) (tracks : list track)
    (reference blind : bool) :
  0 ≤ num_files ≤ MAX_TRACKS →
  print_files num_files tracks reference blind
  = Some ((if reference then [String.append "[1] reference" LF] else [])
          ++ ((λ i, String.append "["
                 (String (key_of i)
                    (String.append "] "
                       (String.append
                          (if blind then "???"%string else t_name (track_at tracks i))
                          LF))))
              <$> seqZ (if reference then 1 else 0)
                       (num_files - (if reference then 1 else 0))))
  ∧ ∀ (i : Z) (p : player), 0 ≤ i < num_files →
      p_next (handle_key num_files step (key_of i) p) = i.
Proof.
  intros Hn. split.
  - unfold print_files. cbv zeta. unfold MAX_TRACKS in Hn.
    rewrite print_files_loop by (destruct reference; lia).
    destruct (Z.le_gt_cases (num_files - (if reference then 1 else 0)) 0) as [Hle|Hgt].
    + replace (Z.of_nat (Z.to_nat (num_files - (if reference then 1 else 0)))) with 0 by lia.
      assert (Hnil : ∀ m n, n ≤ 0 → seqZ m n = []).
      { intros m n Hle'. unfold seqZ. replace (Z.to_nat n) with 0%nat by lia. done. }
      rewrite (Hnil _ (num_files - _)) by done. by rewrite (Hnil _ 0) by lia.
    + by rewrite Z2Nat.id by lia.
  - intros i p Hi. rewrite key_of_selects by lia. done.
Qed.

Lemma listed_keys_select_tracks_witness :
  print_files 2 ex_tracks true true
  = Some [String.append "[1] reference" LF;
          String.append "[2] ???" LF]
  ∧ p_next (handle_key 2 2205 "2" ex_player) = 1.
Proof.
  destruct (listed_keys_select_tracks 2 2205 ex_tracks true true) as [Hout Hkey];
    [unfold MAX_TRACKS; lia|].
  split; [exact Hout|]. apply (Hkey 1 ex_player). lia.
Defined.

Lemma print_progress_loop (f : Z → Z) (k : nat) :
  ∀ (i : Z) (buf : list Z),
    0 ≤ i → i + Z.of_nat k ≤ Z.of_nat (length buf) →
    ∃ buf',
      for_loop k i (λ i buf, Some (<[Z.to_nat i := f i]> buf)) buf = Some buf'
      ∧ length buf' = length buf
      ∧ ∀ j : nat,
          buf' !! j = if bool_decide (i ≤ Z.of_nat j < i + Z.of_nat k)
                      then Some (f (Z.of_nat j)) else buf !! j.
Proof.
  induction k as [|k IH]; intros i buf Hi Hk.
  - exists buf. split_and!; [done|done|]. intros j. rewrite bool_decide_eq_false_2; [done|lia].
  - destruct (IH (i + 1) (<[Z.to_nat i := f i]> buf)) as (buf' & Hrun & Hlen & Hget);
      [lia|rewrite length_insert; lia|].
    exists buf'. cbn [for_loop mbind option_bind]. split_and!; [done| |].
    + by rewrite Hlen, length_insert.
    + intros j. rewrite Hget. repeat case_bool_decide; try lia; try done.
      * assert (j = Z.to_nat i) as -> by lia.
        rewrite list_lookup_insert_eq by lia. by rewrite Z2Nat.id by lia.
      * rewrite list_lookup_insert_ne by lia. done.
Qed.

(** X12: for a position inside the track whose product with 80 fits an
    [int], [print_progress] writes 81 bytes whatever the local array held:
    80 columns and a carriage return; the column [pos * 80 / length] holds
    the digit of the current track, also where a loop bound falls on it, and
    every other column holds one of [[], []] and [-]. *)
Theorem progress_bar_marks_position (junk : nat → Z) (p : player) :
  0 ≤ p_pos p < p_length p → p_pos p * 80 ≤ INT_MAX →
  0 ≤ p_track p < INT_MAX →
  ∃ buf,
    print_progress junk p = Some buf
    ∧ length buf = 81%nat
    ∧ buf !! 80%nat = Some 13
    ∧ buf !! Z.to_nat (p_pos p * 80 / p_length p)
      = Some (chr "0" + (p_track p + 1) mod 10)
    ∧ ∀ j : nat, (j < 80)%nat → Z.of_nat j ≠ p_pos p * 80 / p_length p →
        buf !! j = Some (chr "[") ∨ buf !! j = Some (chr "]") ∨ buf !! j = Some (chr "-").
Proof.
  intros Hpos Hmul Htrack. unfold print_progress. cbv zeta.
  destruct (Z.eqb_spec (p_length p) 0) as [|_]; [lia|].
  assert (Hrange : 0 ≤ p_pos p * 80 / p_length p < 80).
  { split; [apply Z.div_pos; lia|apply Z.div_lt_upper_bound; lia]. }
  assert (Hcol : idiv (imul (p_pos p) 80) (p_length p) = p_pos p * 80 / p_length p).
  { unfold idiv, imul. rewrite (wrap_int_id (p_pos p * 80)) by (unfold INT_MAX in *; lia).
    rewrite Z.quot_div_nonneg by lia.
    apply wrap_int_id. unfold INT_MAX. lia. }
  rewrite Hcol.
  assert (Hdigit : Z.rem (iadd (p_track p) 1) 10 = (p_track p + 1) mod 10).
  { unfold iadd. rewrite wrap_int_id by (unfold INT_MAX in *; lia).
    apply Z.rem_mod_nonneg; lia. }
  rewrite Hdigit.
  set (f := λ i : Z,
         if i =? p_pos p * 80 / p_length p then chr "0" + (p_track p + 1) mod 10
         else if i =? idiv (imul (p_start p) 80) (p_length p) then chr "["
         else if i =? idiv (imul (isub (p_end p) 1) 80) (p_length p) then chr "]"
         else chr "-").
  destruct (print_progress_loop f 80 0 (junk <$> seq 0 81)) as (buf & Hrun & Hlen & Hget);
    [lia|rewrite length_fmap, length_seq; lia|].
  rewrite length_fmap, length_seq in Hlen.
  exists (<[80%nat := 13]> buf). split_and!.
  - unfold f in Hrun. rewrite Hrun. done.
  - by rewrite length_insert.
  - apply list_lookup_insert_eq. lia.
  - rewrite list_lookup_insert_ne by lia. rewrite Hget.
    rewrite bool_decide_eq_true_2 by lia. unfold f. rewrite Z2Nat.id by lia.
    by rewrite Z.eqb_refl.
  - intros j Hj Hne. rewrite list_lookup_insert_ne by lia. rewrite Hget.
    rewrite bool_decide_eq_true_2 by lia. unfold f.
    destruct (Z.eqb_spec (Z.of_nat j) (p_pos p * 80 / p_length p)); [done|].
    repeat case_match; auto.
Qed.

Lemma progress_bar_marks_position_witness :
  ∃ buf,
    print_progress (λ _, 0) (set_pos 5 ex_player) = Some buf
    ∧ buf !! 40%nat = Some (chr "1").
Proof.
  destruct (progress_bar_marks_position (λ _, 0) (set_pos 5 ex_player))
    as (buf & Hrun & _ & _ & Hcol & _); [by vm_compute|by vm_compute|by vm_compute|].
  exists buf. split; [exact Hrun|exact Hcol].
Defined.

(** The code of each character constant in a goal. *)
Ltac eval_chr :=
  repeat match goal with
         | |- context [chr (Ascii ?b0 ?b1 ?b2 ?b3 ?b4 ?b5 ?b6 ?b7)] =>
             let v := eval vm_compute in (chr (Ascii b0 b1 b2 b3 b4 b5 b6 b7)) in
             change (chr (Ascii b0 b1 b2 b3 b4 b5 b6 b7)) with v
         end.

Lemma char_at_S (c : ascii) (s : string) (k : nat) :
  char_at (String c s) (S k) = char_at s k.
Proof. reflexivity. Qed.

Lemma char_at_0 (s : string) :
  char_at s 0 = Some (match s with EmptyString => 0 | String c _ => chr c end).
Proof. by destruct s. Qed.

Lemma chr_range (c : ascii) : 0 ≤ chr c < 256.
Proof.
  unfold chr. pose proof (N_ascii_bounded c) as Hc. lia.
Qed.

(** The reads of [parse_args] in one argument. *)
Lemma arg_reads (s : string) :
  ∃ c0, char_at s 0 = Some c0
        ∧ (c0 = chr "-" →
           ∃ flag, char_at s 1 = Some flag
                   ∧ (flag ≠ 0 → ∃ c2, char_at s 2 = Some c2)).
Proof.
  rewrite char_at_0. eexists. split; [done|].
  destruct s as [|c s]; [by vm_compute|]. intros _.
  rewrite char_at_S, char_at_0. eexists. split; [done|].
  destruct s as [|c1 s]; [done|]. intros _.
  rewrite !char_at_S, char_at_0. eauto.
Qed.

Section ParseProofs.
Variable strtol : string → option Z.

(** X13: [parse_args] reads no character behind the terminator of an
    argument and writes no entry outside [arg.files]: from a state with
    [0 ≤ num_files ≤ MAX_TRACKS] it returns or exits for every command line,
    and when it returns [num_files] has not decreased and is at most
    [MAX_TRACKS]. *)
Theorem parse_args_stays_in_bounds (argv : list string) (a : arg) :
  0 ≤ a_num_files a ≤ MAX_TRACKS →
  length (a_files a) = Z.to_nat MAX_TRACKS →
  ∃ o, parse_args strtol argv a = Some o
       ∧ ∀ a', o = Parsed a' →
           a_num_files a ≤ a_num_files a' ≤ MAX_TRACKS
           ∧ length (a_files a') = Z.to_nat MAX_TRACKS.
Proof.
  remember (length argv) as n eqn:Hn.
  assert (Hle : (length argv ≤ n)%nat) by lia. clear Hn.
  revert argv a Hle.
  induction n as [|n IH]; intros argv a Hle Hnum Hfiles.
  { destruct argv; [|simpl in Hle; lia].
    eexists. split; [done|]. intros a' [= <-]. lia. }
  destruct argv as [|s rest].
  { eexists. split; [done|]. intros a' [= <-]. lia. }
  simpl in Hle.
  assert (Hexit : ∀ k, ∃ o, Some (Exit k) = Some o
                            ∧ ∀ a', o = Parsed a' →
                                a_num_files a ≤ a_num_files a' ≤ MAX_TRACKS
                                ∧ length (a_files a') = Z.to_nat MAX_TRACKS).
  { intros k. eexists. split; [done|]. intros a' [=]. }
  assert (Hrec : ∀ l a1, (length l ≤ n)%nat →
                   a_num_files a ≤ a_num_files a1 ≤ MAX_TRACKS →
                   length (a_files a1) = Z.to_nat MAX_TRACKS →
                   ∃ o, parse_args strtol l a1 = Some o
                        ∧ ∀ a', o = Parsed a' →
                            a_num_files a ≤ a_num_files a' ≤ MAX_TRACKS
                            ∧ length (a_files a') = Z.to_nat MAX_TRACKS).
  { intros l a1 Hl Hn1 Hf1. destruct (IH l a1 Hl) as (o & Ho & Hbound); [lia|done|].
    exists o. split; [done|]. intros a' Ha'. destruct (Hbound a' Ha'). lia. }
  assert (Hskip : ∀ a1 c2,
            a_num_files a1 = a_num_files a → a_files a1 = a_files a →
            ∃ o, (if c2 =? 0
                  then match rest with
                       | [] => Some (Parsed a1)
                       | _ :: rest' => parse_args strtol rest' a1
                       end
                  else parse_args strtol rest a1) = Some o
                 ∧ ∀ a', o = Parsed a' →
                     a_num_files a ≤ a_num_files a' ≤ MAX_TRACKS
                     ∧ length (a_files a') = Z.to_nat MAX_TRACKS).
  { intros a1 c2 Hn1 Hf1. destruct (c2 =? 0).
    - destruct rest as [|v rest'].
      + eexists. split; [done|]. intros a' [= <-]. rewrite Hn1, Hf1. lia.
      + apply Hrec; [simpl in Hle; lia|lia|by rewrite Hf1].
    - apply Hrec; [lia|lia|by rewrite Hf1]. }
  destruct (arg_reads s) as (c0 & Hc0 & Hflag).
  cbn [parse_args]. rewrite Hc0. cbn [mbind option_bind].
  destruct (Z.eqb_spec c0 (chr "-")) as [Hdash|_]; cbn [negb].
  - destruct (Hflag Hdash) as (flag & Hfl & Hc2). rewrite Hfl. cbn [mbind option_bind].
    assert (Hattached : ∃ b, (if flag =? 0 then Some false
                             else char_at s 2 ≫= λ c2, Some (negb (c2 =? 0))) = Some b).
    { destruct (Z.eqb_spec flag 0) as [|Hne]; [eauto|].
      destruct (Hc2 Hne) as [c2 ->]. simpl. eauto. }
    destruct Hattached as [attached ->]. cbn [mbind option_bind]. cbv zeta.
    destruct (flag =? chr "h"); [apply Hexit|].
    destruct (flag =? chr "v"); [by apply Hrec; [lia|simpl; lia|]|].
    destruct (flag =? chr "b"); [by apply Hrec; [lia|simpl; lia|]|].
    destruct (flag =? chr "r"); [by apply Hrec; [lia|simpl; lia|]|].
    destruct (flag =? chr "l"); [by apply Hrec; [lia|simpl; lia|]|].
    destruct (Z.eqb_spec flag (chr "d")) as [Hd|_].
    { destruct (strtol _) as [v|]; [|apply Hexit].
      destruct Hc2 as [c2 ->]; [by rewrite Hd|]. cbn [mbind option_bind].
      by apply Hskip. }
    destruct (Z.eqb_spec flag (chr "o")) as [Ho|_]; [|apply Hexit].
    destruct (strtol _) as [v|]; [|apply Hexit].
    destruct Hc2 as [c2 ->]; [by rewrite Ho|]. cbn [mbind option_bind].
    by apply Hskip.
  - destruct (Z.geb_spec (a_num_files a) MAX_TRACKS) as [|Hlt]; [apply Hexit|].
    rewrite bool_decide_eq_true_2 by (rewrite Hfiles; unfold MAX_TRACKS in *; lia).
    unfold MAX_TRACKS in *.
    destruct (IH rest (add_file (Z.to_nat (a_num_files a)) s (iadd (a_num_files a) 1) a))
      as (o & Ho & Hbound); [lia| | |].
    + cbn [a_num_files add_file]. unfold iadd. rewrite wrap_int_id; unfold INT_MAX; lia.
    + cbn [a_files add_file]. by rewrite length_insert.
    + exists o. split; [done|]. intros a' Ha'. destruct (Hbound a' Ha') as [Hb1 Hb2].
      cbn [a_num_files add_file] in Hb1. unfold iadd in Hb1.
      rewrite wrap_int_id in Hb1 by (unfold INT_MAX; lia). split; [lia|done].
Qed.

(** X14: a command line without options fills [arg.files] from
    [num_files] on with the arguments in their order and counts them; more
    than [MAX_TRACKS] files end the program with status 1. *)
Theorem parse_args_collects_files (argv : list string) (a : arg) :
  Forall (λ s, char_at s 0 ≠ Some (chr "-")) argv →
  0 ≤ a_num_files a ≤ MAX_TRACKS →
  length (a_files a) = Z.to_nat MAX_TRACKS →
  parse_args strtol argv a
  = Some (if a_num_files a + Z.of_nat (length argv) <=? MAX_TRACKS
          then Parsed
                 (mk_arg (a_list_devices a) (a_blind a) (a_refblind a)
                    (a_device_index a) (a_device_rate a)
                    (take (Z.to_nat (a_num_files a)) (a_files a)
                     ++ (Some <$> argv)
                     ++ drop (Z.to_nat (a_num_files a) + length argv) (a_files a))
                    (a_num_files a + Z.of_nat (length argv))
                    (a_verbose a))
          else Exit 1).
Proof.
  intros Hfiles. revert a. induction Hfiles as [|s rest Hs _ IH]; intros a Hnum Hlen.
  - cbn [parse_args length]. rewrite Z.add_0_r, Nat.add_0_r.
    destruct (Z.leb_spec (a_num_files a) MAX_TRACKS); [|lia].
    cbn [fmap list_fmap app]. rewrite take_drop. by destruct a.
  - cbn [parse_args]. rewrite char_at_0 in Hs |- *. cbn [mbind option_bind].
    destruct (Z.eqb_spec (match s with EmptyString => 0 | String c _ => chr c end)
                (chr "-")) as [Heq|_]; [by rewrite Heq in Hs|]. cbn [negb].
    unfold MAX_TRACKS in *.
    destruct (Z.geb_spec (a_num_files a) 10) as [Hge|Hlt].
    { destruct (Z.leb_spec (a_num_files a + Z.of_nat (length (s :: rest))) 10) as [Hle|];
        [simpl in Hle; lia|done]. }
    rewrite bool_decide_eq_true_2 by (rewrite Hlen; lia).
    rewrite IH; cbn [add_file a_num_files a_files a_list_devices a_blind a_refblind
                       a_device_index a_device_rate a_verbose];
      [|unfold iadd; rewrite wrap_int_id; unfold INT_MAX; lia
       |by rewrite length_insert].
    unfold iadd. rewrite wrap_int_id by (unfold INT_MAX; lia).
    replace (a_num_files a + 1 + Z.of_nat (length rest))
      with (a_num_files a + Z.of_nat (length (s :: rest))) by (simpl; lia).
    destruct (Z.leb_spec (a_num_files a + Z.of_nat (length (s :: rest))) 10); [|done].
    do 2 f_equal. f_equal.
    replace (Z.to_nat (a_num_files a + 1)) with (S (Z.to_nat (a_num_files a))) by lia.
    rewrite (take_S_r _ _ (Some s)) by (apply list_lookup_insert_eq; lia).
    rewrite take_insert_ge by lia.
    rewrite drop_insert_lt by lia.
    rewrite <- app_assoc. cbn [fmap list_fmap app length].
    by replace (S (Z.to_nat (a_num_files a)) + length rest)%nat
      with (Z.to_nat (a_num_files a) + S (length rest))%nat by lia.
Qed.

(** X15: the value of [-d] and of [-o] is taken from the rest of the
    argument or, when the argument ends after the flag, from the next
    argument, which is then skipped: ["-d" "5"] and ["-d5"] are parsed
    alike. *)
Theorem option_value_attached_or_next (flag c : ascii) (v : string)
    (rest : list string) (a : arg) :
  flag = "d"%char ∨ flag = "o"%char → chr c ≠ 0 →
  parse_args strtol (String "-" (String flag EmptyString) :: String c v :: rest) a
  = parse_args strtol (String "-" (String flag (String c v)) :: rest) a.
Proof.
  intros Hflag Hc. apply Z.eqb_neq in Hc.
  destruct Hflag as [-> | ->]; cbn [parse_args]; unfold char_at;
    cbn [String.get String.length Nat.eqb mbind option_bind string_from];
    eval_chr; cbn [Z.eqb Pos.eqb negb mbind option_bind]; rewrite Hc;
    cbn [negb]; by destruct (strtol _).
Qed.

End ParseProofs.

Lemma parse_args_stays_in_bounds_witness :
  ∃ o, parse_args strtol10 ["-d"; "5"; "a.wav"; "-b"; "b.wav"]%string arg0 = Some o.
Proof.
  destruct (parse_args_stays_in_bounds strtol10
              ["-d"; "5"; "a.wav"; "-b"; "b.wav"]%string arg0)
    as (o & Ho & _); [by vm_compute|reflexivity|].
  exists o. exact Ho.
Defined.

Lemma parse_args_collects_files_witness :
  ∃ a, parse_args strtol10 ["a.wav"; "b.wav"]%string arg0 = Some (Parsed a)
       ∧ a_num_files a = 2.
Proof.
  eexists. split.
  - apply (parse_args_collects_files strtol10 ["a.wav"; "b.wav"]%string arg0).
    + repeat constructor; by vm_compute.
    + by vm_compute.
    + reflexivity.
  - reflexivity.
Defined.

Lemma option_value_attached_or_next_witness :
  parse_args strtol10 ["-d"; "5"; "a.wav"]%string arg0
  = parse_args strtol10 ["-d5"; "a.wav"]%string arg0.
Proof.
  apply (option_value_attached_or_next strtol10 "d" "5" "" ["a.wav"%string] arg0).
  - by left.
  - by vm_compute.
Defined.

Section SlurpProofs.
Variable junk : Z.

Lemma slurp_loop_spec (fuel : nat) :
  ∀ (f done buf : list Z),
    Z.of_nat (length f) / CHUNK_SIZE < Z.of_nat fuel →
    take (length done) buf = done →
    Z.of_nat (length done) + Z.of_nat (length f) + 2 * CHUNK_SIZE ≤ INT_MAX →
    ∃ buf',
      slurp_loop junk fuel f buf (Z.of_nat (length done))
                 (Z.of_nat (length done) + CHUNK_SIZE) CHUNK_SIZE
      = Some (buf', Z.of_nat (length (done ++ f)))
      ∧ take (length (done ++ f)) buf' = done ++ f
      ∧ buf' !! length (done ++ f) = Some 0.
Proof.
  induction fuel as [|fuel IH]; intros f done buf Hfuel Hdone Hmax.
  { pose proof (Z.div_pos (Z.of_nat (length f)) CHUNK_SIZE ltac:(lia) ltac:(done)). lia. }
  assert (Hlen : (length done ≤ length buf)%nat).
  { rewrite <- Hdone at 1. rewrite length_take. lia. }
  cbn [slurp_loop]. rewrite Z.eqb_refl. cbv zeta.
  set (len := Z.of_nat (length done)) in *.
  set (buf1 := resize (Z.to_nat (len + CHUNK_SIZE)) junk buf).
  assert (Hbuf1 : length buf1 = Z.to_nat (len + CHUNK_SIZE)) by apply length_resize.
  assert (Htake1 : take (length done) buf1 = done).
  { unfold buf1. rewrite take_resize_le by (unfold CHUNK_SIZE; lia).
    rewrite <- Hdone at 2. rewrite resize_le by lia. done. }
  set (got := take (Z.to_nat CHUNK_SIZE) f).
  assert (Hgot : (length got ≤ Z.to_nat CHUNK_SIZE)%nat).
  { unfold got. rewrite length_take. lia. }
  unfold fread. fold got.
  rewrite bool_decide_eq_true_2 by (rewrite Hbuf1; unfold CHUNK_SIZE in *; lia).
  cbn [mbind option_bind].
  rewrite (wrap_int_id (Z.of_nat (length got)))
    by (unfold INT_MAX, CHUNK_SIZE in *; lia).
  unfold iadd.
  rewrite (wrap_int_id (len + Z.of_nat (length got)))
    by (unfold INT_MAX, CHUNK_SIZE in *; lia).
  rewrite (wrap_int_id (len + CHUNK_SIZE + CHUNK_SIZE))
    by (unfold INT_MAX, CHUNK_SIZE in *; lia).
  set (buf2 := take (Z.to_nat len) buf1 ++ got
               ++ drop (Z.to_nat (len + Z.of_nat (length got))) buf1).
  assert (Hbuf2 : length buf2 = Z.to_nat (len + CHUNK_SIZE)).
  { unfold buf2. rewrite !length_app, length_take, length_drop, Hbuf1.
    unfold CHUNK_SIZE in *. lia. }
  assert (Htake2 : take (length (done ++ got)) buf2 = done ++ got).
  { unfold buf2, len. rewrite Nat2Z.id, Htake1, app_assoc.
    by rewrite take_app_length. }
  destruct (decide (Z.to_nat CHUNK_SIZE ≤ length f)%nat) as [Hfull|Hshort].
  - (* a full chunk: the loop goes on *)
    assert (Hn : length got = Z.to_nat CHUNK_SIZE) by (unfold got; rewrite length_take; lia).
    destruct (IH (drop (Z.to_nat CHUNK_SIZE) f) (done ++ got) buf2)
      as (buf' & Hrun & Htake & Hzero).
    + rewrite length_drop.
      replace (Z.of_nat (length f - Z.to_nat CHUNK_SIZE))
        with (Z.of_nat (length f) - CHUNK_SIZE) by (unfold CHUNK_SIZE in *; lia).
      pose proof (Z.div_add (Z.of_nat (length f) - CHUNK_SIZE) 1 CHUNK_SIZE ltac:(done))
        as Hdiv.
      replace (Z.of_nat (length f) - CHUNK_SIZE + 1 * CHUNK_SIZE)
        with (Z.of_nat (length f)) in Hdiv by lia.
      lia.
    + done.
    + rewrite length_app, length_drop. unfold CHUNK_SIZE in *. lia.
    + assert (Heq : (done ++ got) ++ drop (Z.to_nat CHUNK_SIZE) f = done ++ f).
      { unfold got. by rewrite <- app_assoc, take_drop. }
      rewrite Heq in Hrun, Htake, Hzero.
      exists buf'. split_and!; [|done|done].
      rewrite <- Hrun. rewrite length_app. rewrite Hn at 2.
      f_equal; unfold len, CHUNK_SIZE in *; lia.
  - (* the last chunk *)
    assert (Hall : got = f) by (unfold got; apply take_ge; lia).
    rewrite Hall in *.
    destruct fuel as [|fuel']; cbn [slurp_loop];
      (destruct (Z.eqb_spec (Z.of_nat (length f)) CHUNK_SIZE) as [Heq|_];
       [unfold CHUNK_SIZE in *; lia|]);
      rewrite bool_decide_eq_true_2 by (rewrite Hbuf2; unfold CHUNK_SIZE in *; lia);
      (exists (<[Z.to_nat (len + Z.of_nat (length f)) := 0]> buf2);
       replace (Z.to_nat (len + Z.of_nat (length f))) with (length (done ++ f))
         by (rewrite length_app; lia);
       split_and!;
       [by rewrite length_app, Nat2Z.inj_add
       |by rewrite take_insert_ge by lia
       |apply list_lookup_insert_eq; rewrite Hbuf2, length_app;
        unfold CHUNK_SIZE in *; lia]).
Qed.

(** X16: when the command runs and ends with status 0, [slurp] returns
    after one iteration more than the output holds full chunks: the buffer
    starts with the whole output, the byte behind it is the terminator
    (inside the buffer, also when the output ends on a chunk boundary), and
    [size] counts the output without the terminator. *)
Theorem slurp_reads_whole_output (fuel : nat) (f : list Z) :
  Z.of_nat (length f) / CHUNK_SIZE < Z.of_nat fuel →
  Z.of_nat (length f) + 2 * CHUNK_SIZE ≤ INT_MAX →
  ∃ buf,
    slurp junk fuel (Some f) 0 = Some (buf, Z.of_nat (length f))
    ∧ take (length f) buf = f
    ∧ buf !! length f = Some 0.
Proof.
  intros Hfuel Hmax.
  destruct (slurp_loop_spec fuel f [] [] Hfuel eq_refl) as (buf & Hrun & Htake & Hzero);
    [simpl; lia|].
  exists buf. unfold slurp. cbn [mbind option_bind].
  change (Z.of_nat (length []) + CHUNK_SIZE) with CHUNK_SIZE in Hrun.
  change (Z.of_nat (length [])) with 0 in Hrun. cbn [app] in Hrun, Htake, Hzero.
  rewrite Hrun. done.
Qed.

End SlurpProofs.

Lemma slurp_reads_whole_output_witness :
  ∃ buf, slurp 0 1 (Some [102; 111; 111]) 0 = Some (buf, 3)
         ∧ take 3 buf = [102; 111; 111] ∧ buf !! 3%nat = Some 0.
Proof.
  apply (slurp_reads_whole_output 0 1 [102; 111; 111]); by vm_compute.
Defined.

Section Quit.
Context {F : Type} {ops : SampleOps F}.

Lemma step_late_admits (tracks : list track) nf step e
    (s s' : gmap nat (list F) * player) :
  step_event tracks nf step e s = Some s' → step_late tracks nf step e s = Some s'.
Proof.
  destruct e as [out n|c|]; simpl; [done| |done].
  by destruct (p_running (snd s)).
Qed.

Lemma handle_key_running nf step c p :
  p_running p = false → p_running (handle_key nf step c p) = false.
Proof. intros Hp. unfold handle_key. repeat case_match; simpl; done. Qed.

Lemma running_stays_false (tracks : list track) nf step (es : list event) :
  ∀ s1 s : gmap nat (list F) * player,
    run_late tracks nf step es s1 = Some s →
    p_running (snd s1) = false → p_running (snd s) = false.
Proof.
  induction es as [|e es IH]; intros [m1 p1] s Hrun Hstop; simpl in *.
  { by injection Hrun as <-. }
  destruct (step_late tracks nf step e (m1, p1)) as [[m2 p2]|] eqn:Hev; [|done].
  cbn [mbind option_bind] in Hrun. apply (IH _ _ Hrun). simpl.
  destruct e as [out n|c|]; simpl in Hev.
  - apply process_player in Hev. subst p2.
    destruct (p_paused p1); [done|]. cbv zeta.
    destruct (bool_decide (p_track p1 ≠ p_next p1)); repeat case_match; simpl; done.
  - injection Hev as <- <-. by apply handle_key_running.
  - by injection Hev as <- <-.
Qed.

(** X17: the key [q] and SIGINT end the session for good: whatever
    callbacks, signals and keys follow, also a key that [read_key] returns
    after the signal and that the loop still handles, none of them sets
    [running] again. *)
Theorem quit_is_final (tracks : list track) nf step (e : event) (es : list event)
    (s0 s1 s : gmap nat (list F) * player) :
  e = Key "q" ∨ e = Sigint →
  step_late tracks nf step e s0 = Some s1 →
  run_late tracks nf step es s1 = Some s →
  p_running (snd s) = false.
Proof.
  intros He Hev Hrun.
  apply (running_stays_false tracks nf step es s1 s Hrun).
  destruct He as [-> | ->]; simpl in Hev; by injection Hev as <-.
Qed.

End Quit.

Lemma quit_is_final_witness :
  ∃ s,
    run_late ex_tracks 2 5 [Key "x"; Callback ex_out 2; Key "2"]
             (ex_heap, set_running false ex_player) = Some s
    ∧ p_running (snd s) = false.
Proof.
  eexists. split; [vm_compute; reflexivity|].
  apply (quit_is_final ex_tracks 2 5 Sigint [Key "x"; Callback ex_out 2; Key "2"]
           (ex_heap, ex_player) (ex_heap, set_running false ex_player)).
  - by right.
  - reflexivity.
  - vm_compute. reflexivity.
Defined.
